(** * qTox group chat form: the peer name list and the audio indicators

    A shallow embedding of [src/widget/form/groupchatform.cpp]:
    [editName], [GroupChatForm::updateUserNames] and
    [GroupChatForm::peerAudioPlaying] with the timeout lambda it connects,
    together with the parts of Qt they are written against ([QString],
    [QMap], [qSort], single-shot [QTimer]s). *)

From Stdlib Require Import String Ascii ZArith NArith Lia.
From stdpp Require Import base numbers list sorting.

(** ** QString

    A [QString] is a sequence of UTF-16 code units ([QChar]). *)

Definition QChar := N.
Abbreviation QString := (list QChar).

(** [QStringLiteral] / [QLatin1String] of an ASCII literal. *)
Definition QStringLiteral (s : string) : QString :=
  map N_of_ascii (list_ascii_of_string s).

(** U+2026 HORIZONTAL ELLIPSIS, one code unit. *)
Definition ellipsis : QString := [8230%N].

Definition QChar_eqb (a b : QChar) : bool := N.eqb a b.

(** [operator==] on strings. *)
Fixpoint QString_eqb (a b : QString) : bool :=
  match a, b with
  | [], [] => true
  | x :: a', y :: b' => QChar_eqb x y && QString_eqb a' b'
  | _, _ => false
  end.

(** [operator<] on strings: code unit by code unit, a proper prefix first. *)
Fixpoint QString_lt (a b : QString) : bool :=
  match a, b with
  | _, [] => false
  | [], _ :: _ => true
  | x :: a', y :: b' =>
      if N.ltb x y then true
      else if N.ltb y x then false
      else QString_lt a' b'
  end.

(** [a <= b] as C++ has it: [!(b < a)]. *)
Definition QString_le (a b : QString) : bool := negb (QString_lt b a).

(** The character class [[\n\r]] of the regular expression in [editName]. *)
Definition isNewline (c : QChar) : bool :=
  QChar_eqb c 10%N || QChar_eqb c 13%N.

Definition newline (c : QChar) : Prop := c = 10%N ∨ c = 13%N.

(** [QString::indexOf] for a one-character class: the position of the first
    match at or after position [i] of the whole string, [-1] when there is
    none. *)
Fixpoint indexOf_from (p : QChar -> bool) (s : QString) (i : Z) : Z :=
  match s with
  | [] => (-1)%Z
  | c :: s' => if p c then i else indexOf_from p s' (i + 1)%Z
  end.

Definition indexOf (p : QChar -> bool) (s : QString) : Z := indexOf_from p s 0%Z.

(** [QString::chop(n)]: removes [n] characters from the end; the empty
    string when [n >= size()], nothing when [n] is negative. *)
Definition chop (n : Z) (s : QString) : QString :=
  if (Z.of_nat (length s) <=? n)%Z then []
  else take (Z.to_nat (Z.of_nat (length s) - Z.max n 0)) s.

(** ** editName

    [pos] and [len] are [int]s; a [QString] is shorter than [2^31], so
    their arithmetic is the one of [Z]. *)

Definition editName (name : QString) : QString :=
  let pos := indexOf isNewline name in
  if (pos =? -1)%Z then name
  else
    let result := name in
    let len := Z.of_nat (length result) in
    let result := chop (len - pos)%Z result in
    result ++ ellipsis.

(** ** qSort

    [qSort(begin, end, lessThan)] of Qt 5 ([qalgorithms.h], [qSortHelper]):
    an in-place quicksort with a median-of-three pivot.  The array is a
    list, iterators are positions in it; [end_] is one past the last
    element on entry and is decremented to the last element, as in Qt.
    The tail call ([goto top]) and the recursive call both take [fuel];
    [qSort] gives as much as the array is long, which is enough
    ([qSortHelper_spec] below asks for no more than the span). *)

Section qSort.
Context {A : Type} (lessThan : A -> A -> bool).

(** [lessThan] on the elements two iterators point at. *)
Definition lessThan_at (a : list A) (i j : nat) : bool :=
  match a !! i, a !! j with
  | Some x, Some y => lessThan x y
  | _, _ => false
  end.

(** [qSwap] of the elements two iterators point at. *)
Definition qSwap (i j : nat) (a : list A) : list A :=
  match a !! i, a !! j with
  | Some x, Some y => <[j := x]> (<[i := y]> a)
  | _, _ => a
  end.

(** The inner loop that advances [low] while its element is less than the
    pivot, with
    [n = high - low] positions left to visit. *)
Fixpoint scanLow (a : list A) (e low n : nat) : nat :=
  match n with
  | O => low
  | S n' => if lessThan_at a low e then scanLow a e (S low) n' else low
  end.

(** The inner loop that retreats [high] while the pivot is less than its
    element. *)
Fixpoint scanHigh (a : list A) (e high n : nat) : nat :=
  match n with
  | O => high
  | S n' => if lessThan_at a e high then scanHigh a e (high - 1) n' else high
  end.

(** The [while (low < high)] loop of [qSortHelper]; it yields the array
    and [low]. *)
Fixpoint partitionLoop (fuel : nat) (a : list A) (e low high : nat)
  : list A * nat :=
  match fuel with
  | O => (a, low)
  | S fuel' =>
      if (low <? high)%nat then
        let low := scanLow a e low (high - low) in
        let high := scanHigh a e high (high - low) in
        if (low <? high)%nat then
          partitionLoop fuel' (qSwap low high a) e (S low) (high - 1)
        else (a, low)
      else (a, low)
  end.

Fixpoint qSortHelper (fuel : nat) (a : list A) (start end_ : nat) : list A :=
  match fuel with
  | O => a
  | S fuel' =>
      let span := (end_ - start)%nat in
      if (span <? 2)%nat then a
      else
        let end_ := (end_ - 1)%nat in
        let low := start in
        let high := (end_ - 1)%nat in
        let pivot := (start + span / 2)%nat in
        let a := if lessThan_at a end_ start then qSwap end_ start a else a in
        if (span =? 2)%nat then a
        else
          let a := if lessThan_at a pivot start then qSwap pivot start a else a in
          let a := if lessThan_at a end_ pivot then qSwap end_ pivot a else a in
          if (span =? 3)%nat then a
          else
            let a := qSwap pivot end_ a in
            let '(a, low) := partitionLoop span a end_ low high in
            let low := if lessThan_at a low end_ then S low else low in
            let a := qSwap end_ low a in
            let a := qSortHelper fuel' a start low in
            qSortHelper fuel' a (S low) (S end_)
  end.

Definition qSort (a : list A) : list A :=
  match a with
  | [] => a
  | _ => qSortHelper (length a) a 0 (length a)
  end.
End qSort.

(** A comparison of [B] read through [g]. *)
Definition lessThan_on {A B} (g : A → B) (lessThan : B → B → bool)
  : A → A → bool :=
  λ x y, lessThan (g x) (g y).

(** What the proofs say about a sort: [a'] holds the elements of [a],
    moved inside positions [s, e) only. *)
Definition rearranged {A} (s e : nat) (a a' : list A) : Prop :=
  a' ≡ₚ a ∧
  (∀ i, (i < s ∨ e ≤ i)%nat → a' !! i = a !! i) ∧
  (∀ P : A → Prop,
      (∀ i x, (s ≤ i < e)%nat → a !! i = Some x → P x) →
      ∀ i x, (s ≤ i < e)%nat → a' !! i = Some x → P x).

(** Positions [s, e) of [a] are in ascending order: no element is less than
    its predecessor. *)
Definition ascending {A} (lessThan : A → A → bool) (s e : nat) (a : list A) : Prop :=
  ∀ i x y, (s ≤ i)%nat → (S i < e)%nat →
    a !! i = Some x → a !! S i = Some y → lessThan y x = false.

(** ** QMap

    A [QMap<K, V>] keeps its entries in ascending key order and compares
    keys with [operator<] only; it is modelled by the list of its entries
    in that order. *)

Abbreviation QMap K V := (list (K * V)).

Module QMap.
Section QMap.
Context {K V : Type} (lt : K → K → bool).

Definition keys (m : QMap K V) : list K := m.*1.
Definition values (m : QMap K V) : list V := m.*2.

Definition isEmpty (m : QMap K V) : bool :=
  match m with [] => true | _ => false end.

(** [find(key)]: [None] stands for [end()]. *)
Fixpoint find (m : QMap K V) (k : K) : option V :=
  match m with
  | [] => None
  | (k', v) :: m' =>
      if lt k' k then find m' k
      else if lt k k' then None
      else Some v
  end.

(** [value(key)]: a default-constructed value when the key is absent. *)
Definition value (m : QMap K V) (k : K) (d : V) : V := default d (find m k).

(** [insert(key, value)]: replaces the value of a key already there. *)
Fixpoint insert (k : K) (v : V) (m : QMap K V) : QMap K V :=
  match m with
  | [] => [(k, v)]
  | (k', v') :: m' =>
      if lt k' k then (k', v') :: insert k v m'
      else if lt k k' then (k, v) :: (k', v') :: m'
      else (k, v) :: m'
  end.

(** [operator[](key)]: the value of the key, after inserting a
    default-constructed one when the key is absent. *)
Definition index (m : QMap K V) (k : K) (d : V) : QMap K V * V :=
  match find m k with
  | Some v => (m, v)
  | None => (insert k d m, d)
  end.

(** The keys are strictly ascending: what every [QMap] satisfies. *)
Definition wf (m : QMap K V) : Prop :=
  StronglySorted (λ a b, lt a b = true) (keys m).
End QMap.
End QMap.

(** ** Undefined behaviour

    [Fault] is what a dereference of a null or dangling pointer, [last()] of
    an empty list and [value()] of an [end()] iterator are modelled by. *)

Inductive result (A : Type) : Type :=
  | Ok (a : A)
  | Fault.
Arguments Ok {A} a.
Arguments Fault {A}.

#[export] Instance result_ret : MRet result := λ A a, Ok a.
#[export] Instance result_bind : MBind result := λ A B k r,
  match r with
  | Ok a => k a
  | Fault => Fault
  end.

(** ** What the form is written against

    [ToxPk] (the public key of a peer, of [src/core]) and [GroupNetCamView]
    ([src/video/groupnetcamview.h]) are classes of the repository that this
    file only uses, and [toLower] is [QString::toLower] of Qt: they are
    parameters of the model. [ToxPk_eqb] is [operator==], [ToxPk_lt] is
    [operator<], the order [QMap<ToxPk, _>] sorts by, and [ToxPk_toString]
    is [toString()]; the two laws are what the proofs use of them. *)

Class Collaborators := {
  ToxPk : Type;
  ToxPk_eqb : ToxPk → ToxPk → bool;
  ToxPk_lt : ToxPk → ToxPk → bool;
  ToxPk_toString : ToxPk → QString;
  toLower : QString → QString;
  GroupNetCamView : Type;
  addPeer : ToxPk → QString → GroupNetCamView → GroupNetCamView;
  removePeer : ToxPk → GroupNetCamView → GroupNetCamView;
  clearPeers : GroupNetCamView → GroupNetCamView;
  ToxPk_eqb_eq : ∀ a b, ToxPk_eqb a b = true ↔ a = b;
  ToxPk_lt_irrefl : ∀ a, ToxPk_lt a a = false;
}.

(** ** QLabel and QTimer *)

Inductive TextFormat := PlainText | RichText | AutoText.

Record QLabel := {
  text : QString;
  toolTip : QString;
  textFormat : TextFormat;
  styleSheet : QString;
}.

(** [new QLabel(text)]. *)
Definition QLabel_new (t : QString) : QLabel :=
  {| text := t; toolTip := []; textFormat := AutoText; styleSheet := [] |}.

Definition setText (t : QString) (l : QLabel) : QLabel :=
  {| text := t; toolTip := toolTip l; textFormat := textFormat l;
     styleSheet := styleSheet l |}.
Definition setToolTip (t : QString) (l : QLabel) : QLabel :=
  {| text := text l; toolTip := t; textFormat := textFormat l;
     styleSheet := styleSheet l |}.
Definition setTextFormat (t : TextFormat) (l : QLabel) : QLabel :=
  {| text := text l; toolTip := toolTip l; textFormat := t;
     styleSheet := styleSheet l |}.
Definition setStyleSheet (t : QString) (l : QLabel) : QLabel :=
  {| text := text l; toolTip := toolTip l; textFormat := textFormat l;
     styleSheet := t |}.

Definition green : QString := QStringLiteral "QLabel {color : green;}".
Definition darkRed : QString := QStringLiteral "QLabel {color : darkRed;}".
Definition red : QString := QStringLiteral "QLabel {color : red;}".

(** A timer; [deadline] is the time it fires at while it is active. The
    form reaches its timers through [peerAudioTimers] only, one map entry
    to a timer: [QTimer*] is [option QTimer], [None] for [nullptr], and
    [delete] leaves nothing behind. *)
Record QTimer := {
  singleShot : bool;
  deadline : option Z;
}.

(** [new QTimer(this)]. *)
Definition QTimer_new : QTimer := {| singleShot := false; deadline := None |}.
Definition setSingleShot (b : bool) (t : QTimer) : QTimer :=
  {| singleShot := b; deadline := deadline t |}.
(** [start(msec)] at time [now]: starts the timer, or restarts it when it
    is running. *)
Definition start (now msec : Z) (t : QTimer) : QTimer :=
  {| singleShot := singleShot t; deadline := Some (now + msec)%Z |}.
Definition stop (t : QTimer) : QTimer :=
  {| singleShot := singleShot t; deadline := None |}.

(** ** The label objects

    [QLabel*] is [option nat]: [None] is [nullptr], [Some l] the address of
    cell [l] of the store.  A cell is [None] once its label is deleted;
    [new] takes the next cell, so no address is used twice. *)

Abbreviation Labels := (list (option QLabel)).
Abbreviation QLabelPtr := (option nat).

Definition new_QLabel (t : QString) (h : Labels) : QLabelPtr * Labels :=
  (Some (length h), h ++ [Some (QLabel_new t)]).

Definition delete_QLabel (p : QLabelPtr) (h : Labels) : Labels :=
  match p with
  | Some l => <[l := None]> h
  | None => h
  end.

Definition deref (h : Labels) (p : QLabelPtr) : result QLabel :=
  match p with
  | Some l =>
      match h !! l with
      | Some (Some o) => Ok o
      | _ => Fault
      end
  | None => Fault
  end.

(** A call of a setter through a pointer. *)
Definition through (p : QLabelPtr) (g : QLabel → QLabel) (h : Labels)
  : result Labels :=
  o ← deref h p;
  match p with
  | Some l => Ok (<[l := Some (g o)]> h)
  | None => Fault
  end.

(** The same on a label that [new] has just returned. *)
Definition through_new (p : QLabelPtr) (g : QLabel → QLabel) (h : Labels)
  : Labels :=
  match p with
  | Some l => alter (fmap g) l h
  | None => h
  end.

(** [p->text()] where the sort reads it. The labels compared are the ones
    just created; read through any other pointer, the text is empty here. *)
Definition text_at (h : Labels) (p : QLabelPtr) : QString :=
  match deref h p with
  | Ok o => text o
  | Fault => []
  end.

(** ** GroupChatForm *)

Section GroupChatForm.
Context `{Collaborators}.

(** The members the name list and the audio indicators read and write.
    [peers] is [group->getPeerList()], [selfPk] is
    [Core::getInstance()->getSelfPublicKey()] and [blackList] is
    [Settings::getInstance().getBlackList()]. *)
Record GroupChatForm := {
  peers : QMap ToxPk QString;
  selfPk : ToxPk;
  blackList : list QString;
  netcam : option GroupNetCamView;
  labels : Labels;
  namesListLayout : list QLabelPtr;
  peerLabels : QMap ToxPk QLabelPtr;
  peerAudioTimers : QMap ToxPk (option QTimer);
}.

Definition set_peers (v : QMap ToxPk QString) (f : GroupChatForm) :=
  {| peers := v; selfPk := selfPk f; blackList := blackList f;
     netcam := netcam f; labels := labels f;
     namesListLayout := namesListLayout f; peerLabels := peerLabels f;
     peerAudioTimers := peerAudioTimers f |}.
Definition set_netcam (v : option GroupNetCamView) (f : GroupChatForm) :=
  {| peers := peers f; selfPk := selfPk f; blackList := blackList f;
     netcam := v; labels := labels f;
     namesListLayout := namesListLayout f; peerLabels := peerLabels f;
     peerAudioTimers := peerAudioTimers f |}.
Definition set_labels (v : Labels) (f : GroupChatForm) :=
  {| peers := peers f; selfPk := selfPk f; blackList := blackList f;
     netcam := netcam f; labels := v;
     namesListLayout := namesListLayout f; peerLabels := peerLabels f;
     peerAudioTimers := peerAudioTimers f |}.
Definition set_namesListLayout (v : list QLabelPtr) (f : GroupChatForm) :=
  {| peers := peers f; selfPk := selfPk f; blackList := blackList f;
     netcam := netcam f; labels := labels f;
     namesListLayout := v; peerLabels := peerLabels f;
     peerAudioTimers := peerAudioTimers f |}.
Definition set_peerLabels (v : QMap ToxPk QLabelPtr) (f : GroupChatForm) :=
  {| peers := peers f; selfPk := selfPk f; blackList := blackList f;
     netcam := netcam f; labels := labels f;
     namesListLayout := namesListLayout f; peerLabels := v;
     peerAudioTimers := peerAudioTimers f |}.
Definition set_peerAudioTimers (v : QMap ToxPk (option QTimer))
    (f : GroupChatForm) :=
  {| peers := peers f; selfPk := selfPk f; blackList := blackList f;
     netcam := netcam f; labels := labels f;
     namesListLayout := namesListLayout f; peerLabels := peerLabels f;
     peerAudioTimers := v |}.

(** [QStringList::contains]. *)
Definition contains (l : list QString) (s : QString) : bool :=
  existsb (QString_eqb s) l.

(** *** updateUserNames *)

(** The [takeAt(0)] loop: every label of the layout is hidden and deleted,
    and the layout is left empty. *)
Definition takeAll (f : GroupChatForm) : GroupChatForm :=
  set_namesListLayout []
    (set_labels (foldl (λ h p, delete_QLabel p h) (labels f) (namesListLayout f)) f).

(** The body of the loop over [peers.keys()]. *)
Definition labelPeer (peers : QMap ToxPk QString) (selfPk : ToxPk)
    (f : GroupChatForm) (peerPk : ToxPk) : GroupChatForm :=
  let fullName := QMap.value ToxPk_lt peers peerPk [] in
  let editedName := editName fullName ++ QStringLiteral ", " in
  let '(label, h) := new_QLabel editedName (labels f) in
  let h :=
    if negb (QString_eqb editedName fullName)
    then through_new label (setToolTip fullName) h
    else h in
  let h := through_new label (setTextFormat PlainText) h in
  let f := set_labels h f in
  let f :=
    if ToxPk_eqb peerPk selfPk then
      set_labels (through_new label (setStyleSheet green) (labels f)) f
    else if contains (blackList f) (ToxPk_toString peerPk) then
      set_labels (through_new label (setStyleSheet darkRed) (labels f)) f
    else
      match netcam f with
      | Some view => set_netcam (Some (addPeer peerPk fullName view)) f
      | None => f
      end in
  set_peerLabels (QMap.insert ToxPk_lt peerPk label (peerLabels f)) f.

(** The comparison [qSort] is given. *)
Definition labelLessThan (h : Labels) (a b : QLabelPtr) : bool :=
  QString_lt (toLower (text_at h a)) (toLower (text_at h b)).

(** [QList::last()]. *)
Definition QList_last {A} (l : list A) : result A :=
  match last l with
  | Some x => Ok x
  | None => Fault
  end.

(** The loop over [peers.keys()], and [clearPeers] after it. *)
Definition labelPeers (f : GroupChatForm) : GroupChatForm :=
  let peers := peers f in
  let selfPk := selfPk f in
  let f := foldl (labelPeer peers selfPk) f (QMap.keys peers) in
  match netcam f with
  | Some view => set_netcam (Some (clearPeers view)) f
  | None => f
  end.

(** [nickLabelList] once sorted. *)
Definition nickLabelList (f : GroupChatForm) : list QLabelPtr :=
  let nickLabelList := QMap.values (peerLabels f) in
  qSort (labelLessThan (labels f)) nickLabelList.

(** What follows the early return. *)
Definition rebuildNames (f : GroupChatForm) : result GroupChatForm :=
  let f := labelPeers f in
  let nickLabelList := nickLabelList f in
  lastLabel ← QList_last nickLabelList;
  o ← deref (labels f) lastLabel;
  let labelText := text o in
  let labelText := chop 2 labelText in
  h ← through lastLabel (setText labelText) (labels f);
  let f := set_labels h f in
  Ok (set_namesListLayout (namesListLayout f ++ nickLabelList) f).

Definition updateUserNames (f : GroupChatForm) : result GroupChatForm :=
  let f := takeAll f in
  let f := set_peerLabels [] f in
  let peers := peers f in
  if QMap.isEmpty peers then Ok f
  else rebuildNames f.

(** *** peerAudioPlaying *)

(** The lambda connected to the timer's [timeout]. *)
Definition audioTimeout (peerPk : ToxPk) (f : GroupChatForm)
  : result GroupChatForm :=
  let f :=
    match netcam f with
    | Some view => set_netcam (Some (removePeer peerPk view)) f
    | None => f
    end in
  let '(m, label) := QMap.index ToxPk_lt (peerLabels f) peerPk None in
  let f := set_peerLabels m f in
  h ← through label (setStyleSheet []) (labels f);
  let f := set_labels h f in
  Ok (set_peerAudioTimers
        (QMap.insert ToxPk_lt peerPk None (peerAudioTimers f)) f).

Definition peerAudioPlaying (now : Z) (peerPk : ToxPk) (f : GroupChatForm)
  : result GroupChatForm :=
  let '(m, label) := QMap.index ToxPk_lt (peerLabels f) peerPk None in
  let f := set_peerLabels m f in
  h ← through label (setStyleSheet red) (labels f);
  let f := set_labels h f in
  let '(m, timer) := QMap.index ToxPk_lt (peerAudioTimers f) peerPk None in
  let f := set_peerAudioTimers m f in
  f ← match timer with
      | Some _ => Ok f
      | None =>
          let f := set_peerAudioTimers
                     (QMap.insert ToxPk_lt peerPk
                        (Some (setSingleShot true QTimer_new))
                        (peerAudioTimers f)) f in
          match netcam f with
          | Some view =>
              let view := removePeer peerPk view in
              match QMap.find ToxPk_lt (peers f) peerPk with
              | Some name =>
                  Ok (set_netcam (Some (addPeer peerPk name view)) f)
              | None => Fault
              end
          | None => Ok f
          end
      end;
  let '(m, timer) := QMap.index ToxPk_lt (peerAudioTimers f) peerPk None in
  match timer with
  | Some t =>
      Ok (set_peerAudioTimers
            (QMap.insert ToxPk_lt peerPk (Some (start now 500 t)) m) f)
  | None => Fault
  end.

(** *** The event loop

    Everything runs on the GUI thread. An active timer fires when the
    clock reaches its deadline; the timers due by a given time fire in
    the order of their deadlines, before the event that arrives then. *)

(** [hideNetcam] is a method of [GenericChatForm], the base class of the
    form ([src/widget/form/genericchatform.h]), which this file calls and
    does not define: a parameter of the model. *)
Class BaseForm := {
  GenericChatForm_hideNetcam : GroupChatForm → GroupChatForm;
}.
Context `{BaseForm}.

(** *** onUserListChanged

    What the slot does to the members above. [peersCount] is
    [group->getPeersCount()]. [updateUserCount] writes the count label, and
    [updateCallButtons] and [leaveGroupCall] are calls to the header and to
    the AV: they are in [onUserListChanged] of the call controls, below. *)
Definition userListChanged (peersCount : Z) (isAvGroupchat : bool)
    (f : GroupChatForm) : result GroupChatForm :=
  f ← updateUserNames f;
  let online := (1 <? peersCount)%Z in
  if negb online || negb isAvGroupchat
  then Ok (GenericChatForm_hideNetcam f)
  else Ok f.

(** An audio frame of a peer arrives, or the group has a new peer list:
    [newPeers] is what [group->getPeerList()] returns from then on, and
    [peersCount] and [isAvGroupchat] are what the group answers the
    slot. *)
Inductive Event :=
  | AudioPlaying (peerPk : ToxPk)
  | UserListChanged (newPeers : QMap ToxPk QString) (peersCount : Z)
      (isAvGroupchat : bool).

(** Group::userListChanged is connected to [onUserListChanged]. *)
Definition handle (now : Z) (ev : Event) (f : GroupChatForm)
  : result GroupChatForm :=
  match ev with
  | AudioPlaying peerPk => peerAudioPlaying now peerPk f
  | UserListChanged newPeers peersCount isAvGroupchat =>
      userListChanged peersCount isAvGroupchat (set_peers newPeers f)
  end.

(** The deadline of the active timer of a peer. *)
Definition pending (f : GroupChatForm) (peerPk : ToxPk) : option Z :=
  match QMap.find ToxPk_lt (peerAudioTimers f) peerPk with
  | Some (Some t) => deadline t
  | _ => None
  end.

(** The active timers due by [t]. *)
Definition dueTimers (t : Z) (f : GroupChatForm) : list (Z * ToxPk) :=
  omap (λ e : ToxPk * option QTimer,
          match e.2 with
          | Some timer =>
              match deadline timer with
              | Some d => if (d <=? t)%Z then Some (d, e.1) else None
              | None => None
              end
          | None => None
          end) (peerAudioTimers f).

(** Insertion by deadline, first come first among equal deadlines. *)
Fixpoint byDeadline (x : Z * ToxPk) (l : list (Z * ToxPk)) : list (Z * ToxPk) :=
  match l with
  | [] => [x]
  | y :: l' => if (x.1 <? y.1)%Z then x :: l else y :: byDeadline x l'
  end.

(** A run records the time and the state after each handler. *)
Definition Trace := list (Z * GroupChatForm).

(** A single-shot timer stops when it fires; then its slot runs. *)
Definition fire (d : Z) (peerPk : ToxPk) (f : GroupChatForm)
  : result GroupChatForm :=
  match QMap.find ToxPk_lt (peerAudioTimers f) peerPk with
  | Some (Some timer) =>
      audioTimeout peerPk
        (set_peerAudioTimers
           (QMap.insert ToxPk_lt peerPk (Some (stop timer)) (peerAudioTimers f)) f)
  | _ => Ok f
  end.

Fixpoint fireAll (due : list (Z * ToxPk)) (f : GroupChatForm) (tr : Trace)
  : result (GroupChatForm * Trace) :=
  match due with
  | [] => Ok (f, tr)
  | (d, peerPk) :: due' =>
      f' ← fire d peerPk f;
      fireAll due' f' (tr ++ [(d, f')])
  end.

Definition advance (t : Z) (f : GroupChatForm) (tr : Trace)
  : result (GroupChatForm * Trace) :=
  fireAll (foldr byDeadline [] (dueTimers t f)) f tr.

(** The events, in the order of their times, then the clock runs on to
    [tEnd]. *)
Fixpoint run (evs : list (Z * Event)) (tEnd : Z) (f : GroupChatForm)
    (tr : Trace) : result (GroupChatForm * Trace) :=
  match evs with
  | [] => advance tEnd f tr
  | (t, ev) :: evs' =>
      '(f, tr) ← advance t f tr;
      f' ← handle t ev f;
      run evs' tEnd f' (tr ++ [(t, f')])
  end.

(** A peer counts as speaking while it has a timer. *)
Definition speaking (f : GroupChatForm) (peerPk : ToxPk) : bool :=
  match QMap.find ToxPk_lt (peerAudioTimers f) peerPk with
  | Some (Some _) => true
  | _ => false
  end.

(** The times at which an observation of the state changes along a run,
    with what it changes to, from the state [s] on. *)
Fixpoint changes {S A} `{EqDecision A} (obs : S → A) (s : S)
    (tr : list (Z * S)) : list (Z * A) :=
  match tr with
  | [] => []
  | (t, s') :: tr' =>
      if decide (obs s = obs s')
      then changes obs s' tr'
      else (t, obs s') :: changes obs s' tr'
  end.

(** The times at which a peer starts ([true]) and stops ([false]) having
    a timer. *)
Definition transitions (peerPk : ToxPk) (f : GroupChatForm) (tr : Trace)
  : list (Z * bool) :=
  changes (λ f, speaking f peerPk) f tr.

(** The deadlines the timer of a peer is given, and when. *)
Definition deadlines (peerPk : ToxPk) (f : GroupChatForm) (tr : Trace)
  : list (Z * option Z) :=
  changes (λ f, pending f peerPk) f tr.

(** *** What is on display *)

(** The labels of the layout, in its order. *)
Definition displayed (f : GroupChatForm) : list (result QLabel) :=
  deref (labels f) <$> namesListLayout f.

(** The label of a peer. *)
Definition labelOf (f : GroupChatForm) (peerPk : ToxPk) : result QLabel :=
  match QMap.find ToxPk_lt (peerLabels f) peerPk with
  | Some p => deref (labels f) p
  | None => Fault
  end.

(** A peer is shown as speaking while its label has the red style
    sheet. *)
Definition shownSpeaking (f : GroupChatForm) (peerPk : ToxPk) : bool :=
  match labelOf f peerPk with
  | Ok o => QString_eqb (styleSheet o) red
  | Fault => false
  end.

(** The times at which the label of a peer turns red ([true]) and stops
    being red ([false]). *)
Definition shownTransitions (peerPk : ToxPk) (f : GroupChatForm) (tr : Trace)
  : list (Z * bool) :=
  changes (λ f, shownSpeaking f peerPk) f tr.
End GroupChatForm.

(** ** What the statements below are written with *)

Section Statements.
Context `{Collaborators}.

(** The label [updateUserNames] makes for a peer called [fullName]. *)
Definition peerLabel (selfPk : ToxPk) (blackList : list QString)
    (e : ToxPk * QString) : QLabel :=
  {| text := editName e.2 ++ QStringLiteral ", ";
     toolTip := e.2;
     textFormat := PlainText;
     styleSheet :=
       if ToxPk_eqb e.1 selfPk then green
       else if contains blackList (ToxPk_toString e.1) then darkRed
       else [] |}.

(** [operator<] on the lowercased texts, as the sort compares labels. *)
Definition textLessThan (a b : QLabel) : bool :=
  QString_lt (toLower (text a)) (toLower (text b)).

(** The last label loses its separator. *)
Definition chopLast (l : list QLabel) : list QLabel :=
  match last l with
  | Some o => removelast l ++ [setText (chop 2 (text o)) o]
  | None => []
  end.

(** The name list as a function of the roster, the own key and the
    blacklist. *)
Definition nameList (peers : QMap ToxPk QString) (selfPk : ToxPk)
    (blackList : list QString) : list QLabel :=
  chopLast (qSort textLessThan (peerLabel selfPk blackList <$> peers)).

(** The full name of an entry on display: [updateUserNames] stores it as
    the tool tip of every label it makes. *)
Definition fullName (o : QLabel) : QString := toolTip o.

(** The key the spec sorts by. *)
Definition fullNameKey (o : QLabel) : QString := toLower (fullName o).

(** What the loop over the peers leaves alone. *)
Definition same_inputs (f g : GroupChatForm) : Prop :=
  peers g = peers f ∧ selfPk g = selfPk f ∧ blackList g = blackList f ∧
  namesListLayout g = namesListLayout f ∧
  peerAudioTimers g = peerAudioTimers f.

(** What a pass of [updateUserNames] establishes. *)
Definition rebuilt (f f' : GroupChatForm) : Prop :=
  displayed f' = Ok <$> nameList (peers f) (selfPk f) (blackList f) ∧
  peers f' = peers f ∧ selfPk f' = selfPk f ∧ blackList f' = blackList f ∧
  peerAudioTimers f' = peerAudioTimers f ∧
  QMap.keys (peerLabels f') = QMap.keys (peers f) ∧
  ∀ k v, (k, v) ∈ peers f →
    ∃ o, labelOf f' k = Ok o ∧ toolTip o = v ∧
         styleSheet o = styleSheet (peerLabel (selfPk f) (blackList f) (k, v)).

(** No peer has a timer. *)
Definition idle (f : GroupChatForm) : Prop :=
  Forall (λ e, e.2 = None) (peerAudioTimers f).

(** The audio timers of [f] are those of [f0], but for peer [pk], whose
    timer is [v]. *)
Definition only (pk : ToxPk) (v : option QTimer) (f f0 : GroupChatForm) : Prop :=
  peerAudioTimers f = QMap.insert ToxPk_lt pk v (peerAudioTimers f0).

(** The timers that exist. *)
Definition timers (f : GroupChatForm) : list QTimer :=
  omap snd (peerAudioTimers f).

Inductive StyleTag := self | blacklisted | normal.

Definition styleTag (o : QLabel) : option StyleTag :=
  if QString_eqb (styleSheet o) green then Some self
  else if QString_eqb (styleSheet o) darkRed then Some blacklisted
  else if QString_eqb (styleSheet o) [] then Some normal
  else None.
End Statements.

(** ** A concrete setting

    Keys are numbers, [P1], [P2], ... as strings; [toLower] lowers ASCII
    letters; the net-camera view is the list of the peers it shows. *)

Definition ascii_toLower (c : QChar) : QChar :=
  if ((65 <=? c) && (c <=? 90))%N then (c + 32)%N else c.

#[export] Instance demo : Collaborators := {|
  ToxPk := N;
  ToxPk_eqb := N.eqb;
  ToxPk_lt := N.ltb;
  ToxPk_toString := λ k, QStringLiteral "P" ++ [(48 + k)%N];
  toLower := fmap ascii_toLower;
  GroupNetCamView := list (N * QString);
  addPeer := λ k name v, v ++ [(k, name)];
  removePeer := λ k v, filter (λ e, e.1 ≠ k) v;
  clearPeers := λ _, [];
  ToxPk_eqb_eq := N.eqb_eq;
  ToxPk_lt_irrefl := N.ltb_irrefl;
|}.

(** [hideNetcam] leaves the form without a view. *)
#[export] Instance demoBase : BaseForm := {|
  GenericChatForm_hideNetcam := set_netcam None;
|}.

(** A form that shows nothing yet. *)
Definition emptyForm (roster : QMap N QString) (self : N)
    (black : list QString) : GroupChatForm :=
  {| peers := roster; selfPk := self; blackList := black; netcam := None;
     labels := []; namesListLayout := []; peerLabels := [];
     peerAudioTimers := [] |}.

(** The texts on display, for reading examples. *)
Definition shown `{Collaborators} (r : result GroupChatForm) : list (result QLabel) :=
  match r with
  | Ok f => displayed f
  | Fault => []
  end.

(** ** The claims that do not hold, as they are stated *)

Section Claimed.
Context `{Collaborators}.

(** The entries are in ascending order of the lowercased full name. *)
Definition sorted_by_fullName (entries : list QLabel) : Prop :=
  ∀ i a b, entries !! i = Some a → entries !! S i = Some b →
    QString_le (fullNameKey a) (fullNameKey b) = true.

(** Peers whose lowercased full names are equal are displayed in the
    order the roster has them in. *)
Definition ties_in_roster_order (roster : QMap ToxPk QString)
    (entries : list QLabel) : Prop :=
  ∀ i j n1 n2 i' j',
    QMap.values roster !! i = Some n1 → QMap.values roster !! j = Some n2 →
    (i < j)%nat → n1 ≠ n2 → toLower n1 = toLower n2 →
    (fullName <$> entries) !! i' = Some n1 →
    (fullName <$> entries) !! j' = Some n2 →
    (i' < j')%nat.

(** An event for the peer is handled as a no-op. *)
Definition no_op (handler : GroupChatForm → result GroupChatForm)
    (f : GroupChatForm) : Prop :=
  handler f = Ok f.

(** No timer is pending for a peer that is not in the roster. *)
Definition cancelled_on_removal (f : GroupChatForm) : Prop :=
  ∀ peerPk, QMap.find ToxPk_lt (peers f) peerPk = None →
    pending f peerPk = None.

(** An activity event for a peer that has a timer does not apply the
    style of a speaking peer again: it leaves the label as it is. *)
Definition not_re_emitted (now : Z) (peerPk : ToxPk) (f : GroupChatForm)
  : Prop :=
  speaking f peerPk = true →
  ∀ f', peerAudioPlaying now peerPk f = Ok f' →
    labelOf f' peerPk = labelOf f peerPk.
End Claimed.

(** ** The peers that are heard

    What the handlers of the audio indicators are written for: every
    other peer that has a timer has a live label, and it is not the
    label of [peerPk]. [updateUserNames] gives every peer of the roster
    a label of its own. *)

Section Heard.
Context `{Collaborators}.

Definition heard_have_labels (peerPk : ToxPk) (f : GroupChatForm) : Prop :=
  ∀ pk t,
    QMap.find ToxPk_lt (peerAudioTimers f) pk = Some (Some t) → pk ≠ peerPk →
    ∃ l o,
      QMap.find ToxPk_lt (peerLabels f) pk = Some (Some l) ∧
      labels f !! l = Some (Some o) ∧
      QMap.find ToxPk_lt (peerLabels f) peerPk ≠ Some (Some l).

(** What the form holds for a peer: its label and its timer. *)
Definition audioView (peerPk : ToxPk) (f : GroupChatForm)
  : result QLabel * option (option QTimer) :=
  (labelOf f peerPk, QMap.find ToxPk_lt (peerAudioTimers f) peerPk).
End Heard.

(** What a run shows of a view of the state, from the view [v] on: the
    rows that leave the view as it is may be passed over. *)
Inductive shows {S V} (view : S → V) : V → list (Z * S) → list (Z * V) → Prop :=
  | shows_nil v : shows view v [] []
  | shows_same v t s tr kv :
      view s = v → shows view v tr kv → shows view v ((t, s) :: tr) kv
  | shows_change v t s tr kv :
      shows view (view s) tr kv →
      shows view v ((t, s) :: tr) ((t, view s) :: kv).

(** Rosters and runs of the examples. *)

Definition roster_tie : QMap N QString :=
  [(1%N, QStringLiteral "b"); (2%N, QStringLiteral "B");
   (3%N, QStringLiteral "a")].

Definition roster_two_tie : QMap N QString :=
  [(1%N, QStringLiteral "b"); (2%N, QStringLiteral "B")].

Definition roster_Me_Eve : QMap N QString :=
  [(1%N, QStringLiteral "Me"); (2%N, QStringLiteral "Eve")].

Definition roster_Me : QMap N QString := [(1%N, QStringLiteral "Me")].

(** [P1] is the own key and [P2] is blacklisted. *)
Definition form_Me_Eve : GroupChatForm :=
  emptyForm roster_Me_Eve 1%N [QStringLiteral "P2"].

(** The form once the labels of [Me] and [Eve] are made. *)
Definition labelled_Me_Eve : GroupChatForm :=
  {| peers := roster_Me_Eve; selfPk := 1%N; blackList := [];
     netcam := None;
     labels := [Some (setText (QStringLiteral "Me")
                        (peerLabel 1%N [] (1%N, QStringLiteral "Me")));
                Some (peerLabel 1%N [] (2%N, QStringLiteral "Eve"))];
     namesListLayout := [Some 1%nat; Some 0%nat];
     peerLabels := [(1%N, Some 0%nat); (2%N, Some 1%nat)];
     peerAudioTimers := [] |}.

(** [P2] is heard at 200 ms and leaves the roster, which then has one
    peer, at 300 ms. *)
Definition heard_then_removed : list (Z * Event) :=
  [(200%Z, AudioPlaying 2%N); (300%Z, UserListChanged roster_Me 1 true)].

(** [P2] is heard at 0 ms and the group announces its peer list, which
    is the same, at 100 ms. *)
Definition heard_relabelled : list (Z * Event) :=
  [(0%Z, AudioPlaying 2%N); (100%Z, UserListChanged roster_Me_Eve 2 true)].

(** A name and the same name with a second word. *)
Definition roster_two_words : QMap N QString :=
  [(1%N, QStringLiteral "a"); (2%N, QStringLiteral "a b")].

(** [P1] has a timer, with a label of its own. *)
Definition Me_heard : GroupChatForm :=
  set_peerAudioTimers
    [(1%N, Some {| singleShot := true; deadline := Some 300%Z |})]
    labelled_Me_Eve.

(** ** The net-camera view and the store of labels *)

Section Views.
Context `{Collaborators}.

(** The peers [updateUserNames] adds to the net-camera view: the ones that
    are neither the own key nor blacklisted. *)
Definition viewed (selfPk : ToxPk) (blackList : list QString)
    (e : ToxPk * QString) : bool :=
  negb (ToxPk_eqb e.1 selfPk) && negb (contains blackList (ToxPk_toString e.1)).

(** [addPeer] for each of a list of peers, in its order. *)
Definition addPeers (l : QMap ToxPk QString) (view : GroupNetCamView)
  : GroupNetCamView :=
  foldl (λ view e, addPeer e.1 e.2 view) view l.

(** The label a pointer of the layout or of [peerLabels] refers to is
    live. *)
Definition live (f : GroupChatForm) (p : QLabelPtr) : Prop :=
  ∃ o, deref (labels f) p = Ok o.
End Views.

(** ** createNetcam *)

Section NetCam.
Context `{Collaborators}.

(** [view] is the [GroupNetCamView] that [new] returns; the names are
    [group->getPeerList()] and the own key is
    [Core::getInstance()->getSelfPublicKey()], as in [updateUserNames]. *)
Definition createNetcam (view : GroupNetCamView) (f : GroupChatForm)
  : result GroupNetCamView :=
  let names := peers f in
  let ownPk := selfPk f in
  foldl (λ r peerPk,
           view ← r;
           if negb (ToxPk_eqb peerPk ownPk) then
             match QMap.find ToxPk_lt names peerPk with
             | Some name => Ok (addPeer peerPk name view)
             | None => Fault
             end
           else Ok view)
        (Ok view) (QMap.keys names).

(** The peers [createNetcam] shows. *)
Definition notOwn (ownPk : ToxPk) (e : ToxPk * QString) : bool :=
  negb (ToxPk_eqb e.1 ownPk).
End NetCam.

(** ** The call controls

    [inCall] is a member of the form; [audioInputFlag] and
    [audioOutputFlag] are members of [GenericChatForm] that the handlers
    of this file read and write. *)

Record CallControls := {
  inCall : bool;
  audioInputFlag : bool;
  audioOutputFlag : bool;
}.

(** What the handlers do to the objects around the form, in the order
    they do it: the calls of [CoreAV], of the header widget, and
    [showNetcam] and [hideNetcam] of [GenericChatForm]. *)
Inductive Effect :=
  | joinGroupCall
  | leaveGroupCall
  | muteCallInput (mute : bool)
  | muteCallOutput (mute : bool)
  | showNetcam
  | hideNetcam
  | updateCallButtons (online active : bool)
  | updateMuteMicButton (active mute : bool)
  | updateMuteVolButton (active mute : bool).

(** [oldMuteState] is what [av->isGroupCallInputMuted(group)] answers. *)
Definition onMicMuteToggle (oldMuteState : bool) (s : CallControls)
  : CallControls * list Effect :=
  if audioInputFlag s then
    let newMute := negb oldMuteState in
    (s, [muteCallInput newMute; updateMuteMicButton (inCall s) newMute])
  else (s, []).


(** [peersCount] is [group->getPeersCount()]; [inMute] and [outMute] are
    what the AV answers once the call is joined or left. *)
Definition onCallClicked (peersCount : Z) (inMute outMute : bool)
    (s : CallControls) : CallControls * list Effect :=
  let '(s, es) :=
    if negb (inCall s) then
      ({| inCall := true; audioInputFlag := true; audioOutputFlag := true |},
       [joinGroupCall; showNetcam])
    else
      ({| inCall := false; audioInputFlag := false; audioOutputFlag := false |},
       [leaveGroupCall; hideNetcam]) in
  let online := (1 <? peersCount)%Z in
  (s, es ++ [updateCallButtons online (inCall s);
             updateMuteMicButton (inCall s) inMute;
             updateMuteVolButton (inCall s) outMute]).

(** What [onUserListChanged] does once [updateUserCount] and
    [updateUserNames] are back. *)
Definition onUserListChanged (peersCount : Z) (isAvGroupchat : bool)
    (s : CallControls) : CallControls * list Effect :=
  let online := (1 <? peersCount)%Z in
  let es := [updateCallButtons online (inCall s)] in
  if negb online || negb isAvGroupchat
  then (s, es ++ [leaveGroupCall; hideNetcam])
  else (s, es).

(** [Qt::Key_P] and [Qt::ControlModifier]. *)
Definition Key_P : Z := 0x50.
Definition ControlModifier : Z := 0x04000000.

(** Push to talk. [modifiers & Qt::ControlModifier] is a set of flags,
    true when it is not empty. *)
Definition keyPressEvent (key modifiers : Z) (oldMuteState : bool)
    (s : CallControls) : CallControls * list Effect :=
  if (key =? Key_P)%Z && negb (Z.land modifiers ControlModifier =? 0)%Z
     && inCall s
  then onMicMuteToggle oldMuteState s
  else (s, []).

Definition keyReleaseEvent (key modifiers : Z) (oldMuteState : bool)
    (s : CallControls) : CallControls * list Effect :=
  if (key =? Key_P)%Z && negb (Z.land modifiers ControlModifier =? 0)%Z
     && inCall s
  then onMicMuteToggle oldMuteState s
  else (s, []).




(** The two flags say what [inCall] says. *)
Definition coherent (s : CallControls) : Prop :=
  audioInputFlag s = inCall s ∧ audioOutputFlag s = inCall s.


(** A form that is in no call. *)
Definition notInCall : CallControls :=
  {| inCall := false; audioInputFlag := false; audioOutputFlag := false |}.

(** * Proofs *)

(** ** QString *)

Lemma QString_eqb_eq (a b : QString) : QString_eqb a b = true ↔ a = b.
Proof.
  revert b. induction a as [|x a IH]; intros [|y b]; simpl; try done.
  unfold QChar_eqb. rewrite andb_true_iff, N.eqb_eq, IH.
  split; [by intros [-> ->]|by intros [= -> ->]].
Qed.

Lemma QString_eqb_length (a b : QString) :
  length a ≠ length b → QString_eqb a b = false.
Proof.
  intros Hne. destruct (QString_eqb a b) eqn:Heq; [|done].
  apply QString_eqb_eq in Heq. by subst.
Qed.

Lemma QString_lt_asym (a b : QString) :
  QString_lt a b = true → QString_lt b a = false.
Proof.
  revert b. induction a as [|x a IH]; intros [|y b]; simpl; try done.
  destruct (N.ltb_spec x y), (N.ltb_spec y x); try done; try lia. apply IH.
Qed.

Lemma QString_lt_trans (a b c : QString) :
  QString_lt a b = true → QString_lt b c = true → QString_lt a c = true.
Proof.
  revert b c. induction a as [|x a IH]; intros [|y b] [|z c]; simpl; try done.
  destruct (N.ltb_spec x y), (N.ltb_spec y x), (N.ltb_spec y z),
    (N.ltb_spec z y), (N.ltb_spec x z), (N.ltb_spec z x);
    try done; try lia.
  apply IH.
Qed.

Lemma QString_lt_irrefl (a : QString) : QString_lt a a = false.
Proof.
  destruct (QString_lt a a) eqn:Hlt; [|done].
  by rewrite (QString_lt_asym _ _ Hlt) in Hlt.
Qed.

(** ** editName

    [pos] and [len] are [int]s; a [QString] is shorter than [2^31], so
    their arithmetic is the one of [Z]. *)

Lemma isNewline_true c : isNewline c = true ↔ newline c.
Proof.
  unfold isNewline, newline, QChar_eqb.
  rewrite orb_true_iff, !N.eqb_eq. done.
Qed.

Lemma isNewline_false c : isNewline c = false ↔ ¬ newline c.
Proof.
  rewrite <- isNewline_true. destruct (isNewline c); naive_solver.
Qed.

Lemma indexOf_from_none (s : QString) i :
  Forall (λ c, ¬ newline c) s → indexOf_from isNewline s i = (-1)%Z.
Proof.
  intros Hs. revert i. induction Hs as [|c s Hc _ IH]; intros i; simpl; [done|].
  apply isNewline_false in Hc. rewrite Hc. apply IH.
Qed.

Lemma indexOf_from_first (pre : QString) c post i :
  Forall (λ c, ¬ newline c) pre → newline c →
  indexOf_from isNewline (pre ++ c :: post) i = (i + Z.of_nat (length pre))%Z.
Proof.
  intros Hpre Hc. revert i.
  induction Hpre as [|d pre Hd _ IH]; intros i; simpl.
  - apply isNewline_true in Hc. rewrite Hc. lia.
  - apply isNewline_false in Hd. rewrite Hd, IH. lia.
Qed.

Lemma editName_unchanged (name : QString) :
  Forall (λ c, ¬ newline c) name → editName name = name.
Proof.
  intros Hs. unfold editName, indexOf. by rewrite indexOf_from_none.
Qed.

Lemma editName_truncated (pre : QString) c post :
  Forall (λ c, ¬ newline c) pre → newline c →
  editName (pre ++ c :: post) = pre ++ ellipsis.
Proof.
  intros Hpre Hc. unfold editName, indexOf.
  rewrite indexOf_from_first by done.
  destruct (Z.eqb_spec (0 + Z.of_nat (length pre)) (-1)); [lia|].
  f_equal. unfold chop. rewrite length_app. simpl.
  destruct (Z.leb_spec (Z.of_nat (length pre + S (length post)))
              (Z.of_nat (length pre + S (length post)) - (0 + Z.of_nat (length pre)))).
  - assert (length pre = 0)%nat as Hnil by lia.
    by apply nil_length_inv in Hnil as ->.
  - rewrite take_app_length'; [done|lia].
Qed.

(** A name has no newline, or a first one. *)
Lemma first_newline (name : QString) :
  Forall (λ c, ¬ newline c) name ∨
  ∃ pre c post, name = pre ++ c :: post ∧ Forall (λ c, ¬ newline c) pre ∧ newline c.
Proof.
  induction name as [|d name IH]; [by left|].
  destruct (isNewline d) eqn:Hd.
  - right. exists [], d, name. apply isNewline_true in Hd. auto.
  - apply isNewline_false in Hd. destruct IH as [IH|(pre & c & post & -> & Hpre & Hc)].
    + left. by constructor.
    + right. exists (d :: pre), c, post. repeat split; auto.
Qed.

(** C5. [editName] returns a name without a line feed or a carriage return
    as it is; otherwise it returns what stands before the first of them,
    followed by one ellipsis character. *)
Theorem editName_spec (name : QString) :
  (Forall (λ c, ¬ newline c) name → editName name = name) ∧
  (∀ pre c post,
      name = pre ++ c :: post → Forall (λ c, ¬ newline c) pre → newline c →
      editName name = pre ++ [8230%N]) ∧
  editName (QStringLiteral "Alice" ++ [10%N] ++ QStringLiteral "Smith")
    = QStringLiteral "Alice" ++ [8230%N] ∧
  editName (QStringLiteral "Bob") = QStringLiteral "Bob".
Proof.
  split; [apply editName_unchanged|]. split; [|done].
  intros pre c post -> Hpre Hc. by apply editName_truncated.
Qed.

Section qSort_facts.
Context {A : Type}.
Implicit Types a : list A.

Lemma qSwap_length i j a : length (qSwap i j a) = length a.
Proof.
  unfold qSwap. destruct (a !! i), (a !! j); auto.
  by rewrite !length_insert.
Qed.

Lemma qSwap_same i a : qSwap i i a = a.
Proof.
  unfold qSwap. destruct (a !! i) as [x|] eqn:Hi; auto.
  rewrite list_insert_insert_eq. by apply list_insert_id.
Qed.

Lemma qSwap_lookup_l i j a :
  (i < length a)%nat -> (j < length a)%nat -> qSwap i j a !! i = a !! j.
Proof.
  intros Hi Hj. unfold qSwap.
  destruct (lookup_lt_is_Some_2 a i Hi) as [x Hx].
  destruct (lookup_lt_is_Some_2 a j Hj) as [y Hy].
  rewrite Hx, Hy. destruct (decide (i = j)) as [->|Hne].
  - rewrite list_lookup_insert_eq; [congruence|by rewrite length_insert].
  - rewrite list_lookup_insert_ne by done.
    by rewrite list_lookup_insert_eq.
Qed.

Lemma qSwap_lookup_r i j a :
  (i < length a)%nat -> (j < length a)%nat -> qSwap i j a !! j = a !! i.
Proof.
  intros Hi Hj. unfold qSwap.
  destruct (lookup_lt_is_Some_2 a i Hi) as [x Hx].
  destruct (lookup_lt_is_Some_2 a j Hj) as [y Hy].
  rewrite Hx, Hy. rewrite list_lookup_insert_eq; [done|by rewrite length_insert].
Qed.

Lemma qSwap_lookup_ne i j k a :
  k ≠ i -> k ≠ j -> qSwap i j a !! k = a !! k.
Proof.
  intros Hi Hj. unfold qSwap. destruct (a !! i), (a !! j); auto.
  by rewrite !list_lookup_insert_ne.
Qed.

Lemma insert_cons_Permutation a j (x y : A) :
  a !! j = Some y -> y :: <[j := x]> a ≡ₚ x :: a.
Proof.
  revert j. induction a as [|z a IH]; intros [|j] Hj; simplify_eq/=.
  - apply perm_swap.
  - rewrite (perm_swap z y). rewrite (IH _ Hj). apply perm_swap.
Qed.

Lemma qSwap_Permutation i j a : qSwap i j a ≡ₚ a.
Proof.
  unfold qSwap. destruct (a !! i) as [x|] eqn:Hi; [|done].
  destruct (a !! j) as [y|] eqn:Hj; [|done].
  revert i j Hi Hj. induction a as [|z a IH]; intros [|i] [|j] Hi Hj;
    simplify_eq/=; try done.
  - by apply insert_cons_Permutation.
  - by apply insert_cons_Permutation.
  - f_equiv. by apply IH.
Qed.
End qSort_facts.

Section qSort_spec.
Context {A : Type} (lessThan : A -> A -> bool).
Implicit Types a : list A.

Lemma rearranged_refl s e a : rearranged s e a a.
Proof. repeat split; eauto. Qed.

Lemma rearranged_trans s e a1 a2 a3 :
  rearranged s e a1 a2 → rearranged s e a2 a3 → rearranged s e a1 a3.
Proof.
  intros (Hp1 & Ho1 & Hs1) (Hp2 & Ho2 & Hs2). repeat split.
  - by rewrite Hp2.
  - intros i Hi. rewrite Ho2, Ho1; auto.
  - intros P HP. apply Hs2, Hs1, HP.
Qed.

Lemma rearranged_length s e a a' : rearranged s e a a' → length a' = length a.
Proof. intros (Hp & _). by rewrite Hp. Qed.

Lemma rearranged_weaken s e s' e' a a' :
  (s' ≤ s)%nat → (e ≤ e')%nat → rearranged s e a a' → rearranged s' e' a a'.
Proof.
  intros Hs He (Hp & Ho & Hseg). repeat split; [done|intros i Hi; apply Ho; lia|].
  intros P HP i x Hi Hx.
  destruct (decide (s ≤ i < e)%nat) as [Hin|Hout].
  - apply (Hseg P) with i; auto. intros j y Hj. apply HP. lia.
  - rewrite Ho in Hx by lia. eauto.
Qed.

Lemma rearranged_qSwap s e i j a :
  (s ≤ i < e)%nat → (s ≤ j < e)%nat → (e ≤ length a)%nat →
  rearranged s e a (qSwap i j a).
Proof.
  intros Hi Hj He. repeat split.
  - apply qSwap_Permutation.
  - intros k Hk. apply qSwap_lookup_ne; lia.
  - intros P HP k x Hk Hx.
    destruct (decide (k = j)) as [->|Hkj].
    { rewrite qSwap_lookup_r in Hx by lia. eauto. }
    destruct (decide (k = i)) as [->|Hki].
    { rewrite qSwap_lookup_l in Hx by lia. eauto. }
    rewrite qSwap_lookup_ne in Hx by done. eauto.
Qed.

(** The conditional exchange of the median-of-three steps. *)
Lemma rearranged_cond_qSwap s e i j a (c : bool) :
  (s ≤ i < e)%nat → (s ≤ j < e)%nat → (e ≤ length a)%nat →
  rearranged s e a (if c then qSwap i j a else a).
Proof.
  intros. destruct c; [by apply rearranged_qSwap|apply rearranged_refl].
Qed.

Lemma lessThan_at_Some a i j x y :
  a !! i = Some x → a !! j = Some y →
  lessThan_at lessThan a i j = lessThan x y.
Proof. unfold lessThan_at. by intros -> ->. Qed.

Section pivot.
Context (a : list A) (e : nat) (p : A) (Hp : a !! e = Some p).

Lemma scanLow_spec n low :
  let r := scanLow lessThan a e low n in
  (low ≤ r ≤ low + n)%nat ∧
  (∀ i x, (low ≤ i < r)%nat → a !! i = Some x → lessThan x p = true) ∧
  ((r < low + n)%nat → ∀ x, a !! r = Some x → lessThan x p = false).
Proof.
  revert low. induction n as [|n IH]; intros low; simpl.
  { repeat split; intros; lia. }
  unfold lessThan_at. rewrite Hp.
  destruct (a !! low) as [x|] eqn:Hx.
  - destruct (lessThan x p) eqn:Hlt.
    + destruct (IH (S low)) as (Hr & Hbelow & Hstop).
      split; [lia|]. split.
      * intros i y Hi Hy. destruct (decide (i = low)) as [->|]; [congruence|].
        apply Hbelow with i; [lia|done].
      * intros Hlt'. apply Hstop. lia.
    + repeat split; try lia. intros _ y Hy. congruence.
  - repeat split; try lia. intros _ y Hy. congruence.
Qed.

Lemma scanHigh_spec n high :
  (n ≤ high)%nat →
  let r := scanHigh lessThan a e high n in
  (high - n ≤ r ≤ high)%nat ∧
  (∀ i x, (r < i ≤ high)%nat → a !! i = Some x → lessThan p x = true) ∧
  ((high - n < r)%nat → ∀ x, a !! r = Some x → lessThan p x = false).
Proof.
  revert high. induction n as [|n IH]; intros high Hn; simpl.
  { repeat split; intros; lia. }
  unfold lessThan_at. rewrite Hp.
  destruct (a !! high) as [x|] eqn:Hx.
  - destruct (lessThan p x) eqn:Hlt.
    + destruct (IH (high - 1)%nat) as (Hr & Habove & Hstop); [lia|].
      split; [lia|]. split.
      * intros i y Hi Hy. destruct (decide (i = high)) as [->|]; [congruence|].
        apply Habove with i; [lia|done].
      * intros Hlt'. apply Hstop. lia.
    + repeat split; try lia. intros _ y Hy. congruence.
  - repeat split; try lia. intros _ y Hy. congruence.
Qed.
End pivot.

Section order.
Hypothesis lessThan_asym : ∀ x y, lessThan x y = true → lessThan y x = false.
Hypothesis lessThan_trans :
  ∀ x y z, lessThan x y = true → lessThan y z = true → lessThan x z = true.

Lemma partitionLoop_spec s e p fuel a low high :
  a !! e = Some p → (e < length a)%nat →
  (s ≤ low)%nat → (low < e)%nat → (high < e)%nat →
  (low ≤ S high)%nat → (high < fuel + low)%nat →
  (∀ i x, (s ≤ i < low)%nat → a !! i = Some x → lessThan p x = false) →
  (∀ i x, (high < i < e)%nat → a !! i = Some x → lessThan x p = false) →
  ∃ a' low' high',
    partitionLoop lessThan fuel a e low high = (a', low') ∧
    rearranged s e a a' ∧
    (s ≤ low' < e)%nat ∧ (high' ≤ low' ≤ S high')%nat ∧
    (∀ i x, (s ≤ i < low')%nat → a' !! i = Some x → lessThan p x = false) ∧
    (∀ i x, (high' < i < e)%nat → a' !! i = Some x → lessThan x p = false).
Proof.
  revert a low high.
  induction fuel as [|fuel IH]; intros a low high Hp He Hs Hlow Hhigh Hlh Hfuel HL HR;
    simpl.
  { exists a, low, high. repeat split; auto using rearranged_refl; lia. }
  destruct (low <? high)%nat eqn:Hlt; cycle 1.
  { apply Nat.ltb_ge in Hlt.
    exists a, low, high. repeat split; auto using rearranged_refl; lia. }
  apply Nat.ltb_lt in Hlt.
  destruct (scanLow_spec a e p Hp (high - low) low) as (Hl1 & Hbelow & Hstopl).
  set (low1 := scanLow lessThan a e low (high - low)) in *.
  destruct (scanHigh_spec a e p Hp (high - low1) high) as (Hh1 & Habove & Hstoph);
    [lia|].
  set (high1 := scanHigh lessThan a e high (high - low1)) in *.
  destruct (low1 <? high1)%nat eqn:Hlt1; cycle 1.
  { apply Nat.ltb_ge in Hlt1.
    exists a, low1, high1. split; [done|]. split; [apply rearranged_refl|].
    split; [lia|]. split; [lia|]. split.
    - intros i x Hi Hx. destruct (decide (i < low)%nat).
      + apply HL with i; [lia|done].
      + apply lessThan_asym, Hbelow with i; [lia|done].
    - intros i x Hi Hx. destruct (decide (high < i)%nat).
      + apply HR with i; [lia|done].
      + apply lessThan_asym, Habove with i; [lia|done]. }
  apply Nat.ltb_lt in Hlt1.
  assert (Hsw : rearranged s e a (qSwap low1 high1 a))
    by (apply rearranged_qSwap; lia).
  destruct (IH (qSwap low1 high1 a) (S low1) (high1 - 1)%nat)
    as (a' & low' & high' & Heq & Hre & Hb1 & Hb2 & HL' & HR').
  - rewrite qSwap_lookup_ne by lia. done.
  - rewrite qSwap_length. lia.
  - lia.
  - lia.
  - lia.
  - lia.
  - lia.
  - intros i x Hi Hx.
    destruct (decide (i = low1)) as [->|Hne].
    + rewrite qSwap_lookup_l in Hx by lia.
      apply Hstoph; [lia|done].
    + rewrite qSwap_lookup_ne in Hx by lia.
      destruct (decide (i < low)%nat).
      * apply HL with i; [lia|done].
      * apply lessThan_asym, Hbelow with i; [lia|done].
  - intros i x Hi Hx.
    destruct (decide (i = high1)) as [->|Hne].
    + rewrite qSwap_lookup_r in Hx by lia.
      apply Hstopl; [lia|done].
    + rewrite qSwap_lookup_ne in Hx by lia.
      destruct (decide (high < i)%nat).
      * apply HR with i; [lia|done].
      * apply lessThan_asym, Habove with i; [lia|done].
  - exists a', low', high'. split; [done|].
    split; [by eapply rearranged_trans|]. repeat split; auto; lia.
Qed.

(** One conditional exchange puts two positions in order. *)
Lemma cond_qSwap_spec a i j x y :
  i ≠ j → a !! i = Some x → a !! j = Some y →
  let a' := if lessThan_at lessThan a j i then qSwap j i a else a in
  ∃ x' y', a' !! i = Some x' ∧ a' !! j = Some y' ∧ lessThan y' x' = false ∧
    ((x' = x ∧ y' = y) ∨ (x' = y ∧ y' = x ∧ lessThan y x = true)) ∧
    ∀ k, k ≠ i → k ≠ j → a' !! k = a !! k.
Proof.
  intros Hne Hi Hj. simpl.
  assert (i < length a)%nat by (by eapply lookup_lt_Some).
  assert (j < length a)%nat by (by eapply lookup_lt_Some).
  rewrite (lessThan_at_Some a j i y x) by done.
  destruct (lessThan y x) eqn:Hlt.
  - exists y, x. rewrite qSwap_lookup_l, qSwap_lookup_r by done.
    repeat split; auto. intros k ??. by rewrite qSwap_lookup_ne.
  - exists x, y. repeat split; auto.
Qed.

(** After the partition loop the pivot, kept at [e], is exchanged with
    the first element of the upper part. *)
Lemma place_pivot s e p a low high :
  a !! e = Some p → (e < length a)%nat →
  (s ≤ low < e)%nat → (high ≤ low ≤ S high)%nat →
  (∀ i x, (s ≤ i < low)%nat → a !! i = Some x → lessThan p x = false) →
  (∀ i x, (high < i < e)%nat → a !! i = Some x → lessThan x p = false) →
  let low' := if lessThan_at lessThan a low e then S low else low in
  let a' := qSwap e low' a in
  (s ≤ low' ≤ e)%nat ∧ rearranged s (S e) a a' ∧ a' !! low' = Some p ∧
  (∀ i x, (s ≤ i < low')%nat → a' !! i = Some x → lessThan p x = false) ∧
  (∀ i x, (low' < i < S e)%nat → a' !! i = Some x → lessThan x p = false).
Proof.
  intros Hp He Hlow Hhl HL HR.
  destruct (lookup_lt_is_Some_2 a low) as [v Hv]; [lia|].
  rewrite (lessThan_at_Some a low e v p) by done.
  assert (Hcases : ∃ low', (if lessThan v p then S low else low) = low' ∧
    (s ≤ low' ≤ e)%nat ∧
    (∀ i x, (s ≤ i < low')%nat → a !! i = Some x → lessThan p x = false) ∧
    (∀ i x, (low' ≤ i < e)%nat → a !! i = Some x → lessThan x p = false)).
  { destruct (lessThan v p) eqn:Hlt.
    - exists (S low). split; [done|]. split; [lia|].
      destruct (decide (low = high)) as [->|Hne].
      + split.
        * intros i x Hi Hx. destruct (decide (i = high)) as [->|].
          -- simplify_eq. by apply lessThan_asym.
          -- apply HL with i; [lia|done].
        * intros i x Hi Hx. apply HR with i; [lia|done].
      + (* low = S high: the element at [low] is in the upper part *)
        rewrite (HR low v) in Hlt; [done|lia|done].
    - exists low. split; [done|]. split; [lia|]. split; [done|].
      intros i x Hi Hx. destruct (decide (i = low)) as [->|].
      + by simplify_eq.
      + apply HR with i; [lia|done]. }
  destruct Hcases as (low' & -> & Hb & HL' & HR'). simpl.
  split; [done|]. split; [apply rearranged_qSwap; lia|].
  split; [rewrite qSwap_lookup_r by lia; done|]. split.
  - intros i x Hi Hx. rewrite qSwap_lookup_ne in Hx by lia. eauto.
  - intros i x Hi Hx. destruct (decide (i = e)) as [->|].
    + rewrite qSwap_lookup_l in Hx by lia. apply HR' with low'; [lia|done].
    + rewrite qSwap_lookup_ne in Hx by lia. apply HR' with i; [lia|done].
Qed.

Lemma qSortHelper_spec fuel a s e :
  (e - s ≤ fuel)%nat → (e ≤ length a)%nat →
  rearranged s e a (qSortHelper lessThan fuel a s e) ∧
  ascending lessThan s e (qSortHelper lessThan fuel a s e).
Proof.
  revert a s e. induction fuel as [|fuel IH]; intros a s e Hfuel He.
  { simpl. split; [apply rearranged_refl|]. intros i x y ??. lia. }
  cbn [qSortHelper]. cbv zeta.
  destruct (e - s <? 2)%nat eqn:Hspan2.
  { apply Nat.ltb_lt in Hspan2.
    split; [apply rearranged_refl|]. intros i x y ??. lia. }
  apply Nat.ltb_ge in Hspan2.
  destruct (lookup_lt_is_Some_2 a s) as [x0 Hx0]; [lia|].
  destruct (lookup_lt_is_Some_2 a (e - 1)) as [z0 Hz0]; [lia|].
  destruct (cond_qSwap_spec a s (e - 1) x0 z0) as
    (x1 & z1 & Hx1 & Hz1 & Hxz1 & Hc1 & Ho1); [lia|done|done|].
  assert (Hr1 : rearranged s e a
            (if lessThan_at lessThan a (e - 1) s then qSwap (e - 1) s a else a))
    by (apply rearranged_cond_qSwap; lia).
  set (a1 := if lessThan_at lessThan a (e - 1) s then qSwap (e - 1) s a else a) in *.
  destruct (e - s =? 2)%nat eqn:Hspan2'.
  { apply Nat.eqb_eq in Hspan2'. split; [done|].
    intros i x y Hi Hi' Hx Hy. assert (i = s) as -> by lia.
    replace (S s) with (e - 1)%nat in Hy by lia. by simplify_eq. }
  apply Nat.eqb_neq in Hspan2'.
  assert (Hlen1 : length a1 = length a) by (by eapply rearranged_length).
  set (pivot := (s + (e - s) / 2)%nat) in *.
  assert (Hpivot : (s < pivot < e - 1)%nat).
  { unfold pivot. split.
    - assert (1 ≤ (e - s) / 2)%nat; [|lia].
      apply Nat.div_le_lower_bound; lia.
    - assert ((e - s) / 2 < e - s - 1)%nat; [|lia].
      apply Nat.Div0.div_lt_upper_bound. lia. }
  destruct (lookup_lt_is_Some_2 a1 pivot) as [y1 Hy1]; [lia|].
  destruct (cond_qSwap_spec a1 s pivot x1 y1) as
    (x2 & y2 & Hx2 & Hy2 & Hxy2 & Hc2 & Ho2); [lia|done|done|].
  assert (Hr2 : rearranged s e a1
            (if lessThan_at lessThan a1 pivot s then qSwap pivot s a1 else a1))
    by (apply rearranged_cond_qSwap; lia).
  set (a2 := if lessThan_at lessThan a1 pivot s then qSwap pivot s a1 else a1) in *.
  assert (Hlen2 : length a2 = length a1) by (by eapply rearranged_length).
  assert (Hz2 : a2 !! (e - 1)%nat = Some z1) by (rewrite Ho2 by lia; done).
  destruct (cond_qSwap_spec a2 pivot (e - 1) y2 z1) as
    (y3 & z3 & Hy3 & Hz3 & Hyz3 & Hc3 & Ho3); [lia|done|done|].
  assert (Hr3 : rearranged s e a2
            (if lessThan_at lessThan a2 (e - 1) pivot then qSwap (e - 1) pivot a2 else a2))
    by (apply rearranged_cond_qSwap; lia).
  set (a3 := if lessThan_at lessThan a2 (e - 1) pivot
             then qSwap (e - 1) pivot a2 else a2) in *.
  assert (Hlen3 : length a3 = length a2) by (by eapply rearranged_length).
  assert (Hr123 : rearranged s e a a3)
    by (eapply rearranged_trans; [eapply rearranged_trans|]; eassumption).
  destruct (e - s =? 3)%nat eqn:Hspan3.
  { apply Nat.eqb_eq in Hspan3. split; [done|].
    assert (pivot = S s) as Hpv by lia.
    assert (Hx3 : a3 !! s = Some x2) by (rewrite Ho3 by lia; done).
    intros i x y Hi Hi' Hx Hy.
    assert (i = s ∨ i = S s) as [->| ->] by lia.
    - rewrite <- Hpv in Hy. simplify_eq.
      destruct Hc3 as [[-> ->]|(-> & -> & Hlt3)]; [done|].
      destruct Hc2 as [[-> ->]|(-> & -> & Hlt2)]; [done|].
      match goal with
      | |- lessThan ?u ?v = false => destruct (lessThan u v) eqn:Hyx; [|done]
      end.
      rewrite (lessThan_trans _ _ _ Hyx Hlt2) in Hxz1. done.
    - rewrite <- Hpv in Hx. replace (S (S s)) with (e - 1)%nat in Hy by lia.
      by simplify_eq. }
  apply Nat.eqb_neq in Hspan3.
  (* the general case *)
  assert (Hr4 : rearranged s e a3 (qSwap pivot (e - 1) a3))
    by (apply rearranged_qSwap; lia).
  set (a4 := qSwap pivot (e - 1) a3) in *.
  assert (Hlen4 : length a4 = length a3) by (by eapply rearranged_length).
  destruct (lookup_lt_is_Some_2 a4 (e - 1)) as [p Hp]; [lia|].
  destruct (partitionLoop_spec s (e - 1) p (e - s) a4 s (e - 1 - 1))
    as (a5 & low & high & Heq & Hr5 & Hlow & Hhigh & HL & HR);
    [done|lia|lia|lia|lia|lia|lia|intros i x ?; lia|intros i x ?; lia|].
  rewrite Heq.
  assert (Hlen5 : length a5 = length a4) by (by eapply rearranged_length).
  assert (Hp5 : a5 !! (e - 1)%nat = Some p).
  { destruct Hr5 as (_ & Ho & _). rewrite Ho by lia. done. }
  destruct (place_pivot s (e - 1) p a5 low high Hp5)
    as (Hlow' & Hr6 & Hp6 & HL6 & HR6); [lia|lia|lia|done|done|].
  set (low' := if lessThan_at lessThan a5 low (e - 1) then S low else low) in *.
  set (a6 := qSwap (e - 1) low' a5) in *.
  replace (S (e - 1)) with e in * by lia.
  assert (Hlen6 : length a6 = length a5) by (by eapply rearranged_length).
  destruct (IH a6 s low') as (Hr7 & Hasc7); [lia|lia|].
  set (a7 := qSortHelper lessThan fuel a6 s low') in *.
  assert (Hlen7 : length a7 = length a6) by (by eapply rearranged_length).
  destruct (IH a7 (S low') e) as (Hr8 & Hasc8); [lia|lia|].
  set (a8 := qSortHelper lessThan fuel a7 (S low') e) in *.
  split.
  - eapply rearranged_trans; [exact Hr123|].
    eapply rearranged_trans; [exact Hr4|].
    eapply rearranged_trans; [eapply rearranged_weaken; [..|exact Hr5]; lia|].
    eapply rearranged_trans; [exact Hr6|].
    eapply rearranged_trans; [eapply rearranged_weaken; [..|exact Hr7]; lia|].
    eapply rearranged_weaken; [..|exact Hr8]; lia.
  - destruct Hr7 as (_ & Ho7 & Hs7). destruct Hr8 as (_ & Ho8 & Hs8).
    assert (Hp8 : a8 !! low' = Some p).
    { rewrite Ho8, Ho7 by lia. done. }
    intros i x y Hi Hi' Hx Hy.
    destruct (decide (S i < low')%nat).
    { rewrite Ho8 in Hx, Hy by lia. by eapply Hasc7. }
    destruct (decide (S i = low')) as [Heq'|].
    { rewrite Heq' in Hy. simplify_eq. rewrite Ho8 in Hx by lia.
      revert Hx. apply (Hs7 (λ x, lessThan p x = false)); [|lia]. done. }
    destruct (decide (i = low')) as [->|].
    { simplify_eq. revert Hy.
      apply (Hs8 (λ y, lessThan y p = false)); [|lia].
      intros j v Hj Hv. rewrite Ho7 in Hv by lia.
      apply HR6 with j; [lia|done]. }
    eapply Hasc8; [| |exact Hx|exact Hy]; lia.
Qed.
End order.
End qSort_spec.

Section qSort_top.
Context {A : Type} (lessThan : A -> A -> bool).
Hypothesis lessThan_asym : ∀ x y, lessThan x y = true → lessThan y x = false.
Hypothesis lessThan_trans :
  ∀ x y z, lessThan x y = true → lessThan y z = true → lessThan x z = true.

Lemma qSort_rearranged (a : list A) :
  rearranged 0 (length a) a (qSort lessThan a) ∧
  ascending lessThan 0 (length a) (qSort lessThan a).
Proof.
  destruct a as [|x a]; [split; [apply rearranged_refl|intros i ????; simpl in *; lia]|].
  unfold qSort. apply qSortHelper_spec; auto; lia.
Qed.

Lemma qSort_Permutation (a : list A) : qSort lessThan a ≡ₚ a.
Proof. by destruct (qSort_rearranged a) as [(? & _) _]. Qed.

Lemma qSort_length (a : list A) : length (qSort lessThan a) = length a.
Proof. by rewrite qSort_Permutation. Qed.

Lemma qSort_ascending (a : list A) i x y :
  qSort lessThan a !! i = Some x → qSort lessThan a !! S i = Some y →
  lessThan y x = false.
Proof.
  intros Hx Hy. destruct (qSort_rearranged a) as [_ Hasc].
  apply (Hasc i x y); auto; [lia|].
  apply lookup_lt_Some in Hy. by rewrite qSort_length in Hy.
Qed.
End qSort_top.

Section qSort_fmap.
Context {A B : Type} (g : A -> B) (lessThan : B -> B -> bool).
Local Abbreviation lessThan' := (lessThan_on g lessThan).

Lemma lessThan_at_fmap a i j :
  lessThan_at lessThan (g <$> a) i j = lessThan_at lessThan' a i j.
Proof.
  unfold lessThan_at. rewrite !list_lookup_fmap.
  by destruct (a !! i), (a !! j).
Qed.

Lemma qSwap_fmap i j a : qSwap i j (g <$> a) = g <$> qSwap i j a.
Proof.
  unfold qSwap. rewrite !list_lookup_fmap.
  destruct (a !! i), (a !! j); simpl; auto.
  by rewrite !list_fmap_insert.
Qed.

Lemma scanLow_fmap a e low n :
  scanLow lessThan (g <$> a) e low n = scanLow lessThan' a e low n.
Proof.
  revert low. induction n as [|n IH]; intros low; simpl; [done|].
  by rewrite lessThan_at_fmap, IH.
Qed.

Lemma scanHigh_fmap a e high n :
  scanHigh lessThan (g <$> a) e high n = scanHigh lessThan' a e high n.
Proof.
  revert high. induction n as [|n IH]; intros high; simpl; [done|].
  by rewrite lessThan_at_fmap, IH.
Qed.

Lemma partitionLoop_fmap fuel a e low high :
  partitionLoop lessThan fuel (g <$> a) e low high =
  prod_map (fmap g) id (partitionLoop lessThan' fuel a e low high).
Proof.
  revert a low high. induction fuel as [|fuel IH]; intros a low high; simpl; [done|].
  rewrite !scanLow_fmap, !scanHigh_fmap.
  destruct (low <? high)%nat; [|done].
  destruct (_ <? _)%nat; [|done].
  by rewrite qSwap_fmap, IH.
Qed.

Lemma qSortHelper_fmap fuel a s e :
  qSortHelper lessThan fuel (g <$> a) s e = g <$> qSortHelper lessThan' fuel a s e.
Proof.
  revert a s e. induction fuel as [|fuel IH]; intros a s e; [done|].
  cbn [qSortHelper]. cbv zeta.
  destruct (e - s <? 2)%nat; [done|].
  rewrite lessThan_at_fmap, qSwap_fmap.
  assert (Hif : ∀ (c : bool) (u v : list A),
    (if c then g <$> u else g <$> v) = g <$> (if c then u else v))
    by (by intros []).
  rewrite Hif. destruct (e - s =? 2)%nat; [done|].
  rewrite lessThan_at_fmap, qSwap_fmap, Hif.
  rewrite lessThan_at_fmap, qSwap_fmap, Hif.
  destruct (e - s =? 3)%nat; [done|].
  rewrite qSwap_fmap, partitionLoop_fmap.
  destruct (partitionLoop lessThan' _ _ _ _ _) as [a' low]; simpl.
  by rewrite lessThan_at_fmap, qSwap_fmap, !IH.
Qed.

Lemma qSort_fmap a : qSort lessThan (g <$> a) = g <$> qSort lessThan' a.
Proof.
  destruct a as [|x a]; [done|].
  unfold qSort. rewrite <- qSortHelper_fmap, <- (length_fmap g (x :: a)).
  reflexivity.
Qed.
End qSort_fmap.

(** ** QMap *)

Section QMap_facts.
Context {K V : Type} (lt : K → K → bool).
Hypothesis lt_irrefl : ∀ k, lt k k = false.
Implicit Types m : QMap K V.

Lemma QMap_find_insert k v m :
  QMap.find lt (QMap.insert lt k v m) k = Some v.
Proof.
  induction m as [|[k' v'] m IH]; simpl.
  - by rewrite lt_irrefl.
  - destruct (lt k' k) eqn:Hlt; simpl.
    + by rewrite Hlt.
    + destruct (lt k k'); simpl; by rewrite !lt_irrefl.
Qed.

Lemma QMap_insert_last k v m :
  Forall (λ k', lt k' k = true) (QMap.keys m) →
  QMap.insert lt k v m = m ++ [(k, v)].
Proof.
  unfold QMap.keys. induction m as [|[k' v'] m IH]; simpl; [done|].
  intros Hall. apply Forall_cons in Hall as [-> Hall]. by rewrite IH.
Qed.

Lemma QMap_find_elem_of k v m :
  QMap.wf lt m → (k, v) ∈ m → QMap.find lt m k = Some v.
Proof.
  unfold QMap.wf, QMap.keys. induction m as [|[k' v'] m IH]; simpl.
  - by intros _ ?%elem_of_nil.
  - intros Hwf Hin. apply StronglySorted_inv in Hwf as [Hwf Hall].
    apply elem_of_cons in Hin as [[= <- <-]|Hin].
    + by rewrite lt_irrefl.
    + rewrite Forall_forall in Hall.
      rewrite (Hall k); [by apply IH|].
      apply list_elem_of_fmap. by exists (k, v).
Qed.

Lemma QMap_insert_insert k v v' m :
  QMap.insert lt k v (QMap.insert lt k v' m) = QMap.insert lt k v m.
Proof.
  induction m as [|[k' w] m IH]; simpl.
  - by rewrite lt_irrefl.
  - destruct (lt k' k) eqn:Hlt; simpl.
    + by rewrite Hlt, IH.
    + destruct (lt k k'); simpl; by rewrite !lt_irrefl.
Qed.

Lemma QMap_index_found k v d m :
  QMap.find lt m k = Some v → QMap.index lt m k d = (m, v).
Proof. unfold QMap.index. by intros ->. Qed.

Lemma QMap_index_absent k d m :
  QMap.find lt m k = None → QMap.index lt m k d = (QMap.insert lt k d m, d).
Proof. unfold QMap.index. by intros ->. Qed.
End QMap_facts.

(** Maps to nullable values, where the other entries are null. *)
Section QMap_null.
Context {K V : Type} (lt : K → K → bool).
Implicit Types m : QMap K (option V).

Lemma QMap_find_null m k :
  Forall (λ e, e.2 = None) m →
  QMap.find lt m k = None ∨ QMap.find lt m k = Some None.
Proof.
  induction 1 as [|[k' v] m Hv _ IH]; simpl; [by left|].
  simpl in Hv. subst v.
  destruct (lt k' k); [done|]. destruct (lt k k'); auto.
Qed.

Lemma omap_cons_null {B} (g : K * option V → option B) k m :
  g (k, None) = None → omap g ((k, None) :: m) = omap g m.
Proof. intros Hg. cbn [omap list_omap]. by rewrite Hg. Qed.

Lemma QMap_omap_null {B} (g : K * option V → option B) m :
  (∀ k, g (k, None) = None) → Forall (λ e, e.2 = None) m → omap g m = [].
Proof.
  intros Hg. induction 1 as [|[k' v] m Hv _ IH]; [done|].
  simpl in Hv. subst v. by rewrite omap_cons_null.
Qed.

Lemma QMap_omap_insert_null {B} (g : K * option V → option B) m k v :
  (∀ k, g (k, None) = None) → Forall (λ e, e.2 = None) m →
  omap g (QMap.insert lt k v m) = omap g [(k, v)].
Proof.
  intros Hg. induction 1 as [|[k' w] m Hw Hm IH]; [done|].
  simpl in Hw. subst w. cbn [QMap.insert]. destruct (lt k' k).
  - by rewrite omap_cons_null.
  - pose proof (QMap_omap_null g m Hg Hm) as Hnil.
    destruct (lt k k'); cbn [omap list_omap] in *; rewrite ?Hg, Hnil;
      by destruct (g (k, v)).
Qed.
End QMap_null.

(** ** The labels updateUserNames makes *)

Lemma editedName_ne (name : QString) :
  QString_eqb (editName name ++ QStringLiteral ", ") name = false.
Proof.
  destruct (first_newline name) as [Hno|(pre & c & post & -> & Hpre & Hc)].
  - rewrite editName_unchanged by done.
    apply QString_eqb_length. rewrite length_app. simpl. lia.
  - rewrite editName_truncated by done.
    destruct (QString_eqb _ _) eqn:Heq; [|done].
    apply QString_eqb_eq in Heq. rewrite <- app_assoc in Heq.
    apply app_inv_head in Heq. simplify_eq/=. destruct Hc; done.
Qed.

Lemma through_new_fresh (h : Labels) (o : QLabel) (g : QLabel → QLabel) :
  through_new (Some (length h)) g (h ++ [Some o]) = h ++ [Some (g o)].
Proof.
  unfold through_new.
  rewrite <- (Nat.add_0_r (length h)), alter_app_r. done.
Qed.

Section labels.
Context `{Collaborators}.
Implicit Types f g : GroupChatForm.

Lemma labelPeer_labels ps self g k :
  labels (labelPeer ps self g k) =
  labels g ++ [Some (peerLabel self (blackList g) (k, QMap.value ToxPk_lt ps k []))].
Proof.
  unfold labelPeer, new_QLabel. rewrite editedName_ne. cbn [negb].
  rewrite !through_new_fresh. unfold peerLabel.
  cbn [labels set_labels blackList fst snd].
  destruct (ToxPk_eqb k self) eqn:Hself.
  { cbn [labels set_labels set_peerLabels]. by rewrite through_new_fresh. }
  destruct (contains (blackList g) (ToxPk_toString k)) eqn:Hbl.
  { cbn [labels set_labels set_peerLabels]. by rewrite through_new_fresh. }
  cbn [netcam set_labels]. by destruct (netcam g).
Qed.

Lemma labelPeer_peerLabels ps self g k :
  peerLabels (labelPeer ps self g k) =
  QMap.insert ToxPk_lt k (Some (length (labels g))) (peerLabels g).
Proof.
  unfold labelPeer, new_QLabel. simpl.
  destruct (ToxPk_eqb k self); [done|].
  destruct (contains _ _); [done|]. by destruct (netcam g).
Qed.

Lemma labelPeer_same ps self g k : same_inputs g (labelPeer ps self g k).
Proof.
  unfold labelPeer, new_QLabel, same_inputs. simpl.
  destruct (ToxPk_eqb k self); [done|].
  destruct (contains _ _); [done|]. by destruct (netcam g).
Qed.

(** The loop over [peers.keys()], on a form with no peer labels yet. *)
Lemma labelPeers_spec ps self f done todo :
  QMap.wf ToxPk_lt ps → peerLabels f = [] → ps = done ++ todo →
  let g := foldl (labelPeer ps self) f (QMap.keys done) in
  labels g = labels f ++ (Some ∘ peerLabel self (blackList f) <$> done) ∧
  QMap.keys (peerLabels g) = QMap.keys done ∧
  QMap.values (peerLabels g) = Some <$> seq (length (labels f)) (length done) ∧
  same_inputs f g.
Proof.
  intros Hwf Hnil. revert todo.
  induction done as [|[k v] done IH] using rev_ind; intros todo Hps.
  { simpl. rewrite Hnil, app_nil_r. by repeat split. }
  cbv zeta. unfold QMap.keys in *. rewrite fmap_app. simpl. rewrite foldl_snoc.
  destruct (IH ([(k, v)] ++ todo)) as (Hl & Hk & Hv & Hsame);
    [by rewrite app_assoc|].
  set (g := foldl (labelPeer ps self) f done.*1) in *.
  assert (Hfind : QMap.value ToxPk_lt ps k [] = v).
  { unfold QMap.value. rewrite (QMap_find_elem_of _ ToxPk_lt_irrefl k v); auto.
    rewrite Hps, !elem_of_app. left. right. constructor. }
  assert (Hlast : QMap.insert ToxPk_lt k (Some (length (labels g))) (peerLabels g)
                  = peerLabels g ++ [(k, Some (length (labels g)))]).
  { apply QMap_insert_last. unfold QMap.keys. rewrite Hk.
    unfold QMap.wf, QMap.keys in Hwf.
    rewrite Hps, <- app_assoc, fmap_app in Hwf.
    apply StronglySorted_app in Hwf as (Hall & _ & _).
    apply Forall_forall. intros k' Hk'. apply (Hall k' k Hk'). simpl. constructor. }
  rewrite labelPeer_labels, labelPeer_peerLabels, Hlast, Hfind.
  destruct Hsame as (Hp & Hs & Hb & Hn & Ht).
  split; [|split; [|split]].
  - rewrite Hl, Hb, fmap_app, <- app_assoc. done.
  - by rewrite fmap_app, Hk.
  - unfold QMap.values in *. rewrite fmap_app, Hv, length_app. simpl.
    rewrite Nat.add_1_r, seq_S, fmap_app. simpl.
    by rewrite Hl, length_app, length_fmap.
  - destruct (labelPeer_same ps self g k) as (Hp' & Hs' & Hb' & Hn' & Ht').
    unfold same_inputs. by rewrite Hp', Hs', Hb', Hn', Ht'.
Qed.

Lemma deref_fresh (h : Labels) (os : list QLabel) :
  deref (h ++ (Some <$> os)) <$> (Some <$> seq (length h) (length os)) = Ok <$> os.
Proof.
  apply list_eq. intros i. rewrite !list_lookup_fmap.
  destruct (decide (i < length os)%nat) as [Hi|Hi].
  - rewrite lookup_seq_lt by done. simpl.
    rewrite lookup_app_r by lia.
    replace (length h + i - length h)%nat with i by lia.
    rewrite list_lookup_fmap.
    destruct (lookup_lt_is_Some_2 os i Hi) as [o Ho]. by rewrite Ho.
  - rewrite lookup_seq_ge by lia. by rewrite lookup_ge_None_2 by lia.
Qed.

Lemma textLessThan_asym (a b : QLabel) :
  textLessThan a b = true → textLessThan b a = false.
Proof. apply QString_lt_asym. Qed.

Lemma textLessThan_trans (a b c : QLabel) :
  textLessThan a b = true → textLessThan b c = true → textLessThan a c = true.
Proof. apply QString_lt_trans. Qed.

(** Sorting pointers by the texts behind them sorts the labels. *)
Lemma qSort_labels (h : Labels) (ptrs : list QLabelPtr) (os : list QLabel) :
  deref h <$> ptrs = Ok <$> os →
  deref h <$> qSort (labelLessThan h) ptrs = Ok <$> qSort textLessThan os.
Proof.
  intros Hd.
  pose (lt' := λ r1 r2 : result QLabel,
    QString_lt (toLower (match r1 with Ok o => text o | Fault => [] end))
               (toLower (match r2 with Ok o => text o | Fault => [] end))).
  change (labelLessThan h) with (lessThan_on (deref h) lt').
  rewrite <- (qSort_fmap (deref h) lt'), Hd.
  by rewrite (qSort_fmap Ok lt').
Qed.

Lemma deref_insert_ne (h : Labels) l o (p : QLabelPtr) :
  p ≠ Some l → deref (<[l := Some o]> h) p = deref h p.
Proof.
  intros Hne. destruct p as [l'|]; [|done]. simpl.
  rewrite list_lookup_insert_ne; [done|congruence].
Qed.

Lemma deref_Ok_lookup (h : Labels) p o :
  deref h p = Ok o ↔ ∃ l, p = Some l ∧ h !! l = Some (Some o).
Proof.
  split.
  - destruct p as [l|]; simpl; [|done].
    destruct (h !! l) as [[o'|]|] eqn:Hl; try done. intros [= ->]. eauto.
  - intros (l & -> & Hl). simpl. by rewrite Hl.
Qed.

Lemma nameList_nil self bl : nameList [] self bl = [].
Proof. done. Qed.

Lemma rebuildNames_spec f :
  QMap.wf ToxPk_lt (peers f) → peers f ≠ [] →
  peerLabels f = [] → namesListLayout f = [] →
  ∃ f', rebuildNames f = Ok f' ∧ rebuilt f f'.
Proof.
  intros Hwf Hne Hnil Hlay.
  destruct (labelPeers_spec (peers f) (selfPk f) f (peers f) [] Hwf Hnil)
    as (Hl & Hk & Hv & Hp & Hs & Hb & Hn & Ht); [by rewrite app_nil_r|].
  unfold rebuildNames, nickLabelList, labelPeers. cbv zeta.
  set (g := foldl (labelPeer (peers f) (selfPk f)) f (QMap.keys (peers f))) in *.
  set (g' := match netcam g with
             | Some view => set_netcam (Some (clearPeers view)) g
             | None => g
             end).
  assert (Hg' : labels g' = labels g ∧ peerLabels g' = peerLabels g ∧
                namesListLayout g' = namesListLayout g ∧ peers g' = peers g ∧
                selfPk g' = selfPk g ∧ blackList g' = blackList g ∧
                peerAudioTimers g' = peerAudioTimers g)
    by (unfold g'; destruct (netcam g); done).
  destruct Hg' as (Hl' & Hpl' & Hn' & Hp' & Hs' & Hb' & Ht').
  rewrite Hl', Hpl', Hv.
  set (L := peerLabel (selfPk f) (blackList f)) in *.
  set (h := labels g) in *.
  set (ptrs := Some <$> seq (length (labels f)) (length (peers f))).
  set (os := L <$> peers f).
  assert (Hd : deref h <$> ptrs = Ok <$> os).
  { unfold ptrs, os. rewrite Hl, list_fmap_compose.
    rewrite <- (length_fmap L (peers f)). apply deref_fresh. }
  pose proof (qSort_labels h ptrs os Hd) as Hsorted.
  set (sorted := qSort (labelLessThan h) ptrs) in *.
  set (S := qSort textLessThan os) in *.
  assert (HS : S ≡ₚ os)
    by apply (qSort_Permutation textLessThan textLessThan_asym textLessThan_trans).
  destruct (last S) as [o|] eqn:Hlast; cycle 1.
  { apply last_None in Hlast. rewrite Hlast in HS.
    apply Permutation_nil_l in HS. unfold os in HS.
    symmetry in HS. apply fmap_nil_inv in HS. done. }
  apply last_Some in Hlast as [S' HS'].
  assert (Hlast' : last (deref h <$> sorted) = Some (Ok o))
    by (by rewrite Hsorted, HS', fmap_snoc, last_snoc).
  rewrite fmap_last in Hlast'.
  destruct (last sorted) as [p|] eqn:Hp_last; [|done].
  simpl in Hlast'. injection Hlast' as Hpo.
  unfold QList_last. rewrite Hp_last. simpl. rewrite Hpo. simpl.
  unfold through. rewrite Hpo. simpl.
  apply deref_Ok_lookup in Hpo as Hpl. destruct Hpl as (l & -> & Hlo).
  eexists. split; [done|].
  apply last_Some in Hp_last as [init Hinit].
  set (o' := setText (chop 2 (text o)) o).
  (* the sorted pointers are distinct *)
  assert (Hperm : sorted ≡ₚ ptrs).
  { apply qSort_Permutation.
    - intros ??. apply QString_lt_asym.
    - intros ???. apply QString_lt_trans. }
  assert (Hnodup : NoDup sorted).
  { rewrite Hperm. unfold ptrs. apply NoDup_fmap_2; [|apply NoDup_seq].
    by intros ?? [=]. }
  rewrite Hinit in Hnodup. apply NoDup_app in Hnodup as (_ & Hdisj & _).
  assert (Hinit' : deref h <$> init = Ok <$> S').
  { rewrite Hinit, HS', !fmap_snoc in Hsorted.
    by apply app_inj_tail in Hsorted as [? _]. }
  repeat split; simpl; try congruence.
  - (* the labels on display *)
    unfold displayed. simpl. rewrite Hn', Hn, Hlay. simpl.
    rewrite Hinit, fmap_snoc. simpl.
    rewrite list_lookup_insert_eq by (by eapply lookup_lt_Some).
    unfold nameList. fold L os S. unfold chopLast.
    rewrite HS', last_snoc, removelast_last, fmap_snoc. fold o'.
    f_equal. rewrite <- Hinit'.
    apply list_fmap_ext. intros i q Hq. apply deref_insert_ne.
    intros ->. apply (Hdisj (Some l)).
    + by eapply list_elem_of_lookup_2.
    + constructor.
  - (* the label of each peer *)
    intros k v Hin. unfold labelOf. simpl. rewrite Hpl'.
    apply list_elem_of_lookup in Hin as [i Hi].
    assert (Hpi : peerLabels g !! i = Some (k, Some (length (labels f) + i)%nat)).
    { assert (Hki : QMap.keys (peerLabels g) !! i = Some k)
        by (rewrite Hk; unfold QMap.keys; by rewrite list_lookup_fmap, Hi).
      assert (Hvi : QMap.values (peerLabels g) !! i
                    = Some (Some (length (labels f) + i)%nat)).
      { rewrite Hv, list_lookup_fmap, lookup_seq_lt; [done|].
        by eapply lookup_lt_Some. }
      unfold QMap.keys, QMap.values in Hki, Hvi.
      rewrite list_lookup_fmap in Hki. rewrite list_lookup_fmap in Hvi.
      destruct (peerLabels g !! i) as [[k' p']|]; simplify_eq/=. done. }
    rewrite (QMap_find_elem_of _ ToxPk_lt_irrefl k (Some (length (labels f) + i)%nat)).
    2:{ unfold QMap.wf. rewrite Hk. exact Hwf. }
    2:{ by eapply list_elem_of_lookup_2. }
    assert (Hhi : h !! (length (labels f) + i)%nat = Some (Some (L (k, v)))).
    { rewrite Hl, lookup_app_r by lia.
      replace (length (labels f) + i - length (labels f))%nat with i by lia.
      by rewrite list_lookup_fmap, Hi. }
    simpl. destruct (decide (l = (length (labels f) + i)%nat)) as [->|Hne'].
    + rewrite list_lookup_insert_eq by (by eapply lookup_lt_Some).
      exists o'. simplify_eq. done.
    + rewrite list_lookup_insert_ne by done. rewrite Hhi.
      exists (L (k, v)). done.
Qed.

Lemma updateUserNames_spec f :
  QMap.wf ToxPk_lt (peers f) → ∃ f', updateUserNames f = Ok f' ∧ rebuilt f f'.
Proof.
  intros Hwf. unfold updateUserNames. cbv zeta.
  set (f1 := set_peerLabels [] (takeAll f)).
  change (peers f1) with (peers f).
  destruct (peers f) as [|e ps] eqn:Hps.
  - exists f1. split; [done|]. unfold rebuilt. rewrite Hps.
    repeat (split; [done|]). intros k v Hin. by apply elem_of_nil in Hin.
  - destruct (rebuildNames_spec f1) as (f' & Hf' & Hre); try done.
    + change (peers f1) with (peers f). by rewrite Hps.
    + change (peers f1) with (peers f). by rewrite Hps.
    + exists f'. split; [done|]. exact Hre.
Qed.
End labels.

(** ** The name list *)

Lemma fmap_eq_lookup {A B} (g : A → B) (l1 l2 : list A) i a :
  g <$> l1 = g <$> l2 → l1 !! i = Some a → ∃ a0, l2 !! i = Some a0 ∧ g a = g a0.
Proof.
  intros Heq Ha.
  assert (Hg : (g <$> l2) !! i = Some (g a))
    by (by rewrite <- Heq, list_lookup_fmap, Ha).
  rewrite list_lookup_fmap in Hg.
  destruct (l2 !! i) as [a0|]; simplify_eq/=. eauto.
Qed.

Section nameList.
Context `{Collaborators}.
Implicit Types f : GroupChatForm.

Lemma chopLast_fmap {B} (g : QLabel → B) (l : list QLabel) :
  (∀ t o, g (setText t o) = g o) → g <$> chopLast l = g <$> l.
Proof.
  intros Hg. unfold chopLast. destruct (last l) as [o|] eqn:Hlast.
  - apply last_Some in Hlast as [l' ->].
    by rewrite removelast_last, !fmap_snoc, Hg.
  - by apply last_None in Hlast as ->.
Qed.

Lemma chopLast_length (l : list QLabel) : length (chopLast l) = length l.
Proof.
  rewrite <- (length_fmap toolTip), chopLast_fmap by done.
  by rewrite length_fmap.
Qed.

Lemma qSort_textLessThan_Permutation (l : list QLabel) :
  qSort textLessThan l ≡ₚ l.
Proof.
  apply (qSort_Permutation textLessThan textLessThan_asym textLessThan_trans).
Qed.

Lemma nameList_length ps self bl : length (nameList ps self bl) = length ps.
Proof.
  unfold nameList.
  by rewrite chopLast_length, qSort_textLessThan_Permutation, length_fmap.
Qed.

Lemma nameList_fullNames ps self bl :
  fullName <$> nameList ps self bl ≡ₚ QMap.values ps.
Proof.
  unfold nameList. rewrite chopLast_fmap by done.
  rewrite qSort_textLessThan_Permutation, <- list_fmap_compose. done.
Qed.

End nameList.

(** ** Claims about the name list *)

Section claims_names.
Context `{Collaborators}.
Implicit Types f : GroupChatForm.

(** C7. [updateUserNames] puts one label on display for each peer of the
    roster: as many labels as peers, their full names those of the roster,
    and [peerLabels] keyed by the roster's keys; for the empty roster it
    returns early and nothing is on display. *)
Theorem one_label_per_peer f :
  QMap.wf ToxPk_lt (peers f) →
  ∃ f' entries,
    updateUserNames f = Ok f' ∧ displayed f' = Ok <$> entries ∧
    length entries = length (peers f) ∧
    fullName <$> entries ≡ₚ QMap.values (peers f) ∧
    QMap.keys (peerLabels f') = QMap.keys (peers f) ∧
    (peers f = [] →
     entries = [] ∧ f' = set_peerLabels [] (takeAll f)).
Proof.
  intros Hwf.
  destruct (updateUserNames_spec f Hwf) as (f' & Hf' & Hd & _ & _ & _ & _ & Hk & _).
  exists f', (nameList (peers f) (selfPk f) (blackList f)).
  split; [done|]. split; [done|].
  split; [apply nameList_length|]. split; [apply nameList_fullNames|].
  split; [done|]. intros Hnil. rewrite Hnil. split; [done|].
  unfold updateUserNames in Hf'. cbv zeta in Hf'.
  change (peers (set_peerLabels [] (takeAll f))) with (peers f) in Hf'.
  rewrite Hnil in Hf'. simpl in Hf'. congruence.
Qed.

(** C9. Two passes of [updateUserNames] over an unchanged roster, own key
    and blacklist leave the same sequence of labels on display: it is
    [nameList] of these three. *)
Theorem updateUserNames_twice f :
  QMap.wf ToxPk_lt (peers f) →
  ∃ f' f'',
    updateUserNames f = Ok f' ∧ updateUserNames f' = Ok f'' ∧
    displayed f'' = displayed f' ∧
    displayed f' = Ok <$> nameList (peers f) (selfPk f) (blackList f).
Proof.
  intros Hwf.
  destruct (updateUserNames_spec f Hwf) as (f' & Hf' & Hd & Hp & Hs & Hb & _).
  destruct (updateUserNames_spec f') as (f'' & Hf'' & Hd' & _);
    [by rewrite Hp|].
  exists f', f''. repeat (split; [done|]). split; [|done].
  by rewrite Hd, Hd', Hp, Hs, Hb.
Qed.

(** C6. After [updateUserNames] the label of every peer of the roster
    has exactly one style: the one of the own key if the peer is the own
    key; otherwise the one of the blacklist if the string of its key is in
    the blacklist; otherwise none. *)
Theorem peer_style_tag f :
  QMap.wf ToxPk_lt (peers f) →
  ∃ f', updateUserNames f = Ok f' ∧
    ∀ k v, (k, v) ∈ peers f →
      ∃ o tag, labelOf f' k = Ok o ∧ styleTag o = Some tag ∧
        (tag = self ↔ k = selfPk f) ∧
        (tag = blacklisted ↔
           k ≠ selfPk f ∧ ToxPk_toString k ∈ blackList f) ∧
        (tag = normal ↔
           k ≠ selfPk f ∧ ToxPk_toString k ∉ blackList f).
Proof.
  intros Hwf.
  destruct (updateUserNames_spec f Hwf) as (f' & Hf' & _ & _ & _ & _ & _ & _ & Hl).
  exists f'. split; [done|]. intros k v Hin.
  destruct (Hl k v Hin) as (o & Ho & _ & Hstyle). simpl in Hstyle.
  assert (Hbl : contains (blackList f) (ToxPk_toString k) = true
                ↔ ToxPk_toString k ∈ blackList f).
  { unfold contains. rewrite existsb_exists. split.
    - intros (s & Hs & Heq). apply QString_eqb_eq in Heq as ->.
      by apply list_elem_of_In.
    - intros Hs. exists (ToxPk_toString k). split; [by apply list_elem_of_In|].
      by apply QString_eqb_eq. }
  pose proof (ToxPk_eqb_eq k (selfPk f)) as Heq.
  assert (Htag : styleTag o = Some
    (if ToxPk_eqb k (selfPk f) then self
     else if contains (blackList f) (ToxPk_toString k) then blacklisted
     else normal)).
  { unfold styleTag. rewrite Hstyle.
    destruct (ToxPk_eqb k (selfPk f)); [done|].
    by destruct (contains (blackList f) (ToxPk_toString k)). }
  exists o. eexists. split; [done|]. split; [exact Htag|].
  destruct (ToxPk_eqb k (selfPk f)).
  { destruct Heq as [Heq _]. specialize (Heq eq_refl).
    split; [done|]. split; (split; [done|by intros [? _]]). }
  assert (k ≠ selfPk f) by (intros Hk; by apply Heq in Hk).
  destruct (contains (blackList f) (ToxPk_toString k)).
  { destruct Hbl as [Hbl _]. specialize (Hbl eq_refl).
    split; [done|]. split; [done|]. split; [done|by intros [_ ?]]. }
  assert (ToxPk_toString k ∉ blackList f) by (intros Hk; by apply Hbl in Hk).
  split; [done|]. split; [|done]. split; [done|by intros [_ ?]].
Qed.
End claims_names.

Section claims_names_2.
Context `{Collaborators}.
Implicit Types f : GroupChatForm.

Lemma QMap_insert_not_nil {V} k (v : V) (m : QMap ToxPk V) :
  QMap.insert ToxPk_lt k v m ≠ [].
Proof.
  destruct m as [|[k' v'] m]; simpl; [done|].
  destruct (ToxPk_lt k' k); [done|]. by destruct (ToxPk_lt k k').
Qed.

Lemma labelPeers_peerLabels_not_nil f :
  peers f ≠ [] → peerLabels (labelPeers f) ≠ [].
Proof.
  intros Hne. unfold labelPeers. cbv zeta.
  set (g := foldl _ _ _).
  assert (Hg : peerLabels g ≠ []).
  { unfold g, QMap.keys.
    destruct (peers f) as [|e ps] using rev_ind; [done|].
    rewrite fmap_snoc, foldl_snoc, labelPeer_peerLabels.
    apply QMap_insert_not_nil. }
  by destruct (netcam g).
Qed.

Lemma nickLabelList_length f :
  length (nickLabelList f) = length (peerLabels f).
Proof.
  unfold nickLabelList. cbv zeta. rewrite qSort_length.
  - unfold QMap.values. by rewrite length_fmap.
  - intros ??. apply QString_lt_asym.
  - intros ???. apply QString_lt_trans.
Qed.

(** C10. In [updateUserNames], [last()] is taken of the sorted label
    list only after the early return for an empty roster: with an empty
    roster the function returns before it; with a peer in the roster the
    list is not empty, so [last()] has an element to return. Without the
    early return, [last()] would be taken of an empty list. *)
Theorem last_label_guarded f :
  let f1 := set_peerLabels [] (takeAll f) in
  (peers f = [] → updateUserNames f = Ok f1 ∧ rebuildNames f1 = Fault) ∧
  (peers f ≠ [] →
     updateUserNames f = rebuildNames f1 ∧
     nickLabelList (labelPeers f1) ≠ [] ∧
     ∃ lastLabel, QList_last (nickLabelList (labelPeers f1)) = Ok lastLabel).
Proof.
  intros f1. split.
  - intros Hnil. unfold updateUserNames. cbv zeta. fold f1.
    change (peers f1) with (peers f). rewrite Hnil. split; [done|].
    unfold rebuildNames, labelPeers. cbv zeta.
    change (peers f1) with (peers f). rewrite Hnil. simpl.
    by destruct (netcam f).
  - intros Hne. unfold updateUserNames. cbv zeta. fold f1.
    change (peers f1) with (peers f).
    destruct (peers f) as [|e ps] eqn:Hps; [done|]. split; [done|].
    assert (Hlen : nickLabelList (labelPeers f1) ≠ []).
    { intros Hnil. apply (f_equal length) in Hnil.
      rewrite nickLabelList_length in Hnil.
      apply nil_length_inv in Hnil. revert Hnil.
      apply labelPeers_peerLabels_not_nil.
      change (peers f1) with (peers f). by rewrite Hps. }
    split; [done|]. unfold QList_last.
    destruct (last (nickLabelList (labelPeers f1))) as [p|] eqn:Hlast; [eauto|].
    by apply last_None in Hlast.
Qed.

(** C8, as amended. With two peers in the roster whose lowercased label
    texts are equal, the labels are displayed in the order of the roster.
    (With three or more peers [qSort] may exchange the peers of a tie.) *)
Theorem tie_order_two_peers f k1 n1 k2 n2 :
  peers f = [(k1, n1); (k2, n2)] → ToxPk_lt k1 k2 = true →
  toLower (editName n1 ++ QStringLiteral ", ")
    = toLower (editName n2 ++ QStringLiteral ", ") →
  ∃ f' a b,
    updateUserNames f = Ok f' ∧ displayed f' = [Ok a; Ok b] ∧
    fullName a = n1 ∧ fullName b = n2.
Proof.
  intros Hps Hlt Hkey.
  destruct (updateUserNames_spec f) as (f' & Hf' & Hd & _).
  { unfold QMap.wf. rewrite Hps. simpl. repeat constructor. done. }
  rewrite Hps in Hd. unfold nameList in Hd.
  set (L := peerLabel (selfPk f) (blackList f)) in *.
  assert (Hsort : qSort textLessThan (L <$> [(k1, n1); (k2, n2)])
                  = [L (k1, n1); L (k2, n2)]).
  { unfold qSort. simpl. unfold lessThan_at. simpl.
    unfold textLessThan at 1. simpl. rewrite Hkey.
    by rewrite QString_lt_irrefl. }
  rewrite Hsort in Hd. unfold chopLast in Hd. simpl in Hd.
  eexists f', _, _. split; [done|]. split; [exact Hd|]. done.
Qed.
End claims_names_2.

(** ** The audio indicators *)

(** Reads a field of an updated form. *)
Tactic Notation "fields" :=
  cbn [peers selfPk blackList netcam labels namesListLayout peerLabels
       peerAudioTimers set_peers set_netcam set_labels set_namesListLayout
       set_peerLabels set_peerAudioTimers mbind result_bind].
Tactic Notation "fields" "in" hyp(H) :=
  cbn [peers selfPk blackList netcam labels namesListLayout peerLabels
       peerAudioTimers set_peers set_netcam set_labels set_namesListLayout
       set_peerLabels set_peerAudioTimers mbind result_bind] in H.

Section audio.
Context `{Collaborators}.
Implicit Types f : GroupChatForm.

Lemma labelOf_Ok f pk o :
  labelOf f pk = Ok o ↔
  ∃ l, QMap.find ToxPk_lt (peerLabels f) pk = Some (Some l) ∧
       labels f !! l = Some (Some o).
Proof.
  unfold labelOf. split.
  - destruct (QMap.find _ _ _) as [p|]; [|done].
    intros (l & -> & Hl)%deref_Ok_lookup. eauto.
  - intros (l & -> & Hl). apply deref_Ok_lookup. eauto.
Qed.

Lemma through_Ok (h : Labels) l o (g : QLabel → QLabel) :
  h !! l = Some (Some o) → through (Some l) g h = Ok (<[l := Some (g o)]> h).
Proof. intros Hl. unfold through. simpl. by rewrite Hl. Qed.

Lemma QMap_insert_found_length {V} k (v v' : V) (m : QMap ToxPk V) :
  QMap.find ToxPk_lt m k = Some v →
  length (QMap.insert ToxPk_lt k v' m) = length m.
Proof.
  induction m as [|[k' w] m IH]; simpl; [done|].
  destruct (ToxPk_lt k' k); simpl; [by intros ->%IH|].
  by destruct (ToxPk_lt k k').
Qed.

(** An activity event for a peer that has a timer: the timer is
    restarted, and nothing else than the peer's label changes. *)
Lemma peerAudioPlaying_speaking f pk now o t :
  labelOf f pk = Ok o →
  QMap.find ToxPk_lt (peerAudioTimers f) pk = Some (Some t) →
  ∃ f', peerAudioPlaying now pk f = Ok f' ∧
    peerAudioTimers f' =
      QMap.insert ToxPk_lt pk (Some (start now 500 t)) (peerAudioTimers f) ∧
    labelOf f' pk = Ok (setStyleSheet red o) ∧
    netcam f' = netcam f ∧ peers f' = peers f ∧ peerLabels f' = peerLabels f.
Proof.
  intros (l & Hfind & Hl)%labelOf_Ok Ht. unfold peerAudioPlaying.
  rewrite (QMap_index_found _ _ _ _ _ Hfind). fields.
  rewrite (through_Ok _ _ _ _ Hl). fields.
  rewrite (QMap_index_found _ _ _ _ _ Ht). fields.
  rewrite (QMap_index_found _ _ _ _ _ Ht).
  eexists. split; [done|]. repeat split.
  apply labelOf_Ok. exists l. fields. split; [done|].
  apply list_lookup_insert_eq. by eapply lookup_lt_Some.
Qed.

(** The first activity event for a peer, while nobody has a timer. *)
Lemma peerAudioPlaying_idle f pk now o :
  labelOf f pk = Ok o → idle f →
  netcam f = None ∨ is_Some (QMap.find ToxPk_lt (peers f) pk) →
  ∃ f', peerAudioPlaying now pk f = Ok f' ∧
    peerAudioTimers f' =
      QMap.insert ToxPk_lt pk
        (Some {| singleShot := true; deadline := Some (now + 500)%Z |})
        (peerAudioTimers f) ∧
    labelOf f' pk = Ok (setStyleSheet red o) ∧
    peers f' = peers f ∧ peerLabels f' = peerLabels f.
Proof.
  intros (l & Hfind & Hl)%labelOf_Ok Hidle Hcam. unfold peerAudioPlaying.
  rewrite (QMap_index_found _ _ _ _ _ Hfind). fields.
  rewrite (through_Ok _ _ _ _ Hl). fields.
  assert (Hidx : ∃ m, QMap.index ToxPk_lt (peerAudioTimers f) pk None = (m, None) ∧
    ∀ v, QMap.insert ToxPk_lt pk v m = QMap.insert ToxPk_lt pk v (peerAudioTimers f)).
  { destruct (QMap_find_null ToxPk_lt (peerAudioTimers f) pk Hidle) as [Hn|Hn].
    - rewrite (QMap_index_absent _ _ _ _ Hn). eexists. split; [done|].
      intros v. apply (QMap_insert_insert _ ToxPk_lt_irrefl).
    - rewrite (QMap_index_found _ _ _ _ _ Hn). eauto. }
  destruct Hidx as (m & -> & Hm). fields. rewrite Hm.
  assert (Hlab : ∀ f', peerLabels f' = peerLabels f →
    labels f' = <[l:=Some (setStyleSheet red o)]> (labels f) →
    labelOf f' pk = Ok (setStyleSheet red o)).
  { intros f' Hpl Hlb. apply labelOf_Ok. exists l. rewrite Hpl, Hlb.
    split; [done|]. apply list_lookup_insert_eq. by eapply lookup_lt_Some. }
  assert (Hlast : ∀ t0,
    QMap.index ToxPk_lt (QMap.insert ToxPk_lt pk (Some t0) (peerAudioTimers f)) pk None
    = (QMap.insert ToxPk_lt pk (Some t0) (peerAudioTimers f), Some t0)).
  { intros t0. apply QMap_index_found, (QMap_find_insert _ ToxPk_lt_irrefl). }
  destruct (netcam f) as [view|] eqn:Hview.
  - destruct Hcam as [?|[name Hname]]; [done|]. rewrite Hname. fields.
    rewrite Hlast, (QMap_insert_insert _ ToxPk_lt_irrefl).
    eexists. split; [done|]. repeat split. by apply Hlab.
  - fields. rewrite Hlast, (QMap_insert_insert _ ToxPk_lt_irrefl).
    eexists. split; [done|]. repeat split. by apply Hlab.
Qed.

(** The timer of a peer fires. *)
Lemma fire_speaking f pk d o t :
  labelOf f pk = Ok o →
  QMap.find ToxPk_lt (peerAudioTimers f) pk = Some (Some t) →
  ∃ f', fire d pk f = Ok f' ∧
    peerAudioTimers f' = QMap.insert ToxPk_lt pk None (peerAudioTimers f) ∧
    labelOf f' pk = Ok (setStyleSheet [] o) ∧ peers f' = peers f.
Proof.
  intros (l & Hfind & Hl)%labelOf_Ok Ht. unfold fire. rewrite Ht.
  unfold audioTimeout. fields.
  destruct (netcam f) as [view|]; fields;
    (rewrite (QMap_index_found _ _ _ _ _ Hfind); fields;
     rewrite (through_Ok _ _ _ _ Hl); fields;
     rewrite (QMap_insert_insert _ ToxPk_lt_irrefl);
     eexists; split; [done|]; split; [done|]; split; [|done];
     apply labelOf_Ok; exists l; fields; split; [done|];
     apply list_lookup_insert_eq; by eapply lookup_lt_Some).
Qed.

End audio.

Section debounce.
Context `{Collaborators}.
Implicit Types f : GroupChatForm.

Lemma pending_only f f0 pk v :
  only pk v f f0 → pending f pk = v ≫= deadline.
Proof.
  unfold only, pending. intros ->.
  rewrite (QMap_find_insert _ ToxPk_lt_irrefl). by destruct v.
Qed.

Lemma speaking_only f f0 pk v :
  only pk v f f0 → speaking f pk = bool_decide (is_Some v).
Proof.
  unfold only, speaking. intros ->.
  rewrite (QMap_find_insert _ ToxPk_lt_irrefl).
  destruct v; [by rewrite bool_decide_true|].
  rewrite bool_decide_false; [done|]. by intros [??].
Qed.

Lemma speaking_idle f pk : idle f → speaking f pk = false.
Proof.
  intros Hidle. unfold speaking.
  by destruct (QMap_find_null ToxPk_lt (peerAudioTimers f) pk Hidle) as [->| ->].
Qed.

Lemma timers_only f f0 pk v :
  idle f0 → only pk v f f0 → timers f = option_list v.
Proof.
  unfold only, timers. intros Hidle ->.
  rewrite (QMap_omap_insert_null ToxPk_lt snd) by done. by destruct v.
Qed.

Lemma advance_idle f t tr : idle f → advance t f tr = Ok (f, tr).
Proof.
  intros Hidle. unfold advance, dueTimers.
  by rewrite (QMap_omap_null _ _ (λ _, eq_refl) Hidle).
Qed.

Lemma dueTimers_only f f0 pk timer d t :
  idle f0 → only pk (Some timer) f f0 → deadline timer = Some d →
  dueTimers t f = if (d <=? t)%Z then [(d, pk)] else [].
Proof.
  unfold only, dueTimers. intros Hidle -> Hd.
  rewrite (QMap_omap_insert_null ToxPk_lt _ _ _ _ (λ _, eq_refl) Hidle).
  cbn [omap list_omap fst snd]. rewrite Hd. by destruct (d <=? t)%Z.
Qed.

Lemma advance_not_due f f0 pk timer d t tr :
  idle f0 → only pk (Some timer) f f0 → deadline timer = Some d →
  (t < d)%Z → advance t f tr = Ok (f, tr).
Proof.
  intros Hidle Ht Hd Hlt. unfold advance.
  rewrite (dueTimers_only f f0 pk timer d t Hidle Ht Hd).
  by destruct (Z.leb_spec d t); [lia|].
Qed.

Lemma advance_due f f0 pk timer d t tr :
  idle f0 → only pk (Some timer) f f0 → deadline timer = Some d →
  (d ≤ t)%Z →
  advance t f tr = f' ← fire d pk f; Ok (f', tr ++ [(d, f')]).
Proof.
  intros Hidle Ht Hd Hle. unfold advance.
  rewrite (dueTimers_only f f0 pk timer d t Hidle Ht Hd).
  destruct (Z.leb_spec d t); [|lia]. cbn [foldr byDeadline fireAll].
  by destruct (fire d pk f).
Qed.

End debounce.

(** ** Examples and counterexamples *)

Lemma wf_cons2 (k1 k2 : N) (n1 n2 : QString) :
  (k1 < k2)%N → QMap.wf N.ltb [(k1, n1); (k2, n2)].
Proof.
  intros Hlt. unfold QMap.wf. simpl.
  repeat constructor. by apply N.ltb_lt.
Qed.

(** [updateUserNames] on the empty form of [Me] and [Eve]. *)
Lemma labelled_Me_Eve_eq :
  updateUserNames (emptyForm roster_Me_Eve 1%N []) = Ok labelled_Me_Eve.
Proof. vm_compute. reflexivity. Qed.

(** C1. The roster holds the names ["a"] and ["a b"], of [P1] and [P2]:
    the lowercased full names are in this order, but [updateUserNames]
    displays ["a b"] before ["a"]. The labels are sorted by their text
    while it ends in the separator, and a space is less than a comma. *)
Theorem names_misordered_by_separator :
  QMap.wf ToxPk_lt roster_two_words ∧
  ∃ entries,
    shown (updateUserNames (emptyForm roster_two_words 1%N [])) = Ok <$> entries ∧
    fullName <$> entries = [QStringLiteral "a b"; QStringLiteral "a"] ∧
    text <$> entries = [QStringLiteral "a b, "; QStringLiteral "a"] ∧
    QString_lt (toLower (QStringLiteral "a")) (toLower (QStringLiteral "a b"))
      = true ∧
    ¬ sorted_by_fullName entries.
Proof.
  split; [by apply wf_cons2|].
  exists (nameList (H := demo) roster_two_words 1%N []).
  split; [vm_compute; reflexivity|]. split; [reflexivity|].
  split; [reflexivity|]. split; [reflexivity|].
  intros Hsorted. specialize (Hsorted 0%nat _ _ eq_refl eq_refl).
  vm_compute in Hsorted. discriminate.
Qed.

(** C2. [P2] is heard at 200 ms and leaves the roster at 300 ms. Its
    timer is not cancelled: just before 700 ms it is still pending, for a
    peer that is neither in the roster nor in [peerLabels], and at 700 ms
    it fires and its slot calls [setStyleSheet] through the null pointer
    that [peerLabels[peerPk]] is. *)
Theorem timer_not_cancelled_on_removal :
  (∃ f tr, run heard_then_removed 699 labelled_Me_Eve [] = Ok (f, tr) ∧
           QMap.find ToxPk_lt (peers f) 2%N = None ∧
           QMap.find ToxPk_lt (peerLabels f) 2%N = None ∧
           pending f 2%N = Some 700%Z ∧
           dueTimers 700 f = [(700%Z, 2%N)] ∧
           ¬ cancelled_on_removal f) ∧
  run heard_then_removed 700 labelled_Me_Eve [] = Fault.
Proof.
  split; [|vm_compute; reflexivity].
  eexists _, _. split; [vm_compute; reflexivity|].
  repeat split; try reflexivity.
  intros Hc. specialize (Hc 2%N eq_refl). discriminate.
Qed.

(** With one peer left, [onUserListChanged] hides the net-camera view;
    with two peers in an audio group it leaves it, cleared by
    [updateUserNames]. *)
Example roster_change_hides_netcam :
  (∃ f, handle 300 (UserListChanged roster_Me 1 true)
          (set_netcam (Some [(2%N, QStringLiteral "Eve")]) labelled_Me_Eve)
        = Ok f ∧ netcam f = None) ∧
  (∃ f, handle 300 (UserListChanged roster_Me_Eve 2 true)
          (set_netcam (Some [(2%N, QStringLiteral "Eve")]) labelled_Me_Eve)
        = Ok f ∧ netcam f = Some []).
Proof. split; eexists; (split; [vm_compute; reflexivity|reflexivity]). Qed.

(** C3. Once [P2], heard at 200 ms, has left the roster at 300 ms, it is
    not in [peerLabels]. The timeout of its timer and an activity event
    for it are not handled as no-ops: each ends in a fault, the call of
    [setStyleSheet] through a null pointer. *)
Theorem unknown_peer_not_no_op :
  ∃ f tr, run heard_then_removed 699 labelled_Me_Eve [] = Ok (f, tr) ∧
    QMap.find ToxPk_lt (peerLabels f) 2%N = None ∧
    speaking f 2%N = true ∧
    audioTimeout 2%N f = Fault ∧ fire 700 2%N f = Fault ∧
    peerAudioPlaying 699 2%N f = Fault ∧
    ¬ no_op (audioTimeout 2%N) f ∧ ¬ no_op (fire 700 2%N) f ∧
    ¬ no_op (peerAudioPlaying 699 2%N) f.
Proof.
  eexists _, _. split; [vm_compute; reflexivity|].
  repeat split; try reflexivity; intros [=].
Qed.

(** C7, witness. *)
Lemma one_label_per_peer_witness :
  QMap.wf ToxPk_lt (peers form_Me_Eve) ∧
  ∃ f' entries,
    updateUserNames form_Me_Eve = Ok f' ∧ displayed f' = Ok <$> entries ∧
    length entries = length (peers form_Me_Eve) ∧
    fullName <$> entries ≡ₚ QMap.values (peers form_Me_Eve) ∧
    QMap.keys (peerLabels f') = QMap.keys (peers form_Me_Eve) ∧
    (peers form_Me_Eve = [] →
     entries = [] ∧ f' = set_peerLabels [] (takeAll form_Me_Eve)).
Proof.
  split; [by apply wf_cons2|].
  apply (one_label_per_peer form_Me_Eve). by apply wf_cons2.
Defined.

(** C9, witness. *)
Lemma updateUserNames_twice_witness :
  QMap.wf ToxPk_lt (peers form_Me_Eve) ∧
  ∃ f' f'',
    updateUserNames form_Me_Eve = Ok f' ∧ updateUserNames f' = Ok f'' ∧
    displayed f'' = displayed f' ∧
    displayed f' = Ok <$> nameList (peers form_Me_Eve) (selfPk form_Me_Eve)
                            (blackList form_Me_Eve).
Proof.
  split; [by apply wf_cons2|].
  apply (updateUserNames_twice form_Me_Eve). by apply wf_cons2.
Defined.

(** C6, witness: [P1] is tagged as the own key and [P2] as
    blacklisted. *)
Lemma peer_style_tag_witness :
  QMap.wf ToxPk_lt (peers form_Me_Eve) ∧
  ∃ f', updateUserNames form_Me_Eve = Ok f' ∧
    ∀ k v, (k, v) ∈ peers form_Me_Eve →
      ∃ o tag, labelOf f' k = Ok o ∧ styleTag o = Some tag ∧
        (tag = self ↔ k = selfPk form_Me_Eve) ∧
        (tag = blacklisted ↔
           k ≠ selfPk form_Me_Eve ∧ ToxPk_toString k ∈ blackList form_Me_Eve) ∧
        (tag = normal ↔
           k ≠ selfPk form_Me_Eve ∧ ToxPk_toString k ∉ blackList form_Me_Eve).
Proof.
  split; [by apply wf_cons2|].
  apply (peer_style_tag form_Me_Eve). by apply wf_cons2.
Defined.

(** The tags of the example of the spec. *)
Example style_tags_Me_Eve :
  ∃ f' o1 o2, updateUserNames form_Me_Eve = Ok f' ∧
    labelOf f' 1%N = Ok o1 ∧ styleTag o1 = Some self ∧
    labelOf f' 2%N = Ok o2 ∧ styleTag o2 = Some blacklisted.
Proof.
  eexists _, _, _. split; [vm_compute; reflexivity|].
  repeat split; reflexivity.
Qed.

(** C8, counterexample. The roster holds ["b"], ["B"] and ["a"], in this
    order: ["b"] and ["B"] have equal keys, and [updateUserNames] displays
    ["B"] before ["b"]. *)
Lemma ties_not_in_roster_order :
  ∃ entries,
    shown (updateUserNames (emptyForm roster_tie 1%N [])) = Ok <$> entries ∧
    fullName <$> entries =
      [QStringLiteral "a"; QStringLiteral "B"; QStringLiteral "b"] ∧
    ¬ ties_in_roster_order roster_tie entries.
Proof.
  exists (nameList (H := demo) roster_tie 1%N []).
  split; [vm_compute; reflexivity|]. split; [reflexivity|].
  intros Hties.
  specialize (Hties 0%nat 1%nat (QStringLiteral "b") (QStringLiteral "B")
                2%nat 1%nat eq_refl eq_refl).
  assert (2 < 1)%nat; [|lia].
  apply Hties; [lia|done|reflexivity|reflexivity|reflexivity].
Qed.

(** C8, witness. *)
Lemma tie_order_two_peers_witness :
  ∃ f' a b,
    updateUserNames (emptyForm roster_two_tie 1%N []) = Ok f' ∧
    displayed f' = [Ok a; Ok b] ∧
    fullName a = QStringLiteral "b" ∧ fullName b = QStringLiteral "B".
Proof.
  apply (tie_order_two_peers (emptyForm roster_two_tie 1%N [])
           1%N (QStringLiteral "b") 2%N (QStringLiteral "B"));
    reflexivity.
Defined.

(** * Further properties *)

(** ** editName *)

Lemma editName_no_newline (name : QString) :
  Forall (λ c, ¬ newline c) (editName name).
Proof.
  destruct (first_newline name) as [Hno|(pre & c & post & -> & Hpre & Hc)].
  - by rewrite editName_unchanged.
  - rewrite editName_truncated by done. apply Forall_app. split; [done|].
    repeat constructor. by intros [?|?].
Qed.

(** X1. What [editName] returns is a single line, and not longer than the
    name: it holds no line feed and no carriage return, and the ellipsis
    takes the place of one code unit at least. *)
Theorem editName_single_line (name : QString) :
  Forall (λ c, ¬ newline c) (editName name) ∧
  (length (editName name) ≤ length name)%nat.
Proof.
  split; [apply editName_no_newline|].
  destruct (first_newline name) as [Hno|(pre & c & post & -> & Hpre & Hc)].
  - by rewrite editName_unchanged.
  - rewrite editName_truncated by done. rewrite !length_app. simpl. lia.
Qed.

(** X2. [editName] is idempotent, and the names it leaves as they are are
    those without a line feed or a carriage return. *)
Theorem editName_idempotent (name : QString) :
  editName (editName name) = editName name ∧
  (editName name = name ↔ Forall (λ c, ¬ newline c) name).
Proof.
  split; [apply editName_unchanged, editName_no_newline|]. split.
  - intros <-. apply editName_no_newline.
  - apply editName_unchanged.
Qed.

(** ** The store of labels *)

Section store.
Context `{Collaborators}.
Implicit Types f g : GroupChatForm.

Lemma labelPeer_netcam ps self g k :
  netcam (labelPeer ps self g k) =
  if viewed self (blackList g) (k, QMap.value ToxPk_lt ps k [])
  then addPeer k (QMap.value ToxPk_lt ps k []) <$> netcam g
  else netcam g.
Proof.
  unfold labelPeer, new_QLabel, viewed. cbn [fst snd]. fields.
  destruct (ToxPk_eqb k self); simpl; try done.
  destruct (contains _ _); simpl; try done.
  destruct (netcam g) eqn:Hcam; simpl; by rewrite ?Hcam.
Qed.

Lemma addPeers_filter_snoc self bl l e view :
  addPeers (List.filter (viewed self bl) (l ++ [e])) view =
  if viewed self bl e
  then addPeer e.1 e.2 (addPeers (List.filter (viewed self bl) l) view)
  else addPeers (List.filter (viewed self bl) l) view.
Proof.
  unfold addPeers. rewrite List.filter_app. simpl.
  destruct (viewed self bl e); [by rewrite foldl_snoc|by rewrite app_nil_r].
Qed.

(** The net-camera view after the loop over [peers.keys()]. *)
Lemma labelPeers_netcam ps self f done todo :
  QMap.wf ToxPk_lt ps → peerLabels f = [] → ps = done ++ todo →
  netcam (foldl (labelPeer ps self) f (QMap.keys done)) =
  addPeers (List.filter (viewed self (blackList f)) done) <$> netcam f.
Proof.
  intros Hwf Hnil. revert todo.
  induction done as [|[k v] done IH] using rev_ind; intros todo Hps.
  { simpl. by destruct (netcam f). }
  destruct (labelPeers_spec ps self f done ([(k, v)] ++ todo) Hwf Hnil)
    as (_ & _ & _ & _ & _ & Hb & _); [by rewrite app_assoc|].
  unfold QMap.keys in *. rewrite fmap_app. simpl. rewrite foldl_snoc.
  rewrite labelPeer_netcam, Hb, (IH ([(k, v)] ++ todo)) by (by rewrite app_assoc).
  assert (Hfind : QMap.value ToxPk_lt ps k [] = v).
  { unfold QMap.value. rewrite (QMap_find_elem_of _ ToxPk_lt_irrefl k v); auto.
    rewrite Hps, !elem_of_app. left. right. constructor. }
  rewrite Hfind. destruct (netcam f) as [view|]; simpl.
  - rewrite addPeers_filter_snoc. by destruct (viewed _ _ _).
  - by destruct (viewed _ _ _).
Qed.

(** The form [rebuildNames] returns, field by field. *)
Lemma rebuildNames_store f f' :
  QMap.wf ToxPk_lt (peers f) → peerLabels f = [] → namesListLayout f = [] →
  rebuildNames f = Ok f' →
  let H0 := labels f ++
            (Some ∘ peerLabel (selfPk f) (blackList f) <$> peers f) in
  let ptrs := Some <$> seq (length (labels f)) (length (peers f)) in
  ∃ l o,
    H0 !! l = Some (Some o) ∧ (length (labels f) ≤ l)%nat ∧
    labels f' = <[l := Some (setText (chop 2 (text o)) o)]> H0 ∧
    QMap.keys (peerLabels f') = QMap.keys (peers f) ∧
    QMap.values (peerLabels f') = ptrs ∧
    namesListLayout f' ≡ₚ ptrs ∧
    last (namesListLayout f') = Some (Some l) ∧
    netcam f' =
      clearPeers <$>
        (addPeers (List.filter (viewed (selfPk f) (blackList f)) (peers f))
           <$> netcam f).
Proof.
  intros Hwf Hnil Hlay Hf'.
  destruct (labelPeers_spec (peers f) (selfPk f) f (peers f) [] Hwf Hnil)
    as (Hl & Hk & Hv & Hp & Hs & Hb & Hn & Ht); [by rewrite app_nil_r|].
  pose proof (labelPeers_netcam (peers f) (selfPk f) f (peers f) [] Hwf Hnil)
    as Hcam. rewrite app_nil_r in Hcam. specialize (Hcam eq_refl).
  unfold rebuildNames, nickLabelList, labelPeers in Hf'. cbv zeta in Hf'.
  set (g := foldl (labelPeer (peers f) (selfPk f)) f (QMap.keys (peers f))) in *.
  set (g' := match netcam g with
             | Some view => set_netcam (Some (clearPeers view)) g
             | None => g
             end) in *.
  assert (Hg' : labels g' = labels g ∧ peerLabels g' = peerLabels g ∧
                namesListLayout g' = namesListLayout g ∧
                netcam g' = clearPeers <$> netcam g)
    by (unfold g'; destruct (netcam g) eqn:Hg; simpl; by rewrite ?Hg).
  destruct Hg' as (Hl' & Hpl' & Hn' & Hc').
  rewrite Hl', Hpl', Hv, Hl in Hf'.
  intros H0 ptrs. fold H0 ptrs in Hf'.
  assert (Hperm : qSort (labelLessThan H0) ptrs ≡ₚ ptrs).
  { apply qSort_Permutation.
    - intros ??. apply QString_lt_asym.
    - intros ???. apply QString_lt_trans. }
  set (sorted := qSort (labelLessThan H0) ptrs) in *.
  unfold QList_last in Hf'.
  destruct (last sorted) as [p|] eqn:Hlast; [|done]. simpl in Hf'.
  destruct (deref H0 p) as [o|] eqn:Hpo; [|done]. simpl in Hf'.
  apply deref_Ok_lookup in Hpo as Hpl. destruct Hpl as (l & -> & Hlo).
  rewrite (through_Ok _ _ _ _ Hlo) in Hf'. simpl in Hf'.
  injection Hf' as <-. exists l, o. simpl.
  rewrite Hpl', Hk, Hv, Hn', Hn, Hlay, Hc', Hcam. simpl.
  repeat split; try done.
  apply last_Some_elem_of in Hlast. rewrite Hperm in Hlast.
  apply list_elem_of_fmap in Hlast as (i & [= ->] & Hi).
  apply elem_of_seq in Hi. lia.
Qed.
End store.

Lemma chop_separator (s : QString) (a b : QChar) : chop 2 (s ++ [a; b]) = s.
Proof.
  unfold chop. rewrite length_app. simpl.
  destruct (Z.leb_spec (Z.of_nat (length s + 2)) 2).
  - assert (length s = 0)%nat as Hnil by lia.
    by apply nil_length_inv in Hnil as ->.
  - rewrite take_app_length'; [done|lia].
Qed.

Lemma QMap_find_values {K V} (lt : K → K → bool) (m : QMap K V) k v :
  QMap.find lt m k = Some v → v ∈ QMap.values m.
Proof.
  unfold QMap.values. induction m as [|[k' v'] m IH]; simpl; [done|].
  destruct (lt k' k).
  - intros Hv. right. by apply IH.
  - destruct (lt k k'); [done|]. intros [= ->]. left.
Qed.

Lemma delete_all_length (ps : list QLabelPtr) (h : Labels) :
  length (foldl (λ h p, delete_QLabel p h) h ps) = length h.
Proof.
  revert h. induction ps as [|[l|] ps IH]; intros h; simpl; [done|..].
  - by rewrite IH, length_insert.
  - apply IH.
Qed.

Lemma delete_all_dead (ps : list QLabelPtr) (h : Labels) l :
  h !! l = Some None →
  foldl (λ h p, delete_QLabel p h) h ps !! l = Some None.
Proof.
  revert h. induction ps as [|[l'|] ps IH]; intros h Hl; simpl; [done|..].
  - apply IH. destruct (decide (l' = l)) as [->|Hne].
    + apply list_lookup_insert_eq. by eapply lookup_lt_Some.
    + by rewrite list_lookup_insert_ne.
  - by apply IH.
Qed.

Lemma delete_all_lookup (ps : list QLabelPtr) (h : Labels) l :
  Some l ∈ ps → (l < length h)%nat →
  foldl (λ h p, delete_QLabel p h) h ps !! l = Some None.
Proof.
  revert h. induction ps as [|p ps IH]; intros h Hin Hl; [by apply elem_of_nil in Hin|].
  apply elem_of_cons in Hin as [<-|Hin]; simpl.
  - apply delete_all_dead. by apply list_lookup_insert_eq.
  - apply IH; [done|]. destruct p; simpl; [by rewrite length_insert|done].
Qed.

Section store_claims.
Context `{Collaborators}.
Implicit Types f g : GroupChatForm.

(** What [updateUserNames] returns, in terms of the store. *)
Lemma updateUserNames_store f f' :
  QMap.wf ToxPk_lt (peers f) → updateUserNames f = Ok f' →
  let h1 := foldl (λ h p, delete_QLabel p h) (labels f) (namesListLayout f) in
  let L := peerLabel (selfPk f) (blackList f) in
  let ptrs := Some <$> seq (length (labels f)) (length (peers f)) in
  QMap.keys (peerLabels f') = QMap.keys (peers f) ∧
  QMap.values (peerLabels f') = ptrs ∧
  namesListLayout f' ≡ₚ ptrs ∧
  (∀ l, (l < length (labels f))%nat → labels f' !! l = h1 !! l) ∧
  (∀ i e, peers f !! i = Some e →
     ∃ o, labels f' !! (length (labels f) + i)%nat = Some (Some o) ∧
          (o = L e ∨ o = setText (editName e.2) (L e))).
Proof.
  intros Hwf Hf' h1 L ptrs. unfold updateUserNames in Hf'. cbv zeta in Hf'.
  set (f1 := set_peerLabels [] (takeAll f)) in *.
  change (peers f1) with (peers f) in Hf'.
  assert (Hlen : length h1 = length (labels f)) by apply delete_all_length.
  destruct (peers f) as [|e0 ps] eqn:Hps.
  { simpl in Hf'. injection Hf' as <-. subst ptrs. simpl.
    repeat split; done. }
  simpl in Hf'.
  destruct (rebuildNames_store f1 f') as (l & o & Hlo & Hl & Hlab & Hk & Hv & Hperm & _);
    [by change (peers f1) with (peers f); rewrite Hps|done|done|done|].
  change (peers f1) with (peers f) in *. change (selfPk f1) with (selfPk f) in *.
  change (blackList f1) with (blackList f) in *.
  change (labels f1) with h1 in *. rewrite Hps in *. rewrite Hlen in *.
  fold L in Hlo, Hlab. fold ptrs in Hv, Hperm.
  repeat split; try done.
  - intros l0 Hl0. rewrite Hlab, list_lookup_insert_ne by lia.
    by rewrite lookup_app_l by lia.
  - intros i e Hi.
    assert (Hi' : (h1 ++ (Some ∘ L <$> e0 :: ps)) !! (length (labels f) + i)%nat
                  = Some (Some (L e))).
    { rewrite lookup_app_r by lia.
      replace (length (labels f) + i - length h1)%nat with i by lia.
      by rewrite list_lookup_fmap, Hi. }
    rewrite Hlab. destruct (decide (l = (length (labels f) + i)%nat)) as [->|Hne].
    + rewrite list_lookup_insert_eq by (by eapply lookup_lt_Some).
      eexists. split; [done|]. right. simplify_eq.
      unfold L at 1. simpl.
      change (QStringLiteral ", ") with [44%N; 32%N]. by rewrite chop_separator.
    + rewrite list_lookup_insert_ne by done. eauto.
Qed.

(** X3. [updateUserNames] replaces the labels of the layout: when the
    layout holds live labels, each once (the loop deletes every widget it
    takes), every one of them is deleted, and the layout then holds live
    labels again, each once, none of which was in it before. *)
Theorem layout_labels_replaced f :
  QMap.wf ToxPk_lt (peers f) →
  Forall (live f) (namesListLayout f) → NoDup (namesListLayout f) →
  ∃ f', updateUserNames f = Ok f' ∧
    (∀ p, p ∈ namesListLayout f → deref (labels f') p = Fault) ∧
    Forall (live f') (namesListLayout f') ∧ NoDup (namesListLayout f') ∧
    (∀ p, p ∈ namesListLayout f' → p ∉ namesListLayout f).
Proof.
  intros Hwf Hlive _. destruct (updateUserNames_spec f Hwf) as (f' & Hf' & _).
  exists f'. split; [done|].
  destruct (updateUserNames_store f f' Hwf Hf') as (_ & _ & Hperm & Hlow & Hnew).
  assert (Hold : ∀ l, Some l ∈ namesListLayout f → (l < length (labels f))%nat).
  { intros l Hl. rewrite Forall_forall in Hlive.
    destruct (Hlive _ Hl) as (o & (l' & [= <-] & Ho)%deref_Ok_lookup).
    by eapply lookup_lt_Some. }
  assert (Hptr : ∀ p, p ∈ namesListLayout f' →
            ∃ j e, p = Some (length (labels f) + j)%nat ∧ peers f !! j = Some e).
  { intros p Hp. rewrite Hperm in Hp.
    apply list_elem_of_fmap in Hp as (j & -> & Hj). apply elem_of_seq in Hj.
    destruct (lookup_lt_is_Some_2 (peers f) (j - length (labels f))) as [e He];
      [lia|].
    exists (j - length (labels f))%nat, e. split; [f_equal; lia|done]. }
  split; [|split; [|split]].
  - intros [l|] Hp; [|done]. simpl. rewrite Hlow by auto.
    by rewrite delete_all_lookup by auto.
  - apply Forall_forall. intros p (j & e & -> & He)%Hptr.
    destruct (Hnew _ _ He) as (o & Ho & _). exists o. simpl. by rewrite Ho.
  - rewrite Hperm. apply NoDup_fmap_2; [by intros ?? [=]|apply NoDup_seq].
  - intros p (j & e & -> & He)%Hptr Hin. apply Hold in Hin. lia.
Qed.

(** X4. After [updateUserNames] the label of every peer of the roster is
    one of the labels on display; it is plain text, its tool tip is the
    full name of the peer, whether the name was truncated or not, and its
    text is the edited name, with the separator or, for one label, without
    it. *)
Theorem peer_label_on_display f :
  QMap.wf ToxPk_lt (peers f) →
  ∃ f', updateUserNames f = Ok f' ∧
    namesListLayout f' ≡ₚ QMap.values (peerLabels f') ∧
    ∀ k v, (k, v) ∈ peers f →
      ∃ o, labelOf f' k = Ok o ∧ Ok o ∈ displayed f' ∧
        toolTip o = v ∧ textFormat o = PlainText ∧
        (text o = editName v ++ QStringLiteral ", " ∨ text o = editName v).
Proof.
  intros Hwf.
  destruct (updateUserNames_spec f Hwf) as (f' & Hf' & _ & _ & _ & _ & _ & Hk & Hlab).
  exists f'. split; [done|].
  destruct (updateUserNames_store f f' Hwf Hf') as (_ & Hv & Hperm & _ & Hnew).
  split; [by rewrite Hv|].
  intros k v Hin. destruct (Hlab k v Hin) as (o & Ho & Htip & _).
  exists o. split; [done|]. split; [|split; [done|]].
  - unfold labelOf in Ho.
    destruct (QMap.find ToxPk_lt (peerLabels f') k) as [p|] eqn:Hp; [|done].
    apply QMap_find_values in Hp. rewrite Hv, <- Hperm in Hp.
    unfold displayed. rewrite <- Ho. by apply list_elem_of_fmap_2.
  - unfold labelOf in Ho.
    destruct (QMap.find ToxPk_lt (peerLabels f') k) as [p|] eqn:Hp; [|done].
    apply QMap_find_values in Hp. rewrite Hv in Hp.
    apply list_elem_of_fmap in Hp as (j & -> & Hj). apply elem_of_seq in Hj.
    destruct (lookup_lt_is_Some_2 (peers f) (j - length (labels f))) as [e He];
      [lia|].
    destruct (Hnew _ _ He) as (o' & Ho' & Hcases).
    replace (length (labels f) + (j - length (labels f)))%nat with j in Ho' by lia.
    simpl in Ho. rewrite Ho' in Ho. injection Ho as ->.
    destruct Hcases as [-> | ->]; simpl in *; subst v; auto.
Qed.

(** X5. After [updateUserNames] the view of the net camera, when there is
    one, has been given the peers that are neither the own key nor
    blacklisted, in the order of the roster, and [clearPeers] after them;
    with an empty roster it is left as it is. *)
Theorem netcam_after_updateUserNames f :
  QMap.wf ToxPk_lt (peers f) →
  ∃ f', updateUserNames f = Ok f' ∧
    netcam f' =
      match peers f with
      | [] => netcam f
      | _ =>
          (λ view,
             clearPeers
               (addPeers (List.filter (viewed (selfPk f) (blackList f)) (peers f))
                  view)) <$> netcam f
      end.
Proof.
  intros Hwf. destruct (updateUserNames_spec f Hwf) as (f' & Hf' & _).
  exists f'. split; [done|].
  unfold updateUserNames in Hf'. cbv zeta in Hf'.
  set (f1 := set_peerLabels [] (takeAll f)) in *.
  change (peers f1) with (peers f) in Hf'.
  destruct (peers f) as [|e0 ps] eqn:Hps.
  { simpl in Hf'. by injection Hf' as <-. }
  simpl in Hf'.
  destruct (rebuildNames_store f1 f') as (l & o & _ & _ & _ & _ & _ & _ & _ & Hcam);
    [by change (peers f1) with (peers f); rewrite Hps|done|done|done|].
  rewrite Hcam. change (peers f1) with (peers f). rewrite Hps.
  change (netcam f1) with (netcam f). by destruct (netcam f).
Qed.
End store_claims.

Section display_claims.
Context `{Collaborators}.
Implicit Types f g : GroupChatForm.

Lemma chopLast_lookup (l : list QLabel) i o :
  chopLast l !! i = Some o →
  if decide (S i = length l)
  then ∃ o0, l !! i = Some o0 ∧ o = setText (chop 2 (text o0)) o0
  else l !! i = Some o.
Proof.
  unfold chopLast. destruct (last l) as [o0|] eqn:Hlast; [|done].
  apply last_Some in Hlast as [l' ->]. rewrite removelast_last, length_app.
  simpl. intros Hi. destruct (decide (i = length l')) as [->|Hne].
  - rewrite decide_True by lia. rewrite list_lookup_middle in Hi by done.
    exists o0. split; [by apply list_lookup_middle|congruence].
  - rewrite decide_False by lia.
    assert (i < length l')%nat.
    { apply lookup_lt_Some in Hi. rewrite length_app in Hi. simpl in Hi. lia. }
    rewrite lookup_app_l in Hi by done. by rewrite lookup_app_l.
Qed.

Lemma nameList_text ps self bl i o :
  nameList ps self bl !! i = Some o →
  text o =
    editName (fullName o) ++
    (if decide (S i = length ps) then [] else QStringLiteral ", ").
Proof.
  intros Hi. unfold nameList in Hi. apply chopLast_lookup in Hi.
  assert (Hlen : length (qSort textLessThan (peerLabel self bl <$> ps)) = length ps)
    by (by rewrite qSort_textLessThan_Permutation, length_fmap).
  rewrite Hlen in Hi.
  assert (Hin : ∀ o', qSort textLessThan (peerLabel self bl <$> ps) !! i = Some o' →
            ∃ e, o' = peerLabel self bl e).
  { intros o' Ho'. apply list_elem_of_lookup_2 in Ho'.
    rewrite qSort_textLessThan_Permutation in Ho'.
    apply list_elem_of_fmap in Ho' as (e & -> & _). eauto. }
  destruct (decide (S i = length ps)) as [Hlast|Hlast].
  - destruct Hi as (o0 & Ho0 & ->). destruct (Hin _ Ho0) as (e & ->). simpl.
    change (QStringLiteral ", ") with [44%N; 32%N].
    by rewrite chop_separator, app_nil_r.
  - by destruct (Hin _ Hi) as (e & ->).
Qed.

Lemma chopLast_unstyled (l : list QLabel) :
  setStyleSheet [] <$> chopLast l = chopLast (setStyleSheet [] <$> l).
Proof.
  unfold chopLast. rewrite fmap_last.
  destruct (last l) as [o|] eqn:Hlast; simpl; [|done].
  apply last_Some in Hlast as [l' ->].
  rewrite removelast_last, !fmap_app. simpl. by rewrite removelast_last.
Qed.

Lemma nameList_unstyled ps self bl self' bl' :
  setStyleSheet [] <$> nameList ps self bl =
  setStyleSheet [] <$> nameList ps self' bl'.
Proof.
  unfold nameList. rewrite !chopLast_unstyled. f_equal.
  change textLessThan with (lessThan_on (setStyleSheet []) textLessThan).
  rewrite <- !(qSort_fmap (setStyleSheet []) textLessThan).
  by rewrite <- !list_fmap_compose.
Qed.

(** X6. The names on display are a comma-separated list: after
    [updateUserNames] there is one entry for each peer of the roster, each
    is the edited full name it carries as tool tip, followed by a comma
    and a space in every entry but the last one. *)
Theorem names_comma_separated f :
  QMap.wf ToxPk_lt (peers f) →
  ∃ f' entries, updateUserNames f = Ok f' ∧ displayed f' = Ok <$> entries ∧
    fullName <$> entries ≡ₚ QMap.values (peers f) ∧
    ∀ i o, entries !! i = Some o →
      text o =
        editName (fullName o) ++
        (if decide (S i = length (peers f)) then [] else QStringLiteral ", ").
Proof.
  intros Hwf. destruct (updateUserNames_spec f Hwf) as (f' & Hf' & Hd & _).
  exists f', (nameList (peers f) (selfPk f) (blackList f)).
  split; [done|]. split; [done|]. split; [apply nameList_fullNames|].
  apply nameList_text.
Qed.

(** X7. What is on display depends on the roster only, but for the
    colours: two forms over the same roster show, after
    [updateUserNames], the same entries in the same order, up to their
    style sheets, whatever their own keys, blacklists, net-camera views,
    labels and timers are. *)
Theorem names_depend_on_roster_only f g :
  QMap.wf ToxPk_lt (peers f) → peers g = peers f →
  ∃ f' g' entries entries',
    updateUserNames f = Ok f' ∧ updateUserNames g = Ok g' ∧
    displayed f' = Ok <$> entries ∧ displayed g' = Ok <$> entries' ∧
    setStyleSheet [] <$> entries = setStyleSheet [] <$> entries'.
Proof.
  intros Hwf Hg.
  destruct (updateUserNames_spec f Hwf) as (f' & Hf' & Hd & _).
  destruct (updateUserNames_spec g) as (g' & Hg' & Hd' & _); [by rewrite Hg|].
  exists f', g', (nameList (peers f) (selfPk f) (blackList f)),
    (nameList (peers g) (selfPk g) (blackList g)).
  repeat (split; [done|]). rewrite Hg. apply nameList_unstyled.
Qed.
End display_claims.

(** ** The audio indicators *)

Lemma QMap_find_keys {K V W} (lt : K → K → bool) (m : QMap K V) (m' : QMap K W) k :
  QMap.keys m = QMap.keys m' →
  QMap.find lt m k = None ↔ QMap.find lt m' k = None.
Proof.
  unfold QMap.keys. revert m'.
  induction m as [|[k1 v] m IH]; intros [|[k2 w] m']; simpl; try done.
  intros [= <- Hk]. destruct (lt k1 k); [by apply IH|].
  by destruct (lt k k1).
Qed.

Lemma QMap_insert_null {K V} (lt : K → K → bool) (m : QMap K (option V)) k :
  Forall (λ e, e.2 = None) m →
  Forall (λ e, e.2 = None) (QMap.insert lt k None m).
Proof.
  induction 1 as [|[k' v] m Hv Hm IH]; simpl; [by repeat constructor|].
  destruct (lt k' k); [by constructor|].
  destruct (lt k k'); by repeat constructor.
Qed.

Section audio_claims.
Context `{Collaborators}.
Implicit Types f g : GroupChatForm.

Lemma speaking_false f pk :
  speaking f pk = false →
  QMap.find ToxPk_lt (peerAudioTimers f) pk = None ∨
  QMap.find ToxPk_lt (peerAudioTimers f) pk = Some None.
Proof.
  unfold speaking. destruct (QMap.find _ _ _) as [[t|]|]; auto. done.
Qed.

Lemma speaking_true f pk :
  speaking f pk = true →
  ∃ t, QMap.find ToxPk_lt (peerAudioTimers f) pk = Some (Some t).
Proof.
  unfold speaking. destruct (QMap.find _ _ _) as [[t|]|]; try done. eauto.
Qed.

(** An activity event for a peer that has a label and no timer. *)
Lemma peerAudioPlaying_silent f pk now o :
  labelOf f pk = Ok o → speaking f pk = false →
  peerAudioPlaying now pk f =
    match netcam f, QMap.find ToxPk_lt (peers f) pk with
    | Some _, None => Fault
    | _, _ =>
        Ok (set_peerAudioTimers
              (QMap.insert ToxPk_lt pk
                 (Some {| singleShot := true; deadline := Some (now + 500)%Z |})
                 (peerAudioTimers f))
              (set_netcam
                 (match netcam f, QMap.find ToxPk_lt (peers f) pk with
                  | Some view, Some name =>
                      Some (addPeer pk name (removePeer pk view))
                  | _, _ => netcam f
                  end)
                 (set_labels
                    (match QMap.find ToxPk_lt (peerLabels f) pk with
                     | Some (Some l) =>
                         <[l := Some (setStyleSheet red o)]> (labels f)
                     | _ => labels f
                     end) f)))
    end.
Proof.
  intros (l & Hfind & Hl)%labelOf_Ok Hsilent. unfold peerAudioPlaying.
  rewrite (QMap_index_found _ _ _ _ _ Hfind). fields.
  rewrite (through_Ok _ _ _ _ Hl). fields. rewrite Hfind.
  assert (Hidx : ∃ m, QMap.index ToxPk_lt (peerAudioTimers f) pk None = (m, None) ∧
    ∀ v, QMap.insert ToxPk_lt pk v m = QMap.insert ToxPk_lt pk v (peerAudioTimers f)).
  { destruct (speaking_false f pk Hsilent) as [Hn|Hn].
    - rewrite (QMap_index_absent _ _ _ _ Hn). eexists. split; [done|].
      intros v. apply (QMap_insert_insert _ ToxPk_lt_irrefl).
    - rewrite (QMap_index_found _ _ _ _ _ Hn). eauto. }
  destruct Hidx as (m & -> & Hm). fields. rewrite Hm.
  assert (Hlast : ∀ t0,
    QMap.index ToxPk_lt (QMap.insert ToxPk_lt pk (Some t0) (peerAudioTimers f)) pk None
    = (QMap.insert ToxPk_lt pk (Some t0) (peerAudioTimers f), Some t0)).
  { intros t0. apply QMap_index_found, (QMap_find_insert _ ToxPk_lt_irrefl). }
  destruct (netcam f) as [view|] eqn:Hview.
  - destruct (QMap.find ToxPk_lt (peers f) pk) as [name|]; [|done]. fields.
    rewrite Hlast, (QMap_insert_insert _ ToxPk_lt_irrefl).
    unfold set_peerAudioTimers, set_netcam, set_labels, set_peerLabels. fields.
    by rewrite ?Hview.
  - fields. rewrite Hlast, (QMap_insert_insert _ ToxPk_lt_irrefl).
    unfold set_peerAudioTimers, set_netcam, set_labels, set_peerLabels. fields.
    by rewrite ?Hview.
Qed.

Lemma no_label_faults f pk now :
  labelOf f pk = Fault →
  peerAudioPlaying now pk f = Fault ∧ audioTimeout pk f = Fault.
Proof.
  unfold labelOf. intros Hlab.
  assert (Hidx : ∃ m p, QMap.index ToxPk_lt (peerLabels f) pk None = (m, p) ∧
            ∀ h, deref h p = deref h (default None (QMap.find ToxPk_lt (peerLabels f) pk))).
  { destruct (QMap.find ToxPk_lt (peerLabels f) pk) as [p|] eqn:Hfind.
    - rewrite (QMap_index_found _ _ _ _ _ Hfind). eauto.
    - rewrite (QMap_index_absent _ _ _ _ Hfind). eauto. }
  destruct Hidx as (m & p & Hidx & Hp).
  assert (Hd : deref (labels f) p = Fault).
  { rewrite Hp. by destruct (QMap.find ToxPk_lt (peerLabels f) pk). }
  unfold peerAudioPlaying, audioTimeout. split.
  - rewrite Hidx. fields. unfold through. by rewrite Hd.
  - destruct (netcam f); fields; rewrite Hidx; fields; unfold through;
      by rewrite Hd.
Qed.

Lemma audioTimeout_Ok f pk o :
  labelOf f pk = Ok o →
  ∃ f', audioTimeout pk f = Ok f' ∧
    peerAudioTimers f' = QMap.insert ToxPk_lt pk None (peerAudioTimers f) ∧
    labelOf f' pk = Ok (setStyleSheet [] o) ∧ peers f' = peers f ∧
    netcam f' = removePeer pk <$> netcam f.
Proof.
  intros (l & Hfind & Hl)%labelOf_Ok. unfold audioTimeout.
  destruct (netcam f) as [view|] eqn:Hview; fields;
    (rewrite (QMap_index_found _ _ _ _ _ Hfind); fields;
     rewrite (through_Ok _ _ _ _ Hl); fields;
     eexists; split; [done|]; split; [done|]; split; [|by rewrite ?Hview];
     apply labelOf_Ok; exists l; fields; split; [done|];
     apply list_lookup_insert_eq; by eapply lookup_lt_Some).
Qed.

(** X8. When the two handlers of the audio indicators fail. An activity
    event ends in a fault in two cases only: the peer has no live label,
    or it has no timer, there is a net-camera view and the roster does
    not have the peer. A timeout ends in a fault when the peer has no
    live label, and only then. *)
Theorem audio_handlers_fault_iff f pk now :
  (peerAudioPlaying now pk f = Fault ↔
     labelOf f pk = Fault ∨
     (speaking f pk = false ∧ is_Some (netcam f) ∧
      QMap.find ToxPk_lt (peers f) pk = None)) ∧
  (audioTimeout pk f = Fault ↔ labelOf f pk = Fault).
Proof.
  destruct (labelOf f pk) as [o|] eqn:Hlab.
  - split.
    + destruct (speaking f pk) eqn:Hsp.
      * destruct (speaking_true f pk Hsp) as [t Ht].
        destruct (peerAudioPlaying_speaking f pk now o t Hlab Ht) as (f' & -> & _).
        split; [done|]. by intros [?|(? & _)].
      * rewrite (peerAudioPlaying_silent f pk now o Hlab Hsp).
        destruct (netcam f) as [view|], (QMap.find ToxPk_lt (peers f) pk) as [name|];
          split; try done.
        -- by intros [?|(_ & _ & ?)].
        -- by right.
        -- by intros [?|(_ & [] & _)].
        -- by intros [?|(_ & [] & _)].
    + destruct (audioTimeout_Ok f pk o Hlab) as (f' & -> & _). done.
  - destruct (no_label_faults f pk now Hlab) as [-> ->]. split; split; auto.
Qed.

(** X9. After [updateUserNames] the audio handlers serve the peers of
    the roster, and them only: an activity event or a timeout for a key
    ends in a fault exactly when the roster does not have the key. So the
    timer of a peer that has left, which [updateUserNames] keeps, fires
    into a fault. *)
Theorem audio_serves_the_roster f :
  QMap.wf ToxPk_lt (peers f) →
  ∃ f', updateUserNames f = Ok f' ∧ peerAudioTimers f' = peerAudioTimers f ∧
    ∀ pk now,
      (peerAudioPlaying now pk f' = Fault ↔
         QMap.find ToxPk_lt (peers f) pk = None) ∧
      (audioTimeout pk f' = Fault ↔ QMap.find ToxPk_lt (peers f) pk = None).
Proof.
  intros Hwf.
  destruct (updateUserNames_spec f Hwf) as (f' & Hf' & _ & Hps & _ & _ & Ht & Hk & _).
  exists f'. split; [done|]. split; [done|]. intros pk now.
  destruct (updateUserNames_store f f' Hwf Hf') as (_ & Hv & _ & _ & Hnew).
  destruct (QMap.find ToxPk_lt (peers f) pk) as [name|] eqn:Hname.
  - assert (Hlab : ∃ o, labelOf f' pk = Ok o).
    { destruct (QMap.find ToxPk_lt (peerLabels f') pk) as [p|] eqn:Hp.
      - pose proof (QMap_find_values _ _ _ _ Hp) as Hin. rewrite Hv in Hin.
        apply list_elem_of_fmap in Hin as (j & -> & Hj). apply elem_of_seq in Hj.
        destruct (lookup_lt_is_Some_2 (peers f) (j - length (labels f))) as [e He];
          [lia|].
        destruct (Hnew _ _ He) as (o & Ho & _).
        replace (length (labels f) + (j - length (labels f)))%nat with j in Ho by lia.
        exists o. apply labelOf_Ok. eauto.
      - apply (QMap_find_keys ToxPk_lt _ (peers f)) in Hp; [|done].
        by rewrite Hname in Hp. }
    destruct Hlab as [o Hlab]. split.
    + destruct (speaking f' pk) eqn:Hsp.
      * destruct (speaking_true f' pk Hsp) as [t Htm].
        by destruct (peerAudioPlaying_speaking f' pk now o t Hlab Htm) as (? & -> & _).
      * rewrite (peerAudioPlaying_silent f' pk now o Hlab Hsp), Hps, Hname.
        by destruct (netcam f').
    + by destruct (audioTimeout_Ok f' pk o Hlab) as (? & -> & _).
  - apply (QMap_find_keys ToxPk_lt _ (peerLabels f')) in Hname; [|done].
    assert (Hlab : labelOf f' pk = Fault) by (unfold labelOf; by rewrite Hname).
    by destruct (no_label_faults f' pk now Hlab) as [-> ->].
Qed.
End audio_claims.

Section burst.
Context `{Collaborators}.
Implicit Types f g : GroupChatForm.

Lemma only_find f f0 pk v :
  only pk v f f0 → QMap.find ToxPk_lt (peerAudioTimers f) pk = Some v.
Proof. intros ->. apply (QMap_find_insert _ ToxPk_lt_irrefl). Qed.

Lemma only_again f f' f0 pk v v' :
  only pk v f f0 →
  peerAudioTimers f' = QMap.insert ToxPk_lt pk v' (peerAudioTimers f) →
  only pk v' f' f0.
Proof.
  unfold only. intros -> ->. apply (QMap_insert_insert _ ToxPk_lt_irrefl).
Qed.

Lemma only_idle f f0 pk : idle f0 → only pk None f f0 → idle f.
Proof. unfold idle, only. intros Hidle ->. by apply QMap_insert_null. Qed.

End burst.

Section bursts.
Context `{Collaborators} `{!BaseForm}.
Implicit Types f g : GroupChatForm.

Lemma shownSpeaking_Ok f pk o :
  labelOf f pk = Ok o → shownSpeaking f pk = QString_eqb (styleSheet o) red.
Proof. unfold shownSpeaking. by intros ->. Qed.

Lemma shownSpeaking_red f pk o t :
  labelOf f pk = Ok (setStyleSheet t o) →
  shownSpeaking f pk = QString_eqb t red.
Proof. intros Hlab. by rewrite (shownSpeaking_Ok _ _ _ Hlab). Qed.

Lemma not_red (o : QLabel) :
  styleSheet o ≠ red → QString_eqb (styleSheet o) red = false.
Proof.
  intros Hne. destruct (QString_eqb _ _) eqn:Heq; [|done].
  by apply QString_eqb_eq in Heq.
Qed.

(** The events of a burst that follow the first one, and the timeout
    after the last. *)
Lemma run_burst f0 pk ts : ∀ f t0 timer o tr tEnd,
  idle f0 → only pk (Some timer) f f0 → deadline timer = Some (t0 + 500)%Z →
  labelOf f pk = Ok (setStyleSheet red o) →
  (∀ i a b, (t0 :: ts) !! i = Some a → (t0 :: ts) !! S i = Some b →
     (a ≤ b < a + 500)%Z) →
  (default t0 (last ts) + 500 ≤ tEnd)%Z →
  ∃ f' tr',
    run ((λ t, (t, AudioPlaying pk)) <$> ts) tEnd f tr = Ok (f', tr ++ tr') ∧
    transitions pk f tr' = [((default t0 (last ts) + 500)%Z, false)] ∧
    shownTransitions pk f tr' = [((default t0 (last ts) + 500)%Z, false)] ∧
    only pk None f' f0 ∧ labelOf f' pk = Ok (setStyleSheet [] o).
Proof.
  induction ts as [|t1 ts IH]; intros f t0 timer o tr tEnd Hidle Honly Hd Hlab Hgap Hend.
  - simpl in *.
    destruct (fire_speaking f pk (t0 + 500) _ timer Hlab (only_find _ _ _ _ Honly))
      as (f' & Hf' & Ht' & Hl' & _).
    pose proof (only_again _ _ _ _ _ _ Honly Ht') as Honly'.
    exists f', [((t0 + 500)%Z, f')].
    rewrite (advance_due f f0 pk timer (t0 + 500) tEnd tr Hidle Honly Hd Hend), Hf'.
    split; [done|]. unfold transitions, shownTransitions. cbn [changes].
    rewrite (speaking_only _ _ _ _ Honly), (speaking_only _ _ _ _ Honly').
    rewrite (shownSpeaking_red _ _ _ _ Hlab), (shownSpeaking_red _ _ _ _ Hl').
    done.
  - assert (Ht1 : (t0 ≤ t1 < t0 + 500)%Z) by (by apply (Hgap 0%nat)).
    destruct (peerAudioPlaying_speaking f pk t1 _ timer Hlab (only_find _ _ _ _ Honly))
      as (f1 & Hf1 & Htm1 & Hl1 & _).
    pose proof (only_again _ _ _ _ _ _ Honly Htm1) as Honly1.
    destruct (IH f1 t1 (start t1 500 timer) o
                (tr ++ [(t1, f1)]) tEnd Hidle Honly1 eq_refl Hl1)
      as (f' & tr' & Hrun & Htr & Hshown & Honly' & Hl').
    { intros i a b. apply (Hgap (S i)). }
    { rewrite last_cons in Hend. by destruct (last ts). }
    exists f', ((t1, f1) :: tr'). rewrite fmap_cons. cbn [run handle].
    rewrite (advance_not_due f f0 pk timer (t0 + 500) t1 tr Hidle Honly Hd) by lia.
    fields. rewrite Hf1. fields. rewrite Hrun, <- app_assoc.
    split; [done|]. unfold transitions, shownTransitions in *. cbn [changes].
    rewrite (speaking_only _ _ _ _ Honly), (speaking_only _ _ _ _ Honly1).
    rewrite (shownSpeaking_red _ _ _ _ Hlab), (shownSpeaking_red _ _ _ _ Hl1).
    rewrite !decide_True by done. rewrite Htr, Hshown, last_cons.
    by destruct (last ts).
Qed.

(** X10. A burst of activity is one interval of speaking. Activity events
    for a peer at [t1] and at any number of later times, each less than
    500 ms after the one before, in a state where nobody has a timer and
    the label of the peer is not red: the peer gets its timer once, at
    [t1], and loses it once, 500 ms after the last event, and its label
    turns red at the one time and stops being red at the other. Then
    nobody has a timer again, and the style sheet of the peer's label is
    empty, whatever it was before. *)
Theorem burst_is_one_interval f pk o t1 ts tEnd :
  labelOf f pk = Ok o → styleSheet o ≠ red → idle f →
  netcam f = None ∨ is_Some (QMap.find ToxPk_lt (peers f) pk) →
  (∀ i a b, (t1 :: ts) !! i = Some a → (t1 :: ts) !! S i = Some b →
     (a ≤ b < a + 500)%Z) →
  (default t1 (last ts) + 500 ≤ tEnd)%Z →
  ∃ f' tr,
    run ((λ t, (t, AudioPlaying pk)) <$> t1 :: ts) tEnd f [] = Ok (f', tr) ∧
    transitions pk f tr =
      [(t1, true); ((default t1 (last ts) + 500)%Z, false)] ∧
    shownTransitions pk f tr =
      [(t1, true); ((default t1 (last ts) + 500)%Z, false)] ∧
    idle f' ∧ labelOf f' pk = Ok (setStyleSheet [] o).
Proof.
  intros Hlab Hred Hidle Hcam Hgap Hend.
  destruct (peerAudioPlaying_idle f pk t1 o Hlab Hidle Hcam)
    as (f1 & Hf1 & Ht1 & Hl1 & _).
  fold (only pk (Some {| singleShot := true; deadline := Some (t1 + 500)%Z |}) f1 f)
    in Ht1.
  destruct (run_burst f pk ts f1 t1 _ _ [(t1, f1)] tEnd Hidle Ht1 eq_refl Hl1 Hgap Hend)
    as (f' & tr' & Hrun & Htr & Hshown & Honly & Hl').
  exists f', ((t1, f1) :: tr'). rewrite fmap_cons. cbn [run handle].
  rewrite (advance_idle f t1 [] Hidle). fields. rewrite Hf1. fields.
  split; [done|].
  unfold transitions, shownTransitions in *. cbn [changes].
  rewrite (speaking_idle f pk Hidle), (speaking_only _ _ _ _ Ht1).
  rewrite (shownSpeaking_Ok _ _ _ Hlab), (shownSpeaking_red _ _ _ _ Hl1).
  rewrite (not_red _ Hred), Htr, Hshown.
  split; [done|]. split; [done|]. split; [by eapply only_idle|done].
Qed.

(** X11. Two activity events more than 500 ms apart are two intervals of
    speaking, in a state where nobody has a timer and the label of the
    peer is not red: the timer of the first event fires before the second
    event, which finds the peer without a timer and starts again. The
    label is red from each event to the timeout that follows it, and
    nobody has a timer at the end. *)
Theorem pause_is_two_intervals f pk o t1 t2 tEnd :
  labelOf f pk = Ok o → styleSheet o ≠ red → idle f →
  is_Some (QMap.find ToxPk_lt (peers f) pk) →
  (t1 + 500 < t2)%Z → (t2 + 500 ≤ tEnd)%Z →
  ∃ f' tr,
    run [(t1, AudioPlaying pk); (t2, AudioPlaying pk)] tEnd f [] = Ok (f', tr) ∧
    transitions pk f tr =
      [(t1, true); ((t1 + 500)%Z, false); (t2, true); ((t2 + 500)%Z, false)] ∧
    shownTransitions pk f tr =
      [(t1, true); ((t1 + 500)%Z, false); (t2, true); ((t2 + 500)%Z, false)] ∧
    idle f'.
Proof.
  intros Hlab Hred Hidle Hcam Hgap Hend.
  destruct (peerAudioPlaying_idle f pk t1 o Hlab Hidle (or_intror Hcam))
    as (f1 & Hf1 & Ht1 & Hl1 & Hp1 & _).
  fold (only pk (Some {| singleShot := true; deadline := Some (t1 + 500)%Z |}) f1 f)
    in Ht1.
  destruct (fire_speaking f1 pk (t1 + 500) _ _ Hl1 (only_find _ _ _ _ Ht1))
    as (f2 & Hf2 & Ht2 & Hl2 & Hp2).
  pose proof (only_again _ _ _ _ _ _ Ht1 Ht2) as Honly2.
  pose proof (only_idle _ _ _ Hidle Honly2) as Hidle2.
  destruct (peerAudioPlaying_idle f2 pk t2 _ Hl2 Hidle2) as (f3 & Hf3 & Ht3 & Hl3 & _).
  { right. by rewrite Hp2, Hp1. }
  fold (only pk (Some {| singleShot := true; deadline := Some (t2 + 500)%Z |}) f3 f2)
    in Ht3.
  destruct (fire_speaking f3 pk (t2 + 500) _ _ Hl3 (only_find _ _ _ _ Ht3))
    as (f4 & Hf4 & Ht4 & Hl4 & _).
  pose proof (only_again _ _ _ _ _ _ Ht3 Ht4) as Honly4.
  exists f4, [(t1, f1); ((t1 + 500)%Z, f2); (t2, f3); ((t2 + 500)%Z, f4)].
  split; [|split; [|split; [|by eapply only_idle]]].
  - cbn [run handle]. rewrite (advance_idle f t1 [] Hidle). fields.
    rewrite Hf1. fields.
    rewrite (advance_due f1 f pk _ (t1 + 500) t2 _ Hidle Ht1 eq_refl) by lia.
    rewrite Hf2. fields. rewrite Hf3. fields.
    rewrite (advance_due f3 f2 pk _ (t2 + 500) tEnd _ Hidle2 Ht3 eq_refl) by lia.
    by rewrite Hf4.
  - unfold transitions. cbn [changes].
    rewrite (speaking_idle f pk Hidle), (speaking_only _ _ _ _ Ht1),
      (speaking_only _ _ _ _ Honly2), (speaking_only _ _ _ _ Ht3),
      (speaking_only _ _ _ _ Honly4).
    reflexivity.
  - unfold shownTransitions. cbn [changes].
    rewrite (shownSpeaking_Ok _ _ _ Hlab), (shownSpeaking_red _ _ _ _ Hl1),
      (shownSpeaking_red _ _ _ _ Hl2), (shownSpeaking_red _ _ _ _ Hl3),
      (shownSpeaking_red _ _ _ _ Hl4), (not_red _ Hred).
    reflexivity.
Qed.
End bursts.

(** ** Maps whose keys are in a total order *)

Section QMap_order.
Context {K V : Type} (lt : K → K → bool).
Hypothesis lt_irrefl : ∀ k, lt k k = false.
Hypothesis lt_trans : ∀ a b c, lt a b = true → lt b c = true → lt a c = true.
Hypothesis lt_total : ∀ a b, lt a b = false → lt b a = false → a = b.
Implicit Types m : QMap K V.

Lemma lt_asym a b : lt a b = true → lt b a = false.
Proof.
  intros Hab. destruct (lt b a) eqn:Hba; [|done].
  by rewrite <- (lt_irrefl a), (lt_trans a b a).
Qed.

Lemma QMap_find_insert_ne k k' v m :
  k ≠ k' → QMap.find lt (QMap.insert lt k v m) k' = QMap.find lt m k'.
Proof.
  intros Hne. induction m as [|[k1 v1] m IH]; simpl.
  - destruct (lt k k') eqn:Hkk'; [done|].
    destruct (lt k' k) eqn:Hk'k; [done|]. exfalso. apply Hne. by apply lt_total.
  - destruct (lt k1 k) eqn:H1; simpl.
    { destruct (lt k1 k'); [apply IH|done]. }
    destruct (lt k k1) eqn:H2; simpl.
    + destruct (lt k k') eqn:Hkk'; [done|].
      destruct (lt k' k) eqn:Hk'k; [|exfalso; apply Hne; by apply lt_total].
      assert (Hk'1 : lt k' k1 = true) by (by eapply lt_trans).
      by rewrite (lt_asym k' k1), Hk'1.
    + assert (k1 = k) as -> by (by apply lt_total).
      destruct (lt k k') eqn:Hkk'; [done|].
      destruct (lt k' k) eqn:Hk'k; [done|]. exfalso. apply Hne. by apply lt_total.
Qed.

Lemma QMap_keys_insert_Forall (P : K → Prop) k v m :
  P k → Forall P (QMap.keys m) → Forall P (QMap.keys (QMap.insert lt k v m)).
Proof.
  unfold QMap.keys. intros Hk. induction m as [|[k1 v1] m IH]; simpl.
  - by repeat constructor.
  - intros [H1 Hm]%Forall_cons. destruct (lt k1 k); simpl.
    + constructor; auto.
    + destruct (lt k k1); simpl; repeat constructor; auto.
Qed.

Lemma QMap_wf_insert k v m :
  QMap.wf lt m → QMap.wf lt (QMap.insert lt k v m).
Proof.
  unfold QMap.wf. induction m as [|[k1 v1] m IH]; simpl.
  - intros _. repeat constructor.
  - intros [Hm Hall]%StronglySorted_inv. destruct (lt k1 k) eqn:H1.
    + change (StronglySorted (λ a b, lt a b = true)
                (k1 :: QMap.keys (QMap.insert lt k v m))).
      constructor; [by apply IH|]. by apply QMap_keys_insert_Forall.
    + destruct (lt k k1) eqn:H2.
      * change (StronglySorted (λ a b, lt a b = true)
                  (k :: k1 :: QMap.keys m)).
        constructor; [by constructor|]. constructor; [done|].
        eapply Forall_impl; [exact Hall|]. intros x Hx. by eapply lt_trans.
      * assert (k1 = k) as -> by (by apply lt_total). by constructor.
Qed.

Lemma QMap_find_elem k v m :
  QMap.find lt m k = Some v → (k, v) ∈ m.
Proof.
  induction m as [|[k1 v1] m IH]; simpl; [done|].
  destruct (lt k1 k) eqn:H1; [by right; apply IH|].
  destruct (lt k k1) eqn:H2; [done|]. intros [= ->].
  assert (k1 = k) as -> by (by apply lt_total). left.
Qed.
End QMap_order.

(** ** What a run shows of a peer *)

Lemma changes_shows {S V A} `{EqDecision A} (view : S → V) (h : V → A)
    (s : S) (tr : list (Z * S)) (kv : list (Z * V)) :
  shows view (view s) tr kv →
  changes (λ x, h (view x)) s tr = changes h (view s) kv.
Proof.
  intros Hshows. remember (view s) as v eqn:Hv. revert s Hv.
  induction Hshows as [v|v t s0 tr kv Hs0 _ IH|v t s0 tr kv _ IH];
    intros s ->; simpl.
  - done.
  - rewrite Hs0, decide_True by done. by apply IH.
  - rewrite (IH s0 eq_refl). by destruct (decide _).
Qed.

Lemma shows_frames {S V} (view : S → V) (v : V) (A rest : list (Z * S))
    (kv : list (Z * V)) :
  Forall (λ r, view r.2 = v) A → shows view v rest kv →
  shows view v (A ++ rest) kv.
Proof.
  intros HA Hrest. induction HA as [|[t s] A Hs _ IH]; simpl; [done|].
  by apply shows_same.
Qed.

Lemma shows_frames_nil {S V} (view : S → V) (v : V) (A : list (Z * S)) :
  Forall (λ r, view r.2 = v) A → shows view v A [].
Proof.
  intros HA. rewrite <- (app_nil_r A). apply shows_frames; [done|constructor].
Qed.

Section due.
Context `{Collaborators}.
Implicit Types f g : GroupChatForm.

Lemma byDeadline_Permutation (x : Z * ToxPk) (l : list (Z * ToxPk)) :
  byDeadline x l ≡ₚ x :: l.
Proof.
  induction l as [|y l IH]; [done|]. simpl.
  destruct (x.1 <? y.1)%Z; [done|]. by rewrite IH, Permutation_swap.
Qed.

Lemma due_Permutation (l : list (Z * ToxPk)) : foldr byDeadline [] l ≡ₚ l.
Proof.
  induction l as [|x l IH]; [done|]. simpl.
  by rewrite byDeadline_Permutation, IH.
Qed.

(** A timer that is due is the timer of its peer. *)
Lemma dueTimers_elem t g d pk :
  QMap.wf ToxPk_lt (peerAudioTimers g) → (d, pk) ∈ dueTimers t g →
  ∃ timer, QMap.find ToxPk_lt (peerAudioTimers g) pk = Some (Some timer) ∧
           deadline timer = Some d ∧ (d ≤ t)%Z.
Proof.
  intros Hwf Hin. unfold dueTimers in Hin.
  apply list_elem_of_omap in Hin as ([k [timer|]] & Hk & Hdue); [|done].
  simpl in Hdue. destruct (deadline timer) as [d'|] eqn:Hd; [|done].
  destruct (Z.leb_spec d' t); [|done]. injection Hdue as <- <-.
  exists timer. split; [|done].
  by apply (QMap_find_elem_of _ ToxPk_lt_irrefl).
Qed.
End due.

(** ** The debounce, among the timers of other peers *)

Section debounce_general.
Context `{Collaborators} `{!BaseForm}.

(** [operator<] of the keys is a strict total order, as [QMap] needs of
    its keys. *)
Hypothesis lt_trans :
  ∀ a b c, ToxPk_lt a b = true → ToxPk_lt b c = true → ToxPk_lt a c = true.
Hypothesis lt_total :
  ∀ a b, ToxPk_lt a b = false → ToxPk_lt b a = false → a = b.
Implicit Types f g : GroupChatForm.

Lemma ToxPk_eq_dec (a b : ToxPk) : a = b ∨ a ≠ b.
Proof.
  destruct (ToxPk_eqb a b) eqn:Heq.
  - left. by apply ToxPk_eqb_eq.
  - right. intros Hab. apply ToxPk_eqb_eq in Hab. congruence.
Qed.

(** The timer of a peer that has a live label fires. *)
Lemma fire_fields g d pk timer l o :
  QMap.find ToxPk_lt (peerAudioTimers g) pk = Some (Some timer) →
  QMap.find ToxPk_lt (peerLabels g) pk = Some (Some l) →
  labels g !! l = Some (Some o) →
  ∃ g', fire d pk g = Ok g' ∧
    peers g' = peers g ∧ peerLabels g' = peerLabels g ∧
    labels g' = <[l := Some (setStyleSheet [] o)]> (labels g) ∧
    peerAudioTimers g' = QMap.insert ToxPk_lt pk None (peerAudioTimers g) ∧
    netcam g' = removePeer pk <$> netcam g.
Proof.
  intros Ht Hfind Hl. unfold fire. rewrite Ht. unfold audioTimeout. fields.
  destruct (netcam g) as [view|] eqn:Hview; fields;
    (rewrite (QMap_index_found _ _ _ _ _ Hfind); fields;
     rewrite (through_Ok _ _ _ _ Hl); fields;
     rewrite (QMap_insert_insert _ ToxPk_lt_irrefl);
     eexists; split; [done|]; by rewrite ?Hview).
Qed.

(** An activity event for a peer that has a live label. *)
Lemma peerAudioPlaying_fields g now pk l o :
  QMap.find ToxPk_lt (peerLabels g) pk = Some (Some l) →
  labels g !! l = Some (Some o) →
  speaking g pk = true ∨ netcam g = None ∨
    is_Some (QMap.find ToxPk_lt (peers g) pk) →
  ∃ g', peerAudioPlaying now pk g = Ok g' ∧
    peers g' = peers g ∧ peerLabels g' = peerLabels g ∧
    labels g' = <[l := Some (setStyleSheet red o)]> (labels g) ∧
    peerAudioTimers g' =
      QMap.insert ToxPk_lt pk
        (Some match QMap.find ToxPk_lt (peerAudioTimers g) pk with
              | Some (Some t) => start now 500 t
              | _ => {| singleShot := true; deadline := Some (now + 500)%Z |}
              end)
        (peerAudioTimers g) ∧
    (netcam g = None → netcam g' = None).
Proof.
  intros Hfind Hl Hcond.
  assert (Hlab : labelOf g pk = Ok o) by (apply labelOf_Ok; eauto).
  destruct (speaking g pk) eqn:Hsp.
  - destruct (speaking_true g pk Hsp) as [t Ht]. rewrite Ht.
    unfold peerAudioPlaying.
    rewrite (QMap_index_found _ _ _ _ _ Hfind). fields.
    rewrite (through_Ok _ _ _ _ Hl). fields.
    rewrite (QMap_index_found _ _ _ _ _ Ht). fields.
    rewrite (QMap_index_found _ _ _ _ _ Ht).
    eexists. split; [done|]. by repeat split.
  - rewrite (peerAudioPlaying_silent g pk now o Hlab Hsp), Hfind.
    assert (Htimer : match QMap.find ToxPk_lt (peerAudioTimers g) pk with
                     | Some (Some t) => start now 500 t
                     | _ => {| singleShot := true; deadline := Some (now + 500)%Z |}
                     end = {| singleShot := true; deadline := Some (now + 500)%Z |})
      by (by destruct (speaking_false g pk Hsp) as [-> | ->]).
    rewrite Htimer.
    destruct Hcond as [?|[Hcam|[name Hname]]]; [done|..].
    + rewrite Hcam. eexists. split; [done|]. by repeat split.
    + rewrite Hname. destruct (netcam g) as [view|];
        (eexists; split; [done|]; by repeat split).
Qed.

Section one_peer.
Variable pk : ToxPk.

(** What a handler does to another peer leaves the view of [pk]. *)
Lemma audioView_frame g g' k v l x :
  peerLabels g' = peerLabels g →
  peerAudioTimers g' = QMap.insert ToxPk_lt k v (peerAudioTimers g) →
  labels g' = <[l := x]> (labels g) →
  k ≠ pk → QMap.find ToxPk_lt (peerLabels g) pk ≠ Some (Some l) →
  audioView pk g' = audioView pk g.
Proof.
  intros Hpl Ht Hlab Hk Hl. unfold audioView, labelOf. rewrite Hpl, Ht, Hlab.
  rewrite (QMap_find_insert_ne _ ToxPk_lt_irrefl lt_trans lt_total) by done.
  f_equal. destruct (QMap.find ToxPk_lt (peerLabels g) pk) as [[l'|]|]; try done.
  simpl. rewrite list_lookup_insert_ne; [done|]. intros ->. by apply Hl.
Qed.

(** The peers that are heard keep their labels when a label is
    restyled and a timer is deleted, or the timer of [pk] is set. *)
Lemma heard_have_labels_update g g' k v l o :
  heard_have_labels pk g →
  peerLabels g' = peerLabels g →
  peerAudioTimers g' = QMap.insert ToxPk_lt k v (peerAudioTimers g) →
  labels g' = <[l := Some o]> (labels g) → (l < length (labels g))%nat →
  (k ≠ pk → v = None) →
  heard_have_labels pk g'.
Proof.
  intros Hh Hpl Ht Hlab Hlen Hv pk' t Hfind Hne.
  rewrite Ht in Hfind. destruct (ToxPk_eq_dec k pk') as [->|Hk].
  - rewrite (QMap_find_insert _ ToxPk_lt_irrefl) in Hfind.
    by rewrite Hv in Hfind.
  - rewrite (QMap_find_insert_ne _ ToxPk_lt_irrefl lt_trans lt_total) in Hfind
      by done.
    destruct (Hh pk' t Hfind Hne) as (l' & o' & Hl' & Ho' & Hpk).
    rewrite Hpl, Hlab. destruct (decide (l = l')) as [->|Hll'].
    + exists l', o. by rewrite list_lookup_insert_eq.
    + exists l', o'. by rewrite list_lookup_insert_ne.
Qed.

(** The timer of another peer fires, or the timer that is due is no
    more. *)
Lemma fire_frame g d pk1 :
  QMap.wf ToxPk_lt (peerAudioTimers g) → heard_have_labels pk g →
  (pk1 = pk → speaking g pk = false) →
  ∃ g', fire d pk1 g = Ok g' ∧
    QMap.wf ToxPk_lt (peerAudioTimers g') ∧ heard_have_labels pk g' ∧
    audioView pk g' = audioView pk g ∧ peers g' = peers g ∧
    (netcam g = None → netcam g' = None).
Proof.
  intros Hwf Hh Hpk.
  destruct (QMap.find ToxPk_lt (peerAudioTimers g) pk1) as [[timer|]|] eqn:Ht;
    [|by exists g; unfold fire; rewrite Ht..].
  assert (Hne : pk1 ≠ pk).
  { intros ->. specialize (Hpk eq_refl). unfold speaking in Hpk.
    by rewrite Ht in Hpk. }
  destruct (Hh pk1 timer Ht Hne) as (l1 & o1 & Hl1 & Ho1 & Hl).
  destruct (fire_fields g d pk1 timer l1 o1 Ht Hl1 Ho1)
    as (g' & Hg' & Hps & Hpl & Hlab & Htm & Hcam).
  exists g'. split; [done|]. split; [|split; [|split; [|split; [done|]]]].
  - rewrite Htm. by apply (QMap_wf_insert _ lt_trans lt_total).
  - eapply heard_have_labels_update; try done. by eapply lookup_lt_Some.
  - by eapply audioView_frame.
  - intros Hnone. by rewrite Hcam, Hnone.
Qed.

(** The timer of [pk] fires. *)
Lemma fire_self g d timer o :
  QMap.wf ToxPk_lt (peerAudioTimers g) → heard_have_labels pk g →
  QMap.find ToxPk_lt (peerAudioTimers g) pk = Some (Some timer) →
  labelOf g pk = Ok o →
  ∃ g', fire d pk g = Ok g' ∧
    QMap.wf ToxPk_lt (peerAudioTimers g') ∧ heard_have_labels pk g' ∧
    audioView pk g' = (Ok (setStyleSheet [] o), Some None) ∧
    peers g' = peers g ∧ (netcam g = None → netcam g' = None).
Proof.
  intros Hwf Hh Ht (l & Hfind & Hl)%labelOf_Ok.
  destruct (fire_fields g d pk timer l o Ht Hfind Hl)
    as (g' & Hg' & Hps & Hpl & Hlab & Htm & Hcam).
  exists g'. split; [done|]. split; [|split; [|split; [|split; [done|]]]].
  - rewrite Htm. by apply (QMap_wf_insert _ lt_trans lt_total).
  - eapply heard_have_labels_update; try done. by eapply lookup_lt_Some.
  - unfold audioView, labelOf.
    rewrite Hpl, Hfind, Htm, Hlab, (QMap_find_insert _ ToxPk_lt_irrefl).
    simpl. rewrite list_lookup_insert_eq; [done|]. by eapply lookup_lt_Some.
  - intros Hnone. by rewrite Hcam, Hnone.
Qed.

(** An activity event for [pk]. *)
Lemma event_self g now o :
  QMap.wf ToxPk_lt (peerAudioTimers g) → heard_have_labels pk g →
  labelOf g pk = Ok o →
  speaking g pk = true ∨ netcam g = None ∨
    is_Some (QMap.find ToxPk_lt (peers g) pk) →
  ∃ g', peerAudioPlaying now pk g = Ok g' ∧
    QMap.wf ToxPk_lt (peerAudioTimers g') ∧ heard_have_labels pk g' ∧
    audioView pk g' =
      (Ok (setStyleSheet red o),
       Some (Some match QMap.find ToxPk_lt (peerAudioTimers g) pk with
                  | Some (Some t) => start now 500 t
                  | _ => {| singleShot := true;
                            deadline := Some (now + 500)%Z |}
                  end)) ∧
    peers g' = peers g ∧ (netcam g = None → netcam g' = None).
Proof.
  intros Hwf Hh (l & Hfind & Hl)%labelOf_Ok Hcond.
  destruct (peerAudioPlaying_fields g now pk l o Hfind Hl Hcond)
    as (g' & Hg' & Hps & Hpl & Hlab & Htm & Hcam).
  exists g'. split; [done|]. split; [|split; [|split; [|done]]].
  - rewrite Htm. by apply (QMap_wf_insert _ lt_trans lt_total).
  - eapply heard_have_labels_update; try done. by eapply lookup_lt_Some.
  - unfold audioView, labelOf.
    rewrite Hpl, Hfind, Htm, Hlab, (QMap_find_insert _ ToxPk_lt_irrefl).
    simpl. rewrite list_lookup_insert_eq; [done|]. by eapply lookup_lt_Some.
Qed.

Lemma speaking_audioView g g' :
  audioView pk g' = audioView pk g → speaking g' pk = speaking g pk.
Proof. unfold audioView, speaking. by intros [= _ ->]. Qed.

(** The timers that are due fire, none of them the timer of [pk]. *)
Lemma fireAll_frame due : ∀ g tr,
  QMap.wf ToxPk_lt (peerAudioTimers g) → heard_have_labels pk g →
  (pk ∈ due.*2 → speaking g pk = false) →
  ∃ g' tr', fireAll due g tr = Ok (g', tr ++ tr') ∧
    QMap.wf ToxPk_lt (peerAudioTimers g') ∧ heard_have_labels pk g' ∧
    audioView pk g' = audioView pk g ∧
    Forall (λ r, audioView pk r.2 = audioView pk g) tr' ∧
    peers g' = peers g ∧ (netcam g = None → netcam g' = None).
Proof.
  induction due as [|[d pk1] due IH]; intros g tr Hwf Hh Hpk; simpl.
  { exists g, []. rewrite app_nil_r. by repeat split. }
  destruct (fire_frame g d pk1 Hwf Hh) as (g1 & Hg1 & Hwf1 & Hh1 & Hv1 & Hp1 & Hc1).
  { intros ->. apply Hpk. simpl. left. }
  rewrite Hg1. simpl.
  destruct (IH g1 (tr ++ [(d, g1)]) Hwf1 Hh1)
    as (g' & tr' & Hg' & Hwf' & Hh' & Hv' & Htr' & Hp' & Hc').
  { intros Hin. rewrite (speaking_audioView _ _ Hv1). apply Hpk. simpl. by right. }
  exists g', ((d, g1) :: tr'). rewrite Hg', <- app_assoc.
  split; [done|]. split; [done|]. split; [done|].
  split; [by rewrite Hv'|]. split; [|split; [by rewrite Hp'|auto]].
  constructor; [done|]. eapply Forall_impl; [exact Htr'|].
  intros r Hr. simpl in *. by rewrite Hr.
Qed.

(** The timers that are due fire, the timer of [pk] among them. *)
Lemma fireAll_due due D timer o : ∀ g tr,
  QMap.wf ToxPk_lt (peerAudioTimers g) → heard_have_labels pk g →
  QMap.find ToxPk_lt (peerAudioTimers g) pk = Some (Some timer) →
  labelOf g pk = Ok o →
  (∀ d, (d, pk) ∈ due → d = D) → pk ∈ due.*2 →
  ∃ g' tr',
    fireAll due g tr = Ok (g', tr ++ tr') ∧
    shows (audioView pk) (audioView pk g) tr'
      [(D, (Ok (setStyleSheet [] o), Some None))] ∧
    peers g' = peers g.
Proof.
  induction due as [|[d pk1] due IH]; intros g tr Hwf Hh Ht Hlab HD Hin; simpl.
  { by apply elem_of_nil in Hin. }
  destruct (ToxPk_eq_dec pk1 pk) as [->|Hne].
  - assert (d = D) as -> by (apply HD; left).
    destruct (fire_self g D timer o Hwf Hh Ht Hlab)
      as (g1 & Hg1 & Hwf1 & Hh1 & Hv1 & Hp1 & _).
    rewrite Hg1. simpl.
    destruct (fireAll_frame due g1 (tr ++ [(D, g1)]) Hwf1 Hh1)
      as (g' & tr' & Hg' & _ & _ & _ & Htr' & Hp' & _).
    { intros _. unfold speaking.
      by replace (QMap.find ToxPk_lt (peerAudioTimers g1) pk) with
        (audioView pk g1).2; [rewrite Hv1|]. }
    exists g', ((D, g1) :: tr'). rewrite Hg', <- app_assoc.
    split; [done|]. split; [|by rewrite Hp'].
    rewrite <- Hv1. apply shows_change. by apply shows_frames_nil.
  - destruct (fire_frame g d pk1 Hwf Hh) as (g1 & Hg1 & Hwf1 & Hh1 & Hv1 & Hp1 & _);
      [done|].
    rewrite Hg1. simpl.
    assert (Hv1' := Hv1). unfold audioView in Hv1'. injection Hv1' as Hl1 Ht1.
    destruct (IH g1 (tr ++ [(d, g1)]) Hwf1 Hh1) as (g' & tr' & Hg' & Htr' & Hp').
    + by rewrite Ht1.
    + by rewrite Hl1.
    + intros d' Hd'. apply HD. by right.
    + simpl in Hin. apply elem_of_cons in Hin as [?|?]; [congruence|done].
    + exists g', ((d, g1) :: tr'). rewrite Hg', <- app_assoc.
      split; [done|]. split; [|by rewrite Hp'].
      apply shows_same; [done|]. by rewrite <- Hv1.
Qed.

Lemma pending_audioView g g' :
  audioView pk g' = audioView pk g → pending g' pk = pending g pk.
Proof. unfold audioView, pending. by intros [= _ ->]. Qed.

Lemma labelOf_audioView g g' :
  audioView pk g' = audioView pk g → labelOf g' pk = labelOf g pk.
Proof. unfold audioView. by intros [= -> _]. Qed.

Lemma find_audioView g g' :
  audioView pk g' = audioView pk g →
  QMap.find ToxPk_lt (peerAudioTimers g') pk =
  QMap.find ToxPk_lt (peerAudioTimers g) pk.
Proof. unfold audioView. by intros [= _ ->]. Qed.

(** The clock runs on to a time at which the timer of [pk] is not due. *)
Lemma advance_frame g t tr :
  QMap.wf ToxPk_lt (peerAudioTimers g) → heard_have_labels pk g →
  (∀ d, pending g pk = Some d → (t < d)%Z) →
  ∃ g' tr', advance t g tr = Ok (g', tr ++ tr') ∧
    QMap.wf ToxPk_lt (peerAudioTimers g') ∧ heard_have_labels pk g' ∧
    audioView pk g' = audioView pk g ∧
    Forall (λ r, audioView pk r.2 = audioView pk g) tr' ∧
    peers g' = peers g ∧ (netcam g = None → netcam g' = None).
Proof.
  intros Hwf Hh Hpending. unfold advance. apply fireAll_frame; try done.
  intros ([d pk'] & -> & Hin)%list_elem_of_fmap. simpl in *.
  rewrite due_Permutation in Hin.
  destruct (dueTimers_elem t g d pk' Hwf Hin) as (timer & Ht & Hd & Hle).
  assert (t < d)%Z; [|lia]. apply Hpending. unfold pending. by rewrite Ht.
Qed.

(** The clock runs on to a time at which the timer of [pk] is due. *)
Lemma advance_self g t tr timer D o :
  QMap.wf ToxPk_lt (peerAudioTimers g) → heard_have_labels pk g →
  QMap.find ToxPk_lt (peerAudioTimers g) pk = Some (Some timer) →
  deadline timer = Some D → (D ≤ t)%Z → labelOf g pk = Ok o →
  ∃ g' tr',
    advance t g tr = Ok (g', tr ++ tr') ∧
    shows (audioView pk) (audioView pk g) tr'
      [(D, (Ok (setStyleSheet [] o), Some None))] ∧
    peers g' = peers g.
Proof.
  intros Hwf Hh Ht Hd Hle Hlab. unfold advance.
  apply (fireAll_due _ D timer o); try done.
  - intros d Hin. rewrite due_Permutation in Hin.
    destruct (dueTimers_elem t g d pk Hwf Hin) as (timer' & Ht' & Hd' & _).
    congruence.
  - apply list_elem_of_fmap. exists (D, pk). split; [done|].
    rewrite due_Permutation. unfold dueTimers. apply list_elem_of_omap.
    exists (pk, Some timer). split.
    + by apply (QMap_find_elem _ lt_total).
    + simpl. rewrite Hd. by destruct (Z.leb_spec D t); [|lia].
Qed.

(** An activity event for [pk] arrives, after the timers that are due by
    then, none of them the timer of [pk]. *)
Lemma run_event g now evs tEnd tr o :
  QMap.wf ToxPk_lt (peerAudioTimers g) → heard_have_labels pk g →
  labelOf g pk = Ok o →
  speaking g pk = true ∨ netcam g = None ∨
    is_Some (QMap.find ToxPk_lt (peers g) pk) →
  (∀ d, pending g pk = Some d → (now < d)%Z) →
  ∃ g1 A,
    run ((now, AudioPlaying pk) :: evs) tEnd g tr =
      run evs tEnd g1 (tr ++ A ++ [(now, g1)]) ∧
    Forall (λ r, audioView pk r.2 = audioView pk g) A ∧
    QMap.wf ToxPk_lt (peerAudioTimers g1) ∧ heard_have_labels pk g1 ∧
    audioView pk g1 =
      (Ok (setStyleSheet red o),
       Some (Some match QMap.find ToxPk_lt (peerAudioTimers g) pk with
                  | Some (Some t) => start now 500 t
                  | _ => {| singleShot := true;
                            deadline := Some (now + 500)%Z |}
                  end)) ∧
    peers g1 = peers g ∧ (netcam g = None → netcam g1 = None).
Proof.
  intros Hwf Hh Hlab Hcond Hpending.
  destruct (advance_frame g now tr Hwf Hh Hpending)
    as (g0 & A & HA & Hwf0 & Hh0 & Hv0 & HA' & Hp0 & Hc0).
  destruct (event_self g0 now o Hwf0 Hh0) as (g1 & Hg1 & Hwf1 & Hh1 & Hv1 & Hp1 & Hc1).
  { by rewrite (labelOf_audioView _ _ Hv0). }
  { rewrite (speaking_audioView _ _ Hv0), Hp0.
    destruct Hcond as [?|[?|?]]; auto. }
  exists g1, A. cbn [run handle]. rewrite HA. fields. rewrite Hg1. fields.
  rewrite <- app_assoc. split; [done|]. split; [done|]. split; [done|].
  split; [done|]. rewrite <- (find_audioView _ _ Hv0).
  split; [done|]. split; [by rewrite Hp1|auto].
Qed.

Lemma pending_silent g : speaking g pk = false → pending g pk = None.
Proof.
  intros Hsp. unfold pending.
  by destruct (speaking_false g pk Hsp) as [-> | ->].
Qed.

(** C4, as amended. Activity events for a peer at 0, 200 and 400 ms, for a
    peer that has no timer and whose label is not red, among any timers
    of other peers that have labels of their own: the peer gets its timer
    once, at 0, and loses it once, at 900 ms, and its label turns red at
    0 and stops being red at 900 ms; the one timer is given the deadlines
    500, 700 and 900 ms by the three events. And in any state, an event
    for a peer that has a timer restarts that timer to fire 500 ms later,
    makes no timer and leaves the net-camera view as it is; it sets the
    red style sheet on the label, as every event does. *)
Theorem speaking_debounce f o tEnd :
  QMap.wf ToxPk_lt (peerAudioTimers f) → heard_have_labels pk f →
  labelOf f pk = Ok o → styleSheet o ≠ red → speaking f pk = false →
  netcam f = None ∨ is_Some (QMap.find ToxPk_lt (peers f) pk) →
  (900 ≤ tEnd)%Z →
  (∃ f' tr,
      run [(0%Z, AudioPlaying pk); (200%Z, AudioPlaying pk);
           (400%Z, AudioPlaying pk)] tEnd f [] = Ok (f', tr) ∧
      transitions pk f tr = [(0%Z, true); (900%Z, false)] ∧
      shownTransitions pk f tr = [(0%Z, true); (900%Z, false)] ∧
      deadlines pk f tr =
        [(0%Z, Some 500%Z); (200%Z, Some 700%Z); (400%Z, Some 900%Z);
         (900%Z, None)]) ∧
  (∀ g now t o',
      labelOf g pk = Ok o' →
      QMap.find ToxPk_lt (peerAudioTimers g) pk = Some (Some t) →
      ∃ g', peerAudioPlaying now pk g = Ok g' ∧
        pending g' pk = Some (now + 500)%Z ∧
        length (peerAudioTimers g') = length (peerAudioTimers g) ∧
        netcam g' = netcam g ∧ speaking g' pk = true ∧
        labelOf g' pk = Ok (setStyleSheet red o')).
Proof.
  intros Hwf Hh Hlab Hred Hsp Hcam Hend. split.
  - pose (timer1 := {| singleShot := true; deadline := Some (0 + 500)%Z |}).
    destruct (run_event f 0 [(200%Z, AudioPlaying pk); (400%Z, AudioPlaying pk)]
                tEnd [] o Hwf Hh Hlab (or_intror Hcam))
      as (f1 & A0 & Hrun0 & HA0 & Hwf1 & Hh1 & Hv1 & _).
    { intros d. by rewrite (pending_silent f Hsp). }
    assert (Hv1' : audioView pk f1 = (Ok (setStyleSheet red o), Some (Some timer1)))
      by (rewrite Hv1; by destruct (speaking_false f pk Hsp) as [-> | ->]).
    clear Hv1. assert (Hv1 := Hv1'). unfold audioView in Hv1'.
    injection Hv1' as Hl1 Ht1.
    destruct (run_event f1 200 [(400%Z, AudioPlaying pk)] tEnd
                ([] ++ A0 ++ [(0%Z, f1)]) _ Hwf1 Hh1 Hl1)
      as (f2 & A1 & Hrun1 & HA1 & Hwf2 & Hh2 & Hv2 & _).
    { left. unfold speaking. by rewrite Ht1. }
    { intros d. unfold pending. rewrite Ht1. simpl. intros [= <-]. lia. }
    rewrite Ht1 in Hv2. assert (Hv2' := Hv2). unfold audioView in Hv2'.
    injection Hv2' as Hl2 Ht2.
    destruct (run_event f2 400 [] tEnd
                (([] ++ A0 ++ [(0%Z, f1)]) ++ A1 ++ [(200%Z, f2)]) _ Hwf2 Hh2 Hl2)
      as (f3 & A2 & Hrun2 & HA2 & Hwf3 & Hh3 & Hv3 & _).
    { left. unfold speaking. by rewrite Ht2. }
    { intros d. unfold pending. rewrite Ht2. simpl. intros [= <-]. lia. }
    rewrite Ht2 in Hv3. assert (Hv3' := Hv3). unfold audioView in Hv3'.
    injection Hv3' as Hl3 Ht3.
    destruct (advance_self f3 tEnd
                ((([] ++ A0 ++ [(0%Z, f1)]) ++ A1 ++ [(200%Z, f2)]) ++ A2 ++
                 [(400%Z, f3)])
                _ 900 _ Hwf3 Hh3 Ht3 eq_refl Hend Hl3)
      as (f' & trF & HrunF & HtrF & _).
    exists f'. eexists. split.
    { rewrite Hrun0, Hrun1, Hrun2. cbn [run]. exact HrunF. }
    assert (Hshows : shows (audioView pk) (audioView pk f)
      (((([] ++ A0 ++ [(0%Z, f1)]) ++ A1 ++ [(200%Z, f2)]) ++ A2 ++
        [(400%Z, f3)]) ++ trF)
      [(0%Z, audioView pk f1); (200%Z, audioView pk f2);
       (400%Z, audioView pk f3);
       (900%Z, (Ok (setStyleSheet [] o), Some None))]).
    { rewrite app_nil_l, <- !app_assoc. simpl.
      apply shows_frames; [done|]. apply shows_change.
      apply shows_frames; [done|]. apply shows_change.
      apply shows_frames; [done|]. apply shows_change. exact HtrF. }
    rewrite Hv1, Hv2, Hv3 in Hshows. clear -Hshows Hsp Hlab Hred.
    assert (Hv0 : audioView pk f = (Ok o, None) ∨ audioView pk f = (Ok o, Some None)).
    { unfold audioView. rewrite Hlab.
      destruct (speaking_false f pk Hsp) as [-> | ->]; auto. }
    pose proof (not_red o Hred) as Hred'.
    split; [|split].
    + unfold transitions.
      change (λ g, speaking g pk) with
        (λ g, (λ v : result QLabel * option (option QTimer),
                 match v.2 with Some (Some _) => true | _ => false end)
              (audioView pk g)).
      rewrite (changes_shows _ _ _ _ _ Hshows).
      by destruct Hv0 as [-> | ->].
    + unfold shownTransitions.
      change (λ g, shownSpeaking g pk) with
        (λ g, (λ v : result QLabel * option (option QTimer),
                 match v.1 with
                 | Ok o => QString_eqb (styleSheet o) red
                 | Fault => false
                 end) (audioView pk g)).
      rewrite (changes_shows _ _ _ _ _ Hshows).
      destruct Hv0 as [-> | ->]; cbn [changes fst snd]; rewrite Hred'; done.
    + unfold deadlines.
      change (λ g, pending g pk) with
        (λ g, (λ v : result QLabel * option (option QTimer),
                 match v.2 with Some (Some t) => deadline t | _ => None end)
              (audioView pk g)).
      rewrite (changes_shows _ _ _ _ _ Hshows).
      by destruct Hv0 as [-> | ->].
  - intros g now t o' Hg Ht.
    destruct (peerAudioPlaying_speaking g pk now o' t Hg Ht)
      as (g' & Hg' & Htg & Hlg & Hn & _).
    exists g'. split; [done|]. unfold pending, speaking.
    rewrite Htg, (QMap_find_insert _ ToxPk_lt_irrefl). simpl.
    repeat split; [|done..]. by eapply QMap_insert_found_length.
Qed.
End one_peer.
End debounce_general.

Section audio_and_names.
Context `{Collaborators}.
Implicit Types f g : GroupChatForm.

(** X12. [updateUserNames] leaves no label in the colour of a speaking
    peer, and keeps every timer: a peer that is heard while the roster
    changes has its timer pending and its label in the colour of its
    kind, until the next activity event. *)
Theorem roster_change_resets_colour f :
  QMap.wf ToxPk_lt (peers f) →
  ∃ f', updateUserNames f = Ok f' ∧
    (∀ pk, speaking f' pk = speaking f pk ∧ pending f' pk = pending f pk) ∧
    ∀ k v, (k, v) ∈ peers f →
      ∃ o, labelOf f' k = Ok o ∧ styleSheet o ≠ red.
Proof.
  intros Hwf.
  destruct (updateUserNames_spec f Hwf) as (f' & Hf' & _ & _ & _ & _ & Ht & _ & Hlab).
  exists f'. split; [done|]. split.
  - intros pk. unfold speaking, pending. by rewrite Ht.
  - intros k v Hin. destruct (Hlab k v Hin) as (o & Ho & _ & Hstyle).
    exists o. split; [done|]. rewrite Hstyle. unfold peerLabel. simpl.
    destruct (ToxPk_eqb k (selfPk f)); [done|].
    by destruct (contains (blackList f) (ToxPk_toString k)).
Qed.

(** X13. The net-camera view shows a peer while it is heard. The first
    activity event of a peer of the roster that has no timer takes the
    peer out of the view and adds it with its name; the events that
    follow while the timer runs leave the view as it is; and the timeout
    takes the peer out of the view. *)
Theorem netcam_while_speaking f pk o name view now now' d :
  labelOf f pk = Ok o → speaking f pk = false →
  QMap.find ToxPk_lt (peers f) pk = Some name → netcam f = Some view →
  ∃ f1 f2 f3,
    peerAudioPlaying now pk f = Ok f1 ∧
    peerAudioPlaying now' pk f1 = Ok f2 ∧ fire d pk f2 = Ok f3 ∧
    netcam f1 = Some (addPeer pk name (removePeer pk view)) ∧
    netcam f2 = netcam f1 ∧
    netcam f3 = Some (removePeer pk (addPeer pk name (removePeer pk view))) ∧
    speaking f1 pk = true ∧ speaking f2 pk = true ∧ speaking f3 pk = false.
Proof.
  intros Hlab Hsilent Hname Hview.
  pose proof (peerAudioPlaying_silent f pk now o Hlab Hsilent) as Hf1.
  rewrite Hview, Hname in Hf1.
  destruct (proj1 (labelOf_Ok f pk o) Hlab) as (l & Hfind & Hl).
  rewrite Hfind in Hf1.
  eexists. 
  assert (Hl1 : labelOf
    (set_peerAudioTimers
       (QMap.insert ToxPk_lt pk
          (Some {| singleShot := true; deadline := Some (now + 500)%Z |})
          (peerAudioTimers f))
       (set_netcam (Some (addPeer pk name (removePeer pk view)))
          (set_labels (<[l:=Some (setStyleSheet red o)]> (labels f)) f))) pk
    = Ok (setStyleSheet red o)).
  { apply labelOf_Ok. exists l. fields. split; [done|].
    apply list_lookup_insert_eq. by eapply lookup_lt_Some. }
  destruct (peerAudioPlaying_speaking _ pk now' _ _ Hl1
              (QMap_find_insert _ ToxPk_lt_irrefl _ _ _))
    as (f2 & Hf2 & Ht2 & Hl2 & Hn2 & _).
  assert (Hfind2 : QMap.find ToxPk_lt (peerAudioTimers f2) pk =
            Some (Some (start now' 500
                          {| singleShot := true; deadline := Some (now + 500)%Z |}))).
  { rewrite Ht2. apply (QMap_find_insert _ ToxPk_lt_irrefl). }
  assert (Hl2' : labelOf
    (set_peerAudioTimers
       (QMap.insert ToxPk_lt pk
          (Some (stop (start now' 500
                         {| singleShot := true; deadline := Some (now + 500)%Z |})))
          (peerAudioTimers f2)) f2) pk = Ok (setStyleSheet red o)) by exact Hl2.
  destruct (audioTimeout_Ok _ pk _ Hl2') as (f3 & Hf3 & Ht3 & _ & _ & Hn3).
  exists f2, f3. split; [exact Hf1|]. split; [exact Hf2|].
  split; [by unfold fire; rewrite Hfind2|].
  split; [done|]. split; [done|]. split.
  { rewrite Hn3. fields. by rewrite Hn2. }
  unfold speaking. rewrite Hfind2, Ht3. fields.
  by rewrite !(QMap_find_insert _ ToxPk_lt_irrefl).
Qed.
End audio_and_names.

(** ** createNetcam *)

Section createNetcam_claims.
Context `{Collaborators}.
Implicit Types f g : GroupChatForm.

(** X14. [createNetcam] never fails on a roster: every [find] it
    dereferences is of a key of the map. The view it returns has been
    given every peer of the roster but the own one, the blacklisted ones
    too, each with its name, in the order of the roster. *)
Theorem createNetcam_spec (view : GroupNetCamView) f :
  QMap.wf ToxPk_lt (peers f) →
  createNetcam view f =
  Ok (addPeers (List.filter (notOwn (selfPk f)) (peers f)) view).
Proof.
  intros Hwf. unfold createNetcam. cbv zeta.
  assert (Hpre : ∀ seen todo, peers f = seen ++ todo →
    foldl (λ r peerPk,
             view ← r;
             if negb (ToxPk_eqb peerPk (selfPk f)) then
               match QMap.find ToxPk_lt (peers f) peerPk with
               | Some name => Ok (addPeer peerPk name view)
               | None => Fault
               end
             else Ok view) (Ok view) (QMap.keys seen) =
    Ok (addPeers (List.filter (notOwn (selfPk f)) seen) view)).
  { induction seen as [|[k v] seen IH] using rev_ind; intros todo Hps; [done|].
    unfold QMap.keys in *. rewrite fmap_app. simpl. rewrite foldl_snoc.
    rewrite (IH ([(k, v)] ++ todo)) by (by rewrite app_assoc). simpl.
    rewrite (QMap_find_elem_of _ ToxPk_lt_irrefl k v); [|done|].
    - unfold addPeers. rewrite List.filter_app. simpl.
      change (notOwn (selfPk f) (k, v)) with (negb (ToxPk_eqb k (selfPk f))).
      destruct (ToxPk_eqb k (selfPk f)); simpl;
        [by rewrite app_nil_r|by rewrite foldl_snoc].
    - rewrite Hps, !elem_of_app. left. right. constructor. }
  apply (Hpre (peers f) []). by rewrite app_nil_r.
Qed.
End createNetcam_claims.

(** ** The call controls *)

Lemma land_ControlModifier (modifiers : Z) :
  (Z.land modifiers ControlModifier =? 0)%Z = negb (Z.testbit modifiers 26).
Proof.
  change ControlModifier with (2 ^ 26)%Z.
  destruct (Z.testbit modifiers 26) eqn:Hbit; simpl.
  - apply Z.eqb_neq. intros Hzero.
    assert (Hb : Z.testbit (Z.land modifiers (2 ^ 26)) 26 = true)
      by (by rewrite Z.land_spec, Hbit, Z.pow2_bits_true).
    by rewrite Hzero in Hb.
  - apply Z.eqb_eq, Z.bits_inj'. intros n Hn.
    rewrite Z.land_spec, Z.pow2_bits_eqb, Z.bits_0 by lia.
    destruct (Z.eqb_spec 26 n) as [<-|]; [by rewrite Hbit|apply andb_false_r].
Qed.



(** X16. Push to talk is Control and P, whatever else is held. A key press
    does something exactly when the key is [Key_P], bit 26 of the
    modifiers, which is [ControlModifier], is set, the form is in a call
    and the audio input flag is set: it then tells the AV the opposite of
    the mute state it reports, and the header too. A key release does
    what a key press does. *)
Theorem push_to_talk_keys (key modifiers : Z) (oldMuteState : bool)
    (s : CallControls) :
  keyPressEvent key modifiers oldMuteState s =
    (s, if (key =? 80)%Z && Z.testbit modifiers 26 && inCall s
           && audioInputFlag s
        then [muteCallInput (negb oldMuteState);
              updateMuteMicButton true (negb oldMuteState)]
        else []) ∧
  keyReleaseEvent key modifiers oldMuteState s =
    keyPressEvent key modifiers oldMuteState s.
Proof.
  split; [|done]. unfold keyPressEvent, onMicMuteToggle.
  rewrite land_ControlModifier, negb_involutive. change Key_P with 80%Z.
  destruct (key =? 80)%Z, (Z.testbit modifiers 26), (inCall s) eqn:Hcall,
    (audioInputFlag s); simpl; by rewrite ?Hcall.
Qed.

(** X17. A change of the roster can take the form out of the group call
    and leave [inCall] set: with one peer or less, or in a group without
    audio, [onUserListChanged] leaves the call and changes none of the
    call controls. The next click on the call button then leaves the call
    once more, and does not join it. *)
Theorem dropped_call_stays_inCall (s : CallControls) (peersCount : Z)
    (isAvGroupchat : bool) :
  inCall s = true → ((peersCount ≤ 1)%Z ∨ isAvGroupchat = false) →
  let r := onUserListChanged peersCount isAvGroupchat s in
  r.1 = s ∧ leaveGroupCall ∈ r.2 ∧ (joinGroupCall ∉ r.2) ∧
  ∀ peersCount' inMute outMute,
    let r' := onCallClicked peersCount' inMute outMute r.1 in
    inCall r'.1 = false ∧ leaveGroupCall ∈ r'.2 ∧ (joinGroupCall ∉ r'.2).
Proof.
  intros Hcall Hdrop. unfold onUserListChanged. cbv zeta.
  assert (Hif : negb (1 <? peersCount)%Z || negb isAvGroupchat = true).
  { destruct Hdrop as [Hle| ->]; [|apply orb_true_r].
    destruct (Z.ltb_spec 1 peersCount); [lia|done]. }
  rewrite Hif. simpl. split; [done|]. split; [|split].
  - rewrite !elem_of_cons. auto.
  - rewrite !elem_of_cons, elem_of_nil. by intros [?|[?|[?|?]]].
  - intros peersCount' inMute outMute. unfold onCallClicked. rewrite Hcall.
    simpl. split; [done|]. split.
    + rewrite !elem_of_cons. auto.
    + rewrite !elem_of_cons, elem_of_nil. by intros [?|[?|[?|[?|[?|?]]]]].
Qed.

(** X18. Two clicks on the call button bring the call controls back to
    where they were, when they were coherent: one joins the call and the
    other leaves it. *)
Theorem call_clicked_twice (s : CallControls) (peersCount peersCount' : Z)
    (inMute outMute inMute' outMute' : bool) :
  coherent s →
  let r := onCallClicked peersCount inMute outMute s in
  let r' := onCallClicked peersCount' inMute' outMute' r.1 in
  r'.1 = s ∧ inCall r.1 = negb (inCall s) ∧
  (joinGroupCall ∈ r.2 ↔ leaveGroupCall ∈ r'.2) ∧
  (leaveGroupCall ∈ r.2 ↔ joinGroupCall ∈ r'.2).
Proof.
  intros [Hin Hout]. destruct s as [[] input output]; simpl in *; subst;
    unfold onCallClicked; simpl; (split; [done|]); (split; [done|]);
    rewrite !elem_of_cons, !elem_of_nil; split; split; intros Hor;
    repeat (destruct Hor as [Hor|Hor]; try done); auto.
Qed.

(** ** Examples of the further properties *)

Lemma wf_roster_Me_Eve : QMap.wf ToxPk_lt roster_Me_Eve.
Proof. by apply wf_cons2. Qed.

(** X3, witness: the labels of [Me] and [Eve] are replaced. *)
Lemma layout_labels_replaced_witness :
  QMap.wf ToxPk_lt (peers labelled_Me_Eve) ∧
  Forall (live labelled_Me_Eve) (namesListLayout labelled_Me_Eve) ∧
  NoDup (namesListLayout labelled_Me_Eve) ∧
  ∃ f', updateUserNames labelled_Me_Eve = Ok f' ∧
    (∀ p, p ∈ namesListLayout labelled_Me_Eve → deref (labels f') p = Fault) ∧
    Forall (live f') (namesListLayout f') ∧ NoDup (namesListLayout f') ∧
    (∀ p, p ∈ namesListLayout f' → p ∉ namesListLayout labelled_Me_Eve).
Proof.
  assert (Hlive : Forall (live labelled_Me_Eve) (namesListLayout labelled_Me_Eve))
    by (repeat constructor; eexists; reflexivity).
  assert (Hnodup : NoDup (namesListLayout labelled_Me_Eve))
    by (apply (bool_decide_unpack _); reflexivity).
  split; [exact wf_roster_Me_Eve|]. split; [exact Hlive|]. split; [exact Hnodup|].
  exact (layout_labels_replaced labelled_Me_Eve wf_roster_Me_Eve Hlive Hnodup).
Defined.

(** X4, witness. *)
Lemma peer_label_on_display_witness :
  QMap.wf ToxPk_lt (peers form_Me_Eve) ∧
  ∃ f', updateUserNames form_Me_Eve = Ok f' ∧
    namesListLayout f' ≡ₚ QMap.values (peerLabels f') ∧
    ∀ k v, (k, v) ∈ peers form_Me_Eve →
      ∃ o, labelOf f' k = Ok o ∧ Ok o ∈ displayed f' ∧
        toolTip o = v ∧ textFormat o = PlainText ∧
        (text o = editName v ++ QStringLiteral ", " ∨ text o = editName v).
Proof.
  split; [exact wf_roster_Me_Eve|].
  exact (peer_label_on_display form_Me_Eve wf_roster_Me_Eve).
Defined.

(** X5, witness: with a net-camera view, whose peers are cleared. *)
Lemma netcam_after_updateUserNames_witness :
  QMap.wf ToxPk_lt (peers (set_netcam (Some []) form_Me_Eve)) ∧
  ∃ f', updateUserNames (set_netcam (Some []) form_Me_Eve) = Ok f' ∧
    netcam f' = Some [].
Proof.
  split; [exact wf_roster_Me_Eve|].
  exact (netcam_after_updateUserNames (set_netcam (Some []) form_Me_Eve)
           wf_roster_Me_Eve).
Defined.

(** X6, witness. *)
Lemma names_comma_separated_witness :
  QMap.wf ToxPk_lt (peers form_Me_Eve) ∧
  ∃ f' entries, updateUserNames form_Me_Eve = Ok f' ∧
    displayed f' = Ok <$> entries ∧
    fullName <$> entries ≡ₚ QMap.values (peers form_Me_Eve) ∧
    ∀ i o, entries !! i = Some o →
      text o =
        editName (fullName o) ++
        (if decide (S i = length (peers form_Me_Eve)) then []
         else QStringLiteral ", ").
Proof.
  split; [exact wf_roster_Me_Eve|].
  exact (names_comma_separated form_Me_Eve wf_roster_Me_Eve).
Defined.

(** X7, witness: a form that shows nothing yet, with a blacklist, and one
    that has its labels, without. *)
Lemma names_depend_on_roster_only_witness :
  QMap.wf ToxPk_lt (peers form_Me_Eve) ∧
  peers labelled_Me_Eve = peers form_Me_Eve ∧
  ∃ f' g' entries entries',
    updateUserNames form_Me_Eve = Ok f' ∧
    updateUserNames labelled_Me_Eve = Ok g' ∧
    displayed f' = Ok <$> entries ∧ displayed g' = Ok <$> entries' ∧
    setStyleSheet [] <$> entries = setStyleSheet [] <$> entries'.
Proof.
  split; [exact wf_roster_Me_Eve|]. split; [reflexivity|].
  exact (names_depend_on_roster_only form_Me_Eve labelled_Me_Eve
           wf_roster_Me_Eve eq_refl).
Defined.

(** X9, witness: [P2] leaves the roster. *)
Lemma audio_serves_the_roster_witness :
  QMap.wf ToxPk_lt (peers (set_peers roster_Me labelled_Me_Eve)) ∧
  ∃ f', updateUserNames (set_peers roster_Me labelled_Me_Eve) = Ok f' ∧
    peerAudioTimers f' = peerAudioTimers (set_peers roster_Me labelled_Me_Eve) ∧
    ∀ pk now,
      (peerAudioPlaying now pk f' = Fault ↔
         QMap.find ToxPk_lt (peers (set_peers roster_Me labelled_Me_Eve)) pk = None) ∧
      (audioTimeout pk f' = Fault ↔
         QMap.find ToxPk_lt (peers (set_peers roster_Me labelled_Me_Eve)) pk = None).
Proof.
  assert (Hwf : QMap.wf ToxPk_lt roster_Me)
    by (unfold QMap.wf; simpl; repeat constructor).
  split; [exact Hwf|].
  exact (audio_serves_the_roster (set_peers roster_Me labelled_Me_Eve) Hwf).
Defined.

(** X14, witness: [Eve] is shown, blacklisted as she is, and [Me] is
    not. *)
Lemma createNetcam_spec_witness :
  QMap.wf ToxPk_lt (peers form_Me_Eve) ∧
  createNetcam [] form_Me_Eve = Ok [(2%N, QStringLiteral "Eve")].
Proof.
  split; [exact wf_roster_Me_Eve|].
  exact (createNetcam_spec [] form_Me_Eve wf_roster_Me_Eve).
Defined.


(** X17, witness: the last peer leaves a call. *)
Lemma dropped_call_stays_inCall_witness :
  let s := {| inCall := true; audioInputFlag := true; audioOutputFlag := true |} in
  inCall s = true ∧ ((1 ≤ 1)%Z ∨ true = false) ∧
  (onUserListChanged 1 true s).1 = s ∧
  leaveGroupCall ∈ (onUserListChanged 1 true s).2 ∧
  (joinGroupCall ∉ (onUserListChanged 1 true s).2) ∧
  ∀ peersCount' inMute outMute,
    inCall (onCallClicked peersCount' inMute outMute
              (onUserListChanged 1 true s).1).1 = false ∧
    leaveGroupCall ∈ (onCallClicked peersCount' inMute outMute
                        (onUserListChanged 1 true s).1).2 ∧
    (joinGroupCall ∉ (onCallClicked peersCount' inMute outMute
                        (onUserListChanged 1 true s).1).2).
Proof.
  split; [reflexivity|]. split; [left; lia|].
  exact (dropped_call_stays_inCall
           {| inCall := true; audioInputFlag := true; audioOutputFlag := true |}
           1%Z true eq_refl (or_introl (Z.le_refl 1))).
Defined.

(** X18, witness. *)
Lemma call_clicked_twice_witness :
  coherent notInCall ∧
  (onCallClicked 2 false false (onCallClicked 2 false false notInCall).1).1
    = notInCall ∧
  inCall (onCallClicked 2 false false notInCall).1 = negb (inCall notInCall) ∧
  (joinGroupCall ∈ (onCallClicked 2 false false notInCall).2 ↔
   leaveGroupCall ∈
     (onCallClicked 2 false false (onCallClicked 2 false false notInCall).1).2) ∧
  (leaveGroupCall ∈ (onCallClicked 2 false false notInCall).2 ↔
   joinGroupCall ∈
     (onCallClicked 2 false false (onCallClicked 2 false false notInCall).1).2).
Proof.
  assert (Hs : coherent notInCall) by (by split).
  split; [exact Hs|].
  exact (call_clicked_twice notInCall 2%Z 2%Z false false false false Hs).
Defined.

(** X12, witness. *)
Lemma roster_change_resets_colour_witness :
  QMap.wf ToxPk_lt (peers labelled_Me_Eve) ∧
  ∃ f', updateUserNames labelled_Me_Eve = Ok f' ∧
    (∀ pk, speaking f' pk = speaking labelled_Me_Eve pk ∧
           pending f' pk = pending labelled_Me_Eve pk) ∧
    ∀ k v, (k, v) ∈ peers labelled_Me_Eve →
      ∃ o, labelOf f' k = Ok o ∧ styleSheet o ≠ red.
Proof.
  split; [exact wf_roster_Me_Eve|].
  exact (roster_change_resets_colour labelled_Me_Eve wf_roster_Me_Eve).
Defined.

(** X13, witness: [Eve] is heard at 0 and at 200 ms. *)
Lemma netcam_while_speaking_witness :
  ∃ f1 f2 f3,
    peerAudioPlaying 0 2%N (set_netcam (Some []) labelled_Me_Eve) = Ok f1 ∧
    peerAudioPlaying 200 2%N f1 = Ok f2 ∧ fire 700 2%N f2 = Ok f3 ∧
    netcam f1 = Some [(2%N, QStringLiteral "Eve")] ∧
    netcam f2 = netcam f1 ∧ netcam f3 = Some [] ∧
    speaking f1 2%N = true ∧ speaking f2 2%N = true ∧ speaking f3 2%N = false.
Proof.
  refine (netcam_while_speaking (set_netcam (Some []) labelled_Me_Eve) 2%N
            (peerLabel 1%N [] (2%N, QStringLiteral "Eve"))
            (QStringLiteral "Eve") [] 0%Z 200%Z 700%Z _ _ _ _);
    reflexivity.
Defined.

(** X10, witness: [P2] is heard at 0, 200 and 400 ms. *)
Lemma burst_is_one_interval_witness :
  ∃ f' tr,
    run ((λ t, (t, AudioPlaying 2%N)) <$> [0; 200; 400]%Z) 1000 labelled_Me_Eve []
      = Ok (f', tr) ∧
    transitions 2%N labelled_Me_Eve tr = [(0%Z, true); (900%Z, false)] ∧
    shownTransitions 2%N labelled_Me_Eve tr = [(0%Z, true); (900%Z, false)] ∧
    idle f' ∧
    labelOf f' 2%N =
      Ok (setStyleSheet [] (peerLabel 1%N [] (2%N, QStringLiteral "Eve"))).
Proof.
  refine (burst_is_one_interval labelled_Me_Eve 2%N
            (peerLabel 1%N [] (2%N, QStringLiteral "Eve")) 0%Z [200; 400]%Z
            1000%Z _ _ _ _ _ _).
  - reflexivity.
  - discriminate.
  - constructor.
  - by left.
  - intros [|[|[|i]]] a b; simpl; intros [= <-] [= <-]; lia.
  - simpl. lia.
Defined.

(** X11, witness: [P2] is heard at 0 and at 600 ms. *)
Lemma pause_is_two_intervals_witness :
  ∃ f' tr,
    run [(0%Z, AudioPlaying 2%N); (600%Z, AudioPlaying 2%N)] 1200
      labelled_Me_Eve [] = Ok (f', tr) ∧
    transitions 2%N labelled_Me_Eve tr =
      [(0%Z, true); (500%Z, false); (600%Z, true); (1100%Z, false)] ∧
    shownTransitions 2%N labelled_Me_Eve tr =
      [(0%Z, true); (500%Z, false); (600%Z, true); (1100%Z, false)] ∧
    idle f'.
Proof.
  refine (pause_is_two_intervals labelled_Me_Eve 2%N
            (peerLabel 1%N [] (2%N, QStringLiteral "Eve")) 0%Z 600%Z 1200%Z
            _ _ _ _ _ _).
  - reflexivity.
  - discriminate.
  - constructor.
  - by eexists.
  - lia.
  - lia.
Defined.

(** ** Examples of the debounce *)

Lemma N_ltb_trans (a b c : N) :
  (a <? b)%N = true → (b <? c)%N = true → (a <? c)%N = true.
Proof. rewrite !N.ltb_lt. lia. Qed.

Lemma N_ltb_total (a b : N) :
  (a <? b)%N = false → (b <? a)%N = false → a = b.
Proof. rewrite !N.ltb_ge. lia. Qed.

Lemma Me_heard_have_labels : heard_have_labels 2%N Me_heard.
Proof.
  intros pk t Hfind Hne. simpl in Hfind.
  destruct (N.ltb_spec 1 pk); [done|]. destruct (N.ltb_spec pk 1); [done|].
  assert (pk = 1%N) as -> by lia.
  eexists 0%nat, _. split; [reflexivity|]. split; [reflexivity|]. discriminate.
Qed.

(** C4, witness: [P2] is heard at 0, 200 and 400 ms while [P1] has a
    timer, which fires at 300 ms. *)
Lemma speaking_debounce_witness :
  ∃ f' tr,
    run [(0%Z, AudioPlaying 2%N); (200%Z, AudioPlaying 2%N);
         (400%Z, AudioPlaying 2%N)] 1000 Me_heard [] = Ok (f', tr) ∧
    transitions 2%N Me_heard tr = [(0%Z, true); (900%Z, false)] ∧
    shownTransitions 2%N Me_heard tr = [(0%Z, true); (900%Z, false)] ∧
    deadlines 2%N Me_heard tr =
      [(0%Z, Some 500%Z); (200%Z, Some 700%Z); (400%Z, Some 900%Z);
       (900%Z, None)].
Proof.
  refine (proj1 (speaking_debounce N_ltb_trans N_ltb_total 2%N Me_heard
                   (peerLabel 1%N [] (2%N, QStringLiteral "Eve")) 1000%Z
                   _ Me_heard_have_labels _ _ _ _ _)).
  - unfold QMap.wf. simpl. repeat constructor.
  - reflexivity.
  - discriminate.
  - reflexivity.
  - by left.
  - lia.
Defined.

(** The run of the witness: the timer of [P1] fires between the events
    of [P2]. *)
Example speaking_debounce_rows :
  ∃ f' tr,
    run [(0%Z, AudioPlaying 2%N); (200%Z, AudioPlaying 2%N);
         (400%Z, AudioPlaying 2%N)] 1000 Me_heard [] = Ok (f', tr) ∧
    tr.*1 = [0; 200; 300; 400; 900]%Z ∧
    transitions 1%N Me_heard tr = [(300%Z, false)].
Proof. eexists _, _. split; [vm_compute; reflexivity|]. by split. Qed.

(** C4, counterexample. [P2] is heard at 0 ms and the group announces its
    peer list at 100 ms: [P2] has its timer and a new label, which is not
    red. The event at 200 ms finds [P2] with a timer and makes its label
    red: the style of a speaking peer is applied again. Over the run the
    peer gets and loses its timer once, and its label turns red twice. *)
Lemma speaking_style_applied_again :
  (∃ f tr, run heard_relabelled 100 labelled_Me_Eve [] = Ok (f, tr) ∧
     speaking f 2%N = true ∧ shownSpeaking f 2%N = false ∧
     (∃ f', peerAudioPlaying 200 2%N f = Ok f' ∧ shownSpeaking f' 2%N = true) ∧
     ¬ not_re_emitted 200 2%N f) ∧
  (∃ f tr, run (heard_relabelled ++ [(200%Z, AudioPlaying 2%N)]) 1000
             labelled_Me_Eve [] = Ok (f, tr) ∧
     transitions 2%N labelled_Me_Eve tr = [(0%Z, true); (700%Z, false)] ∧
     shownTransitions 2%N labelled_Me_Eve tr =
       [(0%Z, true); (100%Z, false); (200%Z, true); (700%Z, false)]).
Proof.
  split.
  - eexists _, _. split; [vm_compute; reflexivity|].
    split; [reflexivity|]. split; [reflexivity|]. split.
    + eexists. split; [vm_compute; reflexivity|]. reflexivity.
    + intros Hnot. specialize (Hnot eq_refl _ eq_refl). discriminate.
  - eexists _, _. split; [vm_compute; reflexivity|]. by split.
Qed.
